(** * hezop-analyzer: pipeline flow reconstruction and tag classification

    A shallow embedding of the flow builder ([s2_DS.py]), the tag
    normalizers ([s4_normalize_tags.py], [main.py]) and the tag classifier
    ([s5_classify_tags.py]), together with the part of Python's [difflib]
    that [similarity] calls; and of the code around them: the table
    reader and [clean_text] of [s2_DS.py], the normalization stage of
    [s4_normalize_tags.py] and the retrieval functions of [main.py].

    Conventions.
    - A Python [str] is a [string]: a sequence of code points below 256.
    - A Python [list] is a [list]; [dict]s whose iteration order is
      observable are association lists in insertion order; the
      position-insensitive dictionaries of [difflib] are [gmap]s.
    - A [while] loop is a fuel-indexed function returning [option]; that
      the fuel suffices is proved, never assumed.
    - An uncaught Python exception is [None].
    - The reverse index of [main.py] and the dictionary it is used to
      fill are [gmap]s: what they hold is modelled, the order of their
      items is not.
    - A similarity score is the rational [2 * M / T] that
      [_calculate_ratio] divides out, not its rounding to a double; the
      rounding keeps the order of any two scores of sequences shorter than
      2^26 elements. A threshold is the rational the caller wrote. *)

From Stdlib Require Import List String Ascii Arith ZArith QArith Lia.
From stdpp Require Import gmap strings list pretty.
Import ListNotations.
Open Scope string_scope.
Open Scope nat_scope.
Open Scope list_scope.

(** ** Python values and the string built-ins the sources call *)

Module Py.

(** A value as [json.load] builds it. A float is identified by its
    [repr] (["0.1"], ["nan"], ...), which is all the sources observe of
    it; a [dict] keeps its items in insertion order. *)
#[local] Unset Elimination Schemes.
Inductive value : Type :=
| VNone
| VBool (b : bool)
| VInt (z : Z)
| VFloat (repr : string)
| VStr (s : string)
| VList (items : list value)
| VDict (items : list (string * value)).
#[local] Set Elimination Schemes.

Definition dict : Type := list (string * value).

(** [isinstance(v, str)] and [isinstance(v, list)]. *)
Definition is_str (v : value) : bool :=
  match v with VStr _ => true | _ => false end.

Definition is_list (v : value) : bool :=
  match v with VList _ => true | _ => false end.

(** Truth value of [v] in a condition. *)
Definition truthy (v : value) : bool :=
  match v with
  | VNone => false
  | VBool b => b
  | VInt z => negb (z =? 0)%Z
  | VFloat r => negb (bool_decide (r = "0.0" ∨ r = "-0.0"))
  | VStr s => negb (bool_decide (s = ""))
  | VList l => match l with [] => false | _ => true end
  | VDict d => match d with [] => false | _ => true end
  end.

(** *** [dict] operations, on items in insertion order *)

(** [d.get(key)] as an [option]: [None] is "no such key". *)
Fixpoint dict_lookup {V : Type} (d : list (string * V)) (key : string) : option V :=
  match d with
  | [] => None
  | (k, v) :: rest => if decide (k = key) then Some v else dict_lookup rest key
  end.

(** [d[key] = v]: an existing key keeps its place, a new one goes last. *)
Fixpoint dict_set {V : Type} (d : list (string * V)) (key : string) (v : V)
  : list (string * V) :=
  match d with
  | [] => [(key, v)]
  | (k, v') :: rest =>
      if decide (k = key) then (k, v) :: rest else (k, v') :: dict_set rest key v
  end.

(** *** Characters *)

Definition code (c : ascii) : nat := nat_of_ascii c.

Definition between (lo hi : nat) (c : ascii) : bool :=
  (lo <=? code c) && (code c <=? hi).

(** The class [[a-zA-Z0-9]] of [re]. *)
Definition is_ascii_alnum (c : ascii) : bool :=
  between 97 122 c || between 65 90 c || between 48 57 c.

(** [c.lower()] for a code point below 256: the upper-case letters are
    [A-Z] and U+00C0..U+00DE except the multiplication sign U+00D7, each
    32 below its lower-case form. *)
Definition lower_char (c : ascii) : ascii :=
  if between 65 90 c || (between 192 222 c && negb (code c =? 215))
  then ascii_of_nat (code c + 32)
  else c.

(** [c.isspace()] for a code point below 256. *)
Definition is_space (c : ascii) : bool :=
  between 9 13 c || between 28 32 c || (code c =? 133) || (code c =? 160).

(** *** Strings *)

(** [s.lower()]. *)
Fixpoint lower (s : string) : string :=
  match s with
  | EmptyString => EmptyString
  | String c rest => String (lower_char c) (lower rest)
  end.

(** [s.lstrip()], [s.rstrip()] and [s.strip()]. *)
Fixpoint lstrip (s : string) : string :=
  match s with
  | EmptyString => EmptyString
  | String c rest => if is_space c then lstrip rest else s
  end.

Fixpoint rstrip (s : string) : string :=
  match s with
  | EmptyString => EmptyString
  | String c rest =>
      match rstrip rest with
      | EmptyString => if is_space c then EmptyString else String c EmptyString
      | rest' => String c rest'
      end
  end.

Definition strip (s : string) : string := rstrip (lstrip s).

(** The characters of a string, for indexing. *)
Definition chars (s : string) : list ascii := list_ascii_of_string s.

End Py.

Import Py.

(** ** Flow builder ([s2_DS.py]) *)

Module FlowBuilder.

(** One row of a pipeline: [{'from': ..., 'to': ...}]. *)
Record Segment : Type := mkSegment { seg_from : string; seg_to : string }.

#[global] Instance Segment_eq_dec : EqDecision Segment.
Proof. solve_decision. Defined.

(** The two local variables of the loop: [flow] and [used_connections]. *)
Record state : Type := mkState { flow : list string; used_connections : list nat }.

(** Result of one of the two searching [for] loops: the index that was
    appended to [used_connections] and the node that was added to [flow]. *)
Definition hit : Type := (nat * string)%type.

(** [for i, conn in enumerate(connections)] of lines 93-104, entered at
    index [i] with the remaining rows [conns]; stops at the first hit. *)
Fixpoint scan_tail (last_node : string) (used : list nat) (i : nat)
         (conns : list Segment) : option hit :=
  match conns with
  | [] => None
  | conn :: rest =>
      if decide (i ∈ used) then scan_tail last_node used (S i) rest
      else if decide (seg_from conn = last_node) then Some (i, seg_to conn)
      else if decide (seg_to conn = last_node) then Some (i, seg_from conn)
      else scan_tail last_node used (S i) rest
  end.

(** The [for] loop of lines 109-120: same scan against [flow[0]], testing
    ['to'] before ['from']. *)
Fixpoint scan_head (first_node : string) (used : list nat) (i : nat)
         (conns : list Segment) : option hit :=
  match conns with
  | [] => None
  | conn :: rest =>
      if decide (i ∈ used) then scan_head first_node used (S i) rest
      else if decide (seg_to conn = first_node) then Some (i, seg_from conn)
      else if decide (seg_from conn = first_node) then Some (i, seg_to conn)
      else scan_head first_node used (S i) rest
  end.

(** Lines 127-130: the two guarded appends for one disconnected row. The
    second membership test sees the first append. *)
Definition add_endpoints (fl : list string) (conn : Segment) : list string :=
  let fl1 := if decide (seg_from conn ∈ fl) then fl else fl ++ [seg_from conn] in
  if decide (seg_to conn ∈ fl1) then fl1 else fl1 ++ [seg_to conn].

(** The [for] loop of lines 124-131. [used_connections] grows while the
    loop runs and is consulted by the later iterations. *)
Fixpoint absorb (i : nat) (conns : list Segment) (st : state) : state :=
  match conns with
  | [] => st
  | conn :: rest =>
      if decide (i ∈ used_connections st) then absorb (S i) rest st
      else absorb (S i) rest
             (mkState (add_endpoints (flow st) conn) (used_connections st ++ [i]))
  end.

(** How one pass through the body of the [while] ends. *)
Inductive outcome : Type :=
| Continue (st : state)   (* falls off the end of the body: test the guard again *)
| Break (st : state).     (* line 132 *)

(** Lines 89-132. [flow[-1]] and [flow[0]] raise [IndexError] on an empty
    list, hence the [option]. *)
Definition loop_body (connections : list Segment) (st : state) : option outcome :=
  last_node ← last (flow st);
  match scan_tail last_node (used_connections st) 0 connections with
  | Some (i, node) =>
      Some (Continue (mkState (flow st ++ [node]) (used_connections st ++ [i])))
  | None =>
      first_node ← head (flow st);
      match scan_head first_node (used_connections st) 0 connections with
      | Some (i, node) =>
          Some (Continue (mkState (node :: flow st) (used_connections st ++ [i])))
      | None => Some (Break (absorb 0 connections st))
      end
  end.

(** Lines 88-132: [while len(used_connections) < len(connections)].
    [None] is "out of fuel" or an exception in the body. *)
Fixpoint while_loop (fuel : nat) (connections : list Segment) (st : state)
  : option state :=
  if decide (length (used_connections st) < length connections) then
    match fuel with
    | O => None
    | S fuel' =>
        match loop_body connections st with
        | Some (Continue st') => while_loop fuel' connections st'
        | Some (Break st') => Some st'
        | None => None
        end
    end
  else Some st.

(** Lines 74-134, run with [fuel] passes of the [while] loop allowed. *)
Definition build_flow_fuel (fuel : nat) (connections : list Segment)
  : option (list string) :=
  match connections with
  | [] => Some []
  | [c] => Some [seg_from c; seg_to c]
  | c :: _ =>
      flow <$> while_loop fuel connections (mkState [seg_from c; seg_to c] [0])
  end.

(** [build_flow_by_following_sequence(connections)]. One pass per row is
    always enough (see [while_loop_total]). *)
Definition build_flow_by_following_sequence (connections : list Segment)
  : option (list string) :=
  build_flow_fuel (length connections) connections.

(** *** The stitching rule as the specification words it

    The specification speaks of "unused segments in original order"; here
    they are kept as the list [pending] and a consumed segment is removed
    from it. *)

(** Step 1: how a segment attaches to the current last node, if it does. *)
Definition attach_tail (last_node : string) (s : Segment) : option string :=
  if decide (seg_from s = last_node) then Some (seg_to s)
  else if decide (seg_to s = last_node) then Some (seg_from s)
  else None.

(** Step 2: how a segment attaches to the current first node. *)
Definition attach_head (first_node : string) (s : Segment) : option string :=
  if decide (seg_to s = first_node) then Some (seg_from s)
  else if decide (seg_from s = first_node) then Some (seg_to s)
  else None.

(** "Take the first such segment found": the node it contributes and the
    segments left over. *)
Fixpoint first_attaching (attach : Segment → option string)
         (pending : list Segment) : option (string * list Segment) :=
  match pending with
  | [] => None
  | s :: rest =>
      match attach s with
      | Some node => Some (node, rest)
      | None =>
          '(node, rest') ← first_attaching attach rest;
          Some (node, s :: rest')
      end
  end.

(** Step 3: "append any of their endpoints not already present in the
    sequence (both [from] and [to], each only if not already a member)". *)
Definition append_if_absent (sequence : list string) (node : string)
  : list string :=
  if decide (node ∈ sequence) then sequence else sequence ++ [node].

Definition absorb_loose (sequence : list string) (pending : list Segment)
  : list string :=
  foldl (λ sq s, append_if_absent (append_if_absent sq (seg_from s)) (seg_to s))
        sequence pending.

(** "Repeat until all segments are consumed"; [n] bounds the number of
    rounds and is the number of pending segments at the start. *)
Fixpoint stitch (n : nat) (sequence : list string) (pending : list Segment)
  : list string :=
  match n, pending with
  | _, [] => sequence
  | O, _ => sequence
  | S n', _ =>
      match first_attaching (attach_tail (default "" (last sequence))) pending with
      | Some (node, rest) => stitch n' (sequence ++ [node]) rest
      | None =>
          match first_attaching (attach_head (default "" (head sequence))) pending with
          | Some (node, rest) => stitch n' (node :: sequence) rest
          | None => absorb_loose sequence pending
          end
      end
  end.

Definition spec_buildFlow (segments : list Segment) : list string :=
  match segments with
  | [] => []
  | [s] => [seg_from s; seg_to s]
  | s :: rest => stitch (length rest) [seg_from s; seg_to s] rest
  end.

(** The rows whose index (counted from [i]) is not in [used], in table
    order: what the specification calls the unused segments. *)
Fixpoint unused (i : nat) (used : list nat) (conns : list Segment)
  : list Segment :=
  match conns with
  | [] => []
  | conn :: rest =>
      if decide (i ∈ used) then unused (S i) used rest
      else conn :: unused (S i) used rest
  end.

(** The common shape of the two searching loops, over any attachment
    test; [scan_tail] and [scan_head] are instances ([scan_tail_scan],
    [scan_head_scan]). *)
Fixpoint scan (attach : Segment → option string) (used : list nat) (i : nat)
         (conns : list Segment) : option hit :=
  match conns with
  | [] => None
  | conn :: rest =>
      if decide (i ∈ used) then scan attach used (S i) rest
      else match attach conn with
           | Some node => Some (i, node)
           | None => scan attach used (S i) rest
           end
  end.

(** What the loop maintains: indices are used once and are in range, the
    flow has a first and a last node, and both ends of every used row are
    in the flow. *)
Record invariant (connections : list Segment) (st : state) : Prop := {
  inv_nodup : NoDup (used_connections st);
  inv_range : ∀ i, i ∈ used_connections st → i < length connections;
  inv_nonempty : flow st ≠ [];
  inv_endpoints : ∀ i conn, i ∈ used_connections st → connections !! i = Some conn →
                  seg_from conn ∈ flow st ∧ seg_to conn ∈ flow st
}.

End FlowBuilder.

Import FlowBuilder.

(** ** Tag normalizers ([s4_normalize_tags.py], [main.py]) *)

Module Normalizer.

(** [re.sub(r'[^a-zA-Z0-9]', '', tag)]. *)
Fixpoint re_sub_non_alnum (tag : string) : string :=
  match tag with
  | EmptyString => EmptyString
  | String c rest =>
      if is_ascii_alnum c then String c (re_sub_non_alnum rest)
      else re_sub_non_alnum rest
  end.

(** [normalize_tag] of [s4_normalize_tags.py], lines 5-9: anything that
    is not a [str] is handed back as it came. *)
Module S4.
Definition normalize_tag (tag : value) : value :=
  match tag with
  | VStr s => VStr (lower (re_sub_non_alnum s))
  | _ => tag
  end.
End S4.

(** [normalize_tag] of [main.py], lines 51-54: anything that is not a
    [str] becomes the empty string. *)
Module Chat.
Definition normalize_tag (tag : value) : string :=
  match tag with
  | VStr s => lower (re_sub_non_alnum s)
  | _ => ""
  end.
End Chat.

(** *** The contract in the words of the specification *)

(** "ASCII letter or digit". *)
Definition ascii_letter_or_digit (c : ascii) : bool :=
  bool_decide (c ∈ chars "abcdefghijklmnopqrstuvwxyzABCDEFGHIJKLMNOPQRSTUVWXYZ0123456789").

(** Lower-casing of an ASCII letter: bit 5 set. *)
Definition ascii_lowercase (c : ascii) : ascii :=
  if bool_decide (c ∈ chars "ABCDEFGHIJKLMNOPQRSTUVWXYZ")
  then let '(Ascii b0 b1 b2 b3 b4 _ b6 b7) := c in Ascii b0 b1 b2 b3 b4 true b6 b7
  else c.

(** "Strips every character that is not an ASCII letter or digit,
    lowercases the remainder." *)
Definition spec_normalize (tag : string) : string :=
  string_of_list_ascii
    (map ascii_lowercase (List.filter ascii_letter_or_digit (chars tag))).

(** "An empty result": nothing, or a string or container with nothing in
    it. *)
Definition empty_result (v : value) : Prop :=
  v = VNone ∨ v = VStr "" ∨ v = VList [] ∨ v = VDict [].

(** Two tags that differ only in case or punctuation: they spell the same
    letters and digits, up to case, once every other character is
    skipped. *)
Inductive same_modulo_case_and_punctuation : string → string → Prop :=
| same_empty : same_modulo_case_and_punctuation "" ""
| same_skip_l c a b :
    ascii_letter_or_digit c = false →
    same_modulo_case_and_punctuation a b →
    same_modulo_case_and_punctuation (String c a) b
| same_skip_r c a b :
    ascii_letter_or_digit c = false →
    same_modulo_case_and_punctuation a b →
    same_modulo_case_and_punctuation a (String c b)
| same_char c d a b :
    ascii_letter_or_digit c = true → ascii_letter_or_digit d = true →
    ascii_lowercase c = ascii_lowercase d →
    same_modulo_case_and_punctuation a b →
    same_modulo_case_and_punctuation (String c a) (String d b).

End Normalizer.

Import Normalizer.

(** ** [difflib.SequenceMatcher], as [similarity] runs it

    [SequenceMatcher(None, a, b).ratio()]: no junk predicate, [autojunk] on.
    Line numbers are those of [difflib.py] in CPython 3.11. Indices are
    natural numbers; [i - k + 1] is written [i + 1 - k]. *)

Module Difflib.

(** [Match(a, b, size)]. *)
Definition Match : Type := (nat * nat * nat)%type.

Definition size (m : Match) : nat := m.2.

(** [__chain_b]: [b2j] maps each element of [b] to the increasing list of
    its positions; with 200 elements or more, an element that takes more
    than [n // 100 + 1] positions is popular and loses its entry. *)
Definition index_all (b : list ascii) : gmap ascii (list nat) :=
  foldl (λ (b2j : gmap ascii (list nat)) '(i, elt),
           <[elt := default [] (b2j !! elt) ++ [i]]> b2j)
        ∅ (imap (λ i elt, (i, elt)) b).

Definition chain_b (b : list ascii) : gmap ascii (list nat) :=
  let b2j := index_all b in
  let n := length b in
  if decide (200 ≤ n) then
    let ntest := n / 100 + 1 in
    filter (λ entry, ¬ (ntest < length entry.2)) b2j
  else b2j.

(** [self.bjunk]: empty, since [isjunk] is [None]. *)
Definition bjunk : gset ascii := ∅.

Definition isbjunk (elt : ascii) : bool := bool_decide (elt ∈ bjunk).

(** [j2len.get(j-1, 0)]; no key is negative. *)
Definition j2lenget_pred (j2len : gmap nat nat) (j : nat) : nat :=
  match j with
  | O => 0
  | S j' => default 0 (j2len !! j')
  end.

(** Lines 379-387 of [find_longest_match]: the loop over the positions
    [js] of [a[i]] in [b]. *)
Fixpoint inner_loop (j2len : gmap nat nat) (blo bhi i : nat) (js : list nat)
         (newj2len : gmap nat nat) (best : Match) : gmap nat nat * Match :=
  match js with
  | [] => (newj2len, best)
  | j :: js' =>
      if decide (j < blo) then inner_loop j2len blo bhi i js' newj2len best
      else if decide (bhi ≤ j) then (newj2len, best)
      else
        let k := j2lenget_pred j2len j + 1 in
        let newj2len' := <[j := k]> newj2len in
        let best' := if decide (size best < k) then (i + 1 - k, j + 1 - k, k)
                     else best in
        inner_loop j2len blo bhi i js' newj2len' best'
  end.

(** [b2j.get(a[i], nothing)]. *)
Definition positions (a : list ascii) (b2j : gmap ascii (list nat)) (i : nat)
  : list nat :=
  default [] (a !! i ≫= λ elt, b2j !! elt).

(** Lines 368-388: the loop over [range(alo, ahi)]. *)
Definition longest_junk_free (a : list ascii) (b2j : gmap ascii (list nat))
           (alo ahi blo bhi : nat) : Match :=
  (foldl (λ '(j2len, best) i,
            inner_loop j2len blo bhi i (positions a b2j i) ∅ best)
         (∅, (alo, blo, 0)) (seq alo (ahi - alo))).2.

(** [a[x] == b[y]] together with the junk test on [b[y]]; [junk] says
    which answer of [isbjunk] lets the loop go on. *)
Definition same_element (a b : list ascii) (junk : bool) (x y : nat) : bool :=
  match a !! x, b !! y with
  | Some ea, Some eb => bool_decide (isbjunk eb = junk) && bool_decide (ea = eb)
  | _, _ => false
  end.

(** Lines 394-397 and 410-413: grow the block to the left. *)
Fixpoint extend_left (a b : list ascii) (junk : bool) (alo blo : nat)
         (besti bestj bestsize : nat) {struct besti} : Match :=
  match besti, bestj with
  | S i', S j' =>
      if decide (alo < besti ∧ blo < bestj) then
        if same_element a b junk i' j'
        then extend_left a b junk alo blo i' j' (S bestsize)
        else (besti, bestj, bestsize)
      else (besti, bestj, bestsize)
  | _, _ => (besti, bestj, bestsize)
  end.

(** Lines 398-401 and 414-417: grow the block to the right; [room] is
    [ahi - (besti + bestsize)], which the loop exhausts. *)
Fixpoint extend_right (a b : list ascii) (junk : bool) (ahi bhi : nat)
         (besti bestj bestsize : nat) (room : nat) : Match :=
  match room with
  | O => (besti, bestj, bestsize)
  | S room' =>
      if decide (besti + bestsize < ahi ∧ bestj + bestsize < bhi) then
        if same_element a b junk (besti + bestsize) (bestj + bestsize)
        then extend_right a b junk ahi bhi besti bestj (S bestsize) room'
        else (besti, bestj, bestsize)
      else (besti, bestj, bestsize)
  end.

Definition extend (a b : list ascii) (junk : bool) (alo ahi blo bhi : nat)
           (m : Match) : Match :=
  let '(besti, bestj, bestsize) := m in
  let '(besti, bestj, bestsize) :=
    extend_left a b junk alo blo besti bestj bestsize in
  extend_right a b junk ahi bhi besti bestj bestsize (ahi - (besti + bestsize)).

(** [find_longest_match(alo, ahi, blo, bhi)]. *)
Definition find_longest_match (a b : list ascii) (b2j : gmap ascii (list nat))
           (alo ahi blo bhi : nat) : Match :=
  let m := longest_junk_free a b2j alo ahi blo bhi in
  let m := extend a b false alo ahi blo bhi m in
  extend a b true alo ahi blo bhi m.

(** A region still to be looked at: [(alo, ahi, blo, bhi)]. *)
Definition region : Type := (nat * nat * nat * nat)%type.

(** One round of the [while queue:] loop of [get_matching_blocks], after
    [queue.pop()] gave the region [r]. The head of [queue] is the end of
    the Python list, where [pop] and [append] work. *)
Definition queue_body (a b : list ascii) (b2j : gmap ascii (list nat))
           (r : region) (queue : list region) (matching_blocks : list Match)
  : list region * list Match :=
  let '(alo, ahi, blo, bhi) := r in
  let '(i, j, k) := find_longest_match a b b2j alo ahi blo bhi in
  if decide (k ≠ 0) then
    let queue :=
      if decide (alo < i ∧ blo < j) then (alo, i, blo, j) :: queue else queue in
    let queue :=
      if decide (i + k < ahi ∧ j + k < bhi) then (i + k, ahi, j + k, bhi) :: queue
      else queue in
    (queue, matching_blocks ++ [(i, j, k)])
  else (queue, matching_blocks).

(** [while queue:], with [fuel] rounds allowed. *)
Fixpoint queue_loop (fuel : nat) (a b : list ascii) (b2j : gmap ascii (list nat))
         (queue : list region) (matching_blocks : list Match)
  : option (list Match) :=
  match queue with
  | [] => Some matching_blocks
  | r :: queue =>
      match fuel with
      | O => None
      | S fuel' =>
          let '(queue, matching_blocks) :=
            queue_body a b b2j r queue matching_blocks in
          queue_loop fuel' a b b2j queue matching_blocks
      end
  end.

(** Order of tuples, and [list.sort] by insertion. *)
Definition Match_leb (x y : Match) : bool :=
  let '(i1, j1, k1) := x in
  let '(i2, j2, k2) := y in
  (i1 <? i2) || ((i1 =? i2) && ((j1 <? j2) || ((j1 =? j2) && (k1 <=? k2)))).

Fixpoint insert_sorted (x : Match) (l : list Match) : list Match :=
  match l with
  | [] => [x]
  | y :: rest => if Match_leb x y then x :: l else y :: insert_sorted x rest
  end.

Definition sort (l : list Match) : list Match := foldr insert_sorted [] l.

(** The collapsing [for] loop and the two appends after it. *)
Definition collapse_step (st : nat * nat * nat * list Match) (m : Match)
  : nat * nat * nat * list Match :=
  let '(i1, j1, k1, non_adjacent) := st in
  let '(i2, j2, k2) := m in
  if decide (i1 + k1 = i2 ∧ j1 + k1 = j2) then (i1, j1, k1 + k2, non_adjacent)
  else (i2, j2, k2,
        if decide (k1 ≠ 0) then non_adjacent ++ [(i1, j1, k1)] else non_adjacent).

Definition collapse (la lb : nat) (matching_blocks : list Match) : list Match :=
  let '(i1, j1, k1, non_adjacent) :=
    foldl collapse_step (0, 0, 0, []) matching_blocks in
  (if decide (k1 ≠ 0) then non_adjacent ++ [(i1, j1, k1)] else non_adjacent)
  ++ [(la, lb, 0)].

(** [get_matching_blocks()], with [fuel] rounds of the queue loop. *)
Definition get_matching_blocks (fuel : nat) (a b : list ascii)
  : option (list Match) :=
  let la := length a in
  let lb := length b in
  blocks ← queue_loop fuel a b (chain_b b) [(0, la, 0, lb)] [];
  Some (collapse la lb (sort blocks)).

(** [_calculate_ratio(matches, length)], exactly, as a rational. *)
Definition calculate_ratio (matches length : nat) : Q :=
  if decide (length ≠ 0) then Z.of_nat (2 * matches) # Pos.of_nat length
  else 1%Q.

(** [ratio()]. Every round of the queue loop takes one region off the
    queue and puts back at most two that are disjoint parts of it, so
    [2 * len(a) + 1] rounds are enough (see [ratio_total]). *)
Definition ratio (a b : list ascii) : option Q :=
  blocks ← get_matching_blocks (2 * length a + 1) a b;
  Some (calculate_ratio (sum_list (size <$> blocks)) (length a + length b)).

(** *** Notions used to reason about the matcher *)

(** [occurrences elt i0 l]: the positions of [elt] in [l], counted from
    [i0], in increasing order. *)
Fixpoint occurrences (elt : ascii) (i0 : nat) (l : list ascii) : list nat :=
  match l with
  | [] => []
  | x :: rest =>
      if decide (x = elt) then i0 :: occurrences elt (S i0) rest
      else occurrences elt (S i0) rest
  end.

(** [(i, j, k)] lies in the region and [a[i:i+k] == b[j:j+k]]. *)
Definition valid_block (a b : list ascii) (r : region) (m : Match) : Prop :=
  let '(alo, ahi, blo, bhi) := r in
  let '(i, j, k) := m in
  alo ≤ i ∧ i + k ≤ ahi ∧ blo ≤ j ∧ j + k ≤ bhi ∧
  ∀ d, d < k → ∃ x, a !! (i + d) = Some x ∧ b !! (j + d) = Some x.

Definition well_formed (r : region) : Prop :=
  let '(alo, ahi, blo, bhi) := r in alo ≤ ahi ∧ blo ≤ bhi.

(** Every entry of [b2j] lists positions of its key. *)
Definition sound_index (b : list ascii) (b2j : gmap ascii (list nat)) : Prop :=
  ∀ elt js j, b2j !! elt = Some js → j ∈ js → b !! j = Some elt.

(** What is still to be gained: the sizes found so far plus, for every
    region waiting, the most it can hold. *)
Definition capacity (r : region) : nat :=
  let '(alo, ahi, blo, bhi) := r in (ahi - alo) `min` (bhi - blo).

Definition potential (queue : list region) (blocks : list Match) : nat :=
  sum_list (size <$> blocks) + sum_list (capacity <$> queue).

(** Bound on the rounds the queue still needs. *)
Definition rounds (queue : list region) : nat :=
  sum_list ((λ r : region, 2 * (r.1.1.2 - r.1.1.1) + 1) <$> queue).

(** A region on the main diagonal. *)
Definition aligned (r : region) : Prop :=
  let '(alo, ahi, blo, bhi) := r in alo = blo ∧ ahi = bhi.

Definition inside (p : nat) (r : region) : Prop :=
  let '(alo, ahi, _, _) := r in alo ≤ p < ahi.

(** Positions [i] and [j] of [s] hold the same element, and [b2j] has an
    entry for it. *)
Definition same_indexed (s : list ascii) (b2j : gmap ascii (list nat))
           (i j : nat) : bool :=
  match s !! i, s !! j with
  | Some x, Some y => bool_decide (x = y) && bool_decide (is_Some (b2j !! x))
  | _, _ => false
  end.

(** Length of the longest run of such positions that ends at [(i, j)]:
    the number that [j2len] holds for row [i] and column [j] when a
    sequence is matched against itself. *)
Fixpoint run (s : list ascii) (b2j : gmap ascii (list nat)) (i j : nat)
         {struct i} : nat :=
  if same_indexed s b2j i j then
    S (match i, j with
       | S i', S j' => run s b2j i' j'
       | _, _ => 0
       end)
  else 0.

(** [j2len] describes matches that end in row [r]. *)
Definition row_ok (a b : list ascii) (alo blo bhi r : nat)
           (j2len : gmap nat nat) : Prop :=
  ∀ j k, j2len !! j = Some k →
    1 ≤ k ∧ valid_block a b (alo, S r, blo, bhi) (r + 1 - k, j + 1 - k, k) ∧
    k ≤ r + 1 ∧ k ≤ j + 1.

(** [j2len] as row [i] finds it: empty before the first row. *)
Definition prev_ok (a b : list ascii) (alo blo bhi i : nat)
           (j2len : gmap nat nat) : Prop :=
  match i with
  | O => j2len = ∅
  | S r => (alo ≤ r → row_ok a b alo blo bhi r j2len) ∧ (r < alo → j2len = ∅)
  end.

(** An entry of [b2j] after more positions were appended to it. *)
Definition grown (entry : option (list nat)) (js : list nat) : option (list nat) :=
  match js with
  | [] => entry
  | _ => Some (default [] entry ++ js)
  end.

(** When the two sequences have the same length [n], either something
    was lost on the way or every position where they differ is still
    inside an aligned region of the queue. *)
Definition tight (a b : list ascii) (n : nat) (queue : list region)
           (blocks : list Match) : Prop :=
  potential queue blocks + 1 ≤ n ∨
  (Forall aligned queue ∧
   ∀ p, p < n → a !! p ≠ b !! p → ∃ r, r ∈ queue ∧ inside p r).

(** [j2len] as the previous row left it, when [s] is matched against
    itself: what [j2len.get(j-1, 0)] reads is the run that ends one step
    up the diagonal. *)
Definition holds_row_before (s : list ascii) (i : nat) (j2len : gmap nat nat)
  : Prop :=
  ∀ j, default 0 (j2len !! j)
       = match i with O => 0 | S r => run s (chain_b s) r j end.

Definition holds_row (s : list ascii) (i : nat) (j2len : gmap nat nat) : Prop :=
  ∀ j, j2len !! j = if same_indexed s (chain_b s) i j
                    then Some (run s (chain_b s) i j) else None.

(** The positions visited in row [i] all hold [s[i]] and are in range. *)
Definition row_positions (s : list ascii) (i : nat) (js : list nat) : Prop :=
  ∀ j, j ∈ js → j < length s ∧ same_indexed s (chain_b s) i j = true.

(** A block on the main diagonal. *)
Definition diagonal (best : Match) : Prop := best.1.1 = best.1.2.

End Difflib.

Import Difflib.

(** ** Tag classifier ([s5_classify_tags.py]) *)

Module Classifier.

(** [similarity(a, b)], lines 4-6. *)
Definition similarity (a b : string) : option Q :=
  Difflib.ratio (chars a) (chars b).

(** The five values of ["category"]. *)
Inductive category : Type :=
| Node | Pipeline | Equipment | Instrumentation | Handvalve.

Definition category_name (c : category) : string :=
  match c with
  | Node => "node"
  | Pipeline => "pipeline"
  | Equipment => "equipment"
  | Instrumentation => "instrumentation"
  | Handvalve => "handvalve"
  end.

(** The dictionary that [find_best_match] returns.
    [{"category": ..., "details": ..., "score": ...}]. *)
Record match_result : Type := mkMatch {
  match_category : category;
  match_details : value;
  match_score : Q
}.

(** [key in container] and [container[key]] for a string [key]; [None]
    is [TypeError]. *)
Fixpoint is_substring (needle hay : string) : bool :=
  String.prefix needle hay ||
  match hay with
  | EmptyString => false
  | String _ rest => is_substring needle rest
  end.

Definition py_in (key : string) (container : value) : option bool :=
  match container with
  | VDict d => Some (bool_decide (is_Some (dict_lookup d key)))
  | VList l =>
      Some (existsb (λ v, match v with
                          | VStr s => bool_decide (s = key)
                          | _ => false
                          end) l)
  | VStr s => Some (is_substring key s)
  | _ => None
  end.

Definition getitem (container : value) (key : string) : option value :=
  match container with
  | VDict d => dict_lookup d key
  | _ => None
  end.

Definition setitem (container : value) (key : string) (v : value) : option value :=
  match container with
  | VDict d => Some (VDict (dict_set d key v))
  | _ => None
  end.

(** [v.get(key, default)]; [None] is [AttributeError]. *)
Definition get (v : value) (key : string) (default_value : value) : option value :=
  match v with
  | VDict d => Some (default default_value (dict_lookup d key))
  | _ => None
  end.

(** The values a [for] loop over [v] visits; [None] is [TypeError]. *)
Definition iterate (v : value) : option (list value) :=
  match v with
  | VList l => Some l
  | VDict d => Some (VStr <$> d.*1)
  | VStr s => Some ((λ c, VStr (String c EmptyString)) <$> chars s)
  | _ => None
  end.

Section WithBuiltins.

(** [str(v)] for a list or a dictionary [v]: the [repr] of a container,
    which no result below depends on. *)
Variable container_repr : value → string.

(** The order in which a [set] built from the given keys is iterated;
    it varies from one interpreter run to the next. *)
Variable set_order : list string → list string.

(** [str(v)]. *)
Definition py_str (v : value) : string :=
  match v with
  | VStr s => s
  | VNone => "None"
  | VBool true => "True"
  | VBool false => "False"
  | VInt z => pretty z
  | VFloat r => r
  | VList _ | VDict _ => container_repr v
  end.

(** Lines 25-27: [{str(e.get("Tag", "")).lower(): e for e in records}].
    A later record with the same key replaces the earlier one in
    place. *)
Fixpoint tag_dict_from (records : list value) (acc : dict) : option dict :=
  match records with
  | [] => Some acc
  | e :: rest =>
      tag ← get e "Tag" (VStr "");
      tag_dict_from rest (dict_set acc (lower (py_str tag)) e)
  end.

Definition tag_dict (table : value) : option dict :=
  records ← iterate table;
  tag_dict_from records [].

Section FindBestMatch.

(** What the closure [find_best_match] captures. *)
Variable all_pipeline_tags : list string.
Variables equipment_tags instrument_tags handvalve_tags : dict.
Variable threshold : Q.

(** Lines 37-39: does the loop over the pipeline tags return? *)
Fixpoint matches_pipeline_tag (tag : string) (p_tags : list string) : bool :=
  match p_tags with
  | [] => false
  | p_tag :: rest =>
      if decide (tag = p_tag) then true else matches_pipeline_tag tag rest
  end.

(** Lines 48-51: the loop over one reference dictionary. *)
Fixpoint scan_tag_dict (tag_lower : string) (cat_name : category)
         (items : dict) (best : match_result) : option match_result :=
  match items with
  | [] => Some best
  | (ref_tag, details) :: rest =>
      score ← similarity tag_lower ref_tag;
      scan_tag_dict tag_lower cat_name rest
        (if Qlt_le_dec (match_score best) score
         then mkMatch cat_name details score
         else best)
  end.

(** Lines 29-56. *)
Definition find_best_match (tag : value) : option match_result :=
  match tag with
  | VStr tag =>
      if bool_decide (strip tag = "") then Some (mkMatch Node VNone 0)
      else
        let tag_lower := strip (lower tag) in
        if matches_pipeline_tag tag all_pipeline_tags
        then Some (mkMatch Pipeline VNone 1)
        else
          best ← scan_tag_dict tag_lower Equipment equipment_tags
                               (mkMatch Node VNone 0);
          best ← scan_tag_dict tag_lower Instrumentation instrument_tags best;
          best ← scan_tag_dict tag_lower Handvalve handvalve_tags best;
          if Qlt_le_dec (match_score best) threshold
          then Some (mkMatch Node VNone (match_score best))
          else Some best
  | _ => Some (mkMatch Node VNone 0)
  end.

(** [{"tag": tag, "category": match["category"],
     "details": match["details"]}]. *)
Definition classified (tag : value) (m : match_result) : value :=
  VDict [("tag", tag);
         ("category", VStr (category_name (match_category m)));
         ("details", match_details m)].

Definition classify_tag (tag : value) : option value :=
  m ← find_best_match tag;
  Some (classified tag m).

(** Lines 66-74, for one [key]. *)
Definition enrich_key (key : string) (new_pipe : value) : option value :=
  match py_in key new_pipe with
  | Some true =>
      tag ← getitem new_pipe key;
      if truthy tag then
        classified_tag ← classify_tag tag;
        setitem new_pipe key classified_tag
      else Some new_pipe
  | Some false => Some new_pipe
  | None => None
  end.

(** Lines 77-86. *)
Definition enrich_complete_flow (new_pipe : value) : option value :=
  match py_in "complete_flow" new_pipe with
  | Some true =>
      complete_flow ← getitem new_pipe "complete_flow";
      match complete_flow with
      | VList tags =>
          enriched_flow ← mapM classify_tag tags;
          setitem new_pipe "complete_flow" (VList enriched_flow)
      | _ => Some new_pipe
      end
  | Some false => Some new_pipe
  | None => None
  end.

(** Lines 91-109, for one [conn]. *)
Definition enrich_connection (conn : value) : option value :=
  from_tag ← get conn "from" VNone;
  to_tag ← get conn "to" VNone;
  from_node ← classify_tag from_tag;
  to_node ← classify_tag to_tag;
  Some (VDict [("from", from_node); ("to", to_node)]).

(** Lines 89-110. *)
Definition enrich_all_connections (new_pipe : value) : option value :=
  match py_in "all_connections" new_pipe with
  | Some true =>
      all_connections ← getitem new_pipe "all_connections";
      match all_connections with
      | VList conns =>
          enriched_connections ← mapM enrich_connection conns;
          setitem new_pipe "all_connections" (VList enriched_connections)
      | _ => Some new_pipe
      end
  | Some false => Some new_pipe
  | None => None
  end.

(** Lines 62-110: the body of the loop over the pipelines.
    [json.loads(json.dumps(pipe_info))] copies [pipe_info]. *)
Definition enrich_pipe (pipe_info : value) : option value :=
  new_pipe ← enrich_key "start" pipe_info;
  new_pipe ← enrich_key "end" new_pipe;
  new_pipe ← enrich_complete_flow new_pipe;
  enrich_all_connections new_pipe.

(** Lines 59-112. *)
Fixpoint enrich_flows (items : dict) (classified_flows : dict) : option dict :=
  match items with
  | [] => Some classified_flows
  | (pipe_tag, pipe_info) :: rest =>
      new_pipe ← enrich_pipe pipe_info;
      enrich_flows rest (dict_set classified_flows pipe_tag new_pipe)
  end.

End FindBestMatch.

(** [data.get(key, {})] followed by a use of the result as a
    dictionary. *)
Definition get_dict (data : value) (key : string) : option dict :=
  v ← get data key (VDict []);
  match v with VDict d => Some d | _ => None end.

(** Lines 8-118 of [classify_tags_preserve_flow], from the decoded
    input document to the document that is written out. *)
Definition classify_tags_preserve_flow (threshold : Q) (data : value)
  : option value :=
  flow_data ← get_dict data "complete_pipeline_flows";
  process_data ← get_dict data "process_data";
  let all_pipeline_tags := set_order flow_data.*1 in
  equipment_tags ← tag_dict (default (VList []) (dict_lookup process_data "Equipment"));
  instrument_tags ← tag_dict (default (VList []) (dict_lookup process_data "Instrumentation"));
  handvalve_tags ← tag_dict (default (VList []) (dict_lookup process_data "HandValves"));
  classified_flows ←
    enrich_flows all_pipeline_tags equipment_tags instrument_tags handvalve_tags
                 threshold flow_data [];
  Some (VDict [("complete_pipeline_flows", VDict classified_flows);
               ("process_data", VDict process_data)]).

End WithBuiltins.

(** The threshold when the caller passes none: [0.6]. *)
Definition default_threshold : Q := 6 # 10.

(** *** The contract in the words of the specification *)

(** "Blank/non-string tag". *)
Definition blank (tag : value) : Prop :=
  match tag with
  | VStr s => strip s = ""
  | _ => True
  end.

(** "The single highest-scoring candidate across all three reference
    tables combined": [q] is the best similarity of [tag_lower] to the
    reference tags, and 0 when nothing scores above 0. *)
Definition best_score (tag_lower : string) (ref_tags : list string) (q : Q) : Prop :=
  (q = 0%Q ∨ ∃ ref_tag, ref_tag ∈ ref_tags ∧ similarity tag_lower ref_tag = Some q) ∧
  (0 <= q)%Q ∧
  ∀ ref_tag, ref_tag ∈ ref_tags →
    ∃ q', similarity tag_lower ref_tag = Some q' ∧ (q' <= q)%Q.

(** A set is iterated in some order, but over its elements and no
    others. *)
Definition iterates_elements (set_order : list string → list string) : Prop :=
  ∀ keys x, x ∈ set_order keys ↔ x ∈ keys.

(** A dictionary, and a list of dictionaries. *)
Definition is_dict (v : value) : Prop := ∃ d, v = VDict d.

Definition is_records (v : value) : Prop :=
  ∃ records, v = VList records ∧ Forall is_dict records.

(** A pipeline entry as the flow builder writes it: a dictionary whose
    [all_connections], when a list, is a list of dictionaries. *)
Definition well_formed_pipe (pipe_info : value) : Prop :=
  ∃ d, pipe_info = VDict d ∧
       ∀ conns, dict_lookup d "all_connections" = Some (VList conns) →
                Forall is_dict conns.

(** A document as the merge stage writes it. *)
Definition well_formed_document (data : value) : Prop :=
  ∃ flow_data process_data,
    get_dict data "complete_pipeline_flows" = Some flow_data ∧
    get_dict data "process_data" = Some process_data ∧
    (∀ table records, table ∈ ["Equipment"; "Instrumentation"; "HandValves"] →
       dict_lookup process_data table = Some records → is_records records) ∧
    (∀ pipe_tag pipe_info, (pipe_tag, pipe_info) ∈ flow_data →
       well_formed_pipe pipe_info).

(** The scenario of the specification: pipeline [P-100] from tank
    [TK-01] through pump [PU-01] to [RELEASE], and an equipment table
    that spells the tags [TK01] and [PU01]. *)
Definition example_document : value :=
  VDict
    [("complete_pipeline_flows",
      VDict
        [("P-100",
          VDict
            [("pipeline_tag", VStr "P-100");
             ("start", VStr "TK-01");
             ("end", VStr "RELEASE");
             ("complete_flow", VList [VStr "TK-01"; VStr "PU-01"; VStr "RELEASE"]);
             ("total_connections", VInt 2);
             ("flow_length", VInt 3);
             ("all_connections",
              VList [VDict [("from", VStr "TK-01"); ("to", VStr "PU-01")];
                     VDict [("from", VStr "PU-01"); ("to", VStr "RELEASE")]])])]);
     ("process_data",
      VDict
        [("Equipment",
          VList [VDict [("Tag", VStr "TK01"); ("EquipmentSpec", VStr "tank")];
                 VDict [("Tag", VStr "PU01")]]);
         ("Instrumentation", VList []);
         ("HandValves", VList [])])].

(** What the classifier writes for it. *)
Definition example_output : value :=
  Eval vm_compute in
    default VNone
      (classify_tags_preserve_flow (λ _, "") id default_threshold example_document).

End Classifier.

Import Classifier.

(** ** Reading the pipeline table ([s2_DS.py]) *)

Module TableReader.

(** One row of [PipeLines.csv] as [astype(str)] renders its three cells;
    a missing cell reads ["nan"]. *)
Record Row : Type := mkRow { row_Tag : string; row_From : string; row_To : string }.

(** [re.sub(c, ' ', text)] and [text.replace(c, ' ')] for a pattern [c]
    of one ordinary character. *)
Fixpoint replace_char (c : ascii) (text : string) : string :=
  match text with
  | EmptyString => EmptyString
  | String x rest =>
      String (if decide (x = c) then " "%char else x) (replace_char c rest)
  end.

(** [re.sub(r'\s+', ' ', text)]: every maximal run of white space becomes
    one space; [in_run] tells that the previous character was white
    space. *)
Fixpoint re_sub_spaces (in_run : bool) (text : string) : string :=
  match text with
  | EmptyString => EmptyString
  | String x rest =>
      if is_space x then
        if in_run then re_sub_spaces true rest
        else String " "%char (re_sub_spaces true rest)
      else String x (re_sub_spaces false rest)
  end.

(** The characters that lines 144, 146 and 147 blank out: U+00C2, U+00B1
    and U+00B0. *)
Definition A_circumflex : ascii := ascii_of_nat 194.
Definition plus_minus : ascii := ascii_of_nat 177.
Definition degree : ascii := ascii_of_nat 176.

(** [clean_text], lines 136-151, on a [str]. The patterns of lines 143
    and 145 hold a code point above 255 and match nothing in a string of
    this model. *)
Definition clean_text (text : string) : string :=
  if decide (text = "nan") then ""
  else
    let text := replace_char A_circumflex text in
    let text := replace_char plus_minus text in
    let text := replace_char degree text in
    let text := re_sub_spaces false text in
    let text := replace_char "013"%char (replace_char "010"%char text) in
    strip text.

(** Lines 14-20: the cleaning of the three columns. *)
Definition clean_row (row : Row) : Row :=
  mkRow (strip (row_Tag row))
        (clean_text (strip (row_From row)))
        (clean_text (strip (row_To row))).

(** [df_pipelines['Tag'].unique()]: the distinct values in order of first
    appearance. *)
Fixpoint unique (tags : list string) (seen : list string) : list string :=
  match tags with
  | [] => []
  | tag :: rest =>
      if decide (tag ∈ seen) then unique rest seen
      else tag :: unique rest (tag :: seen)
  end.

(** Lines 36-48: the loop over the rows of one pipeline. *)
Fixpoint extract_connections (tag_data : list Row) (connections : list Segment)
  : list Segment :=
  match tag_data with
  | [] => connections
  | row :: rest =>
      let from_node := strip (row_From row) in
      let to_node := strip (row_To row) in
      if negb (bool_decide (from_node = "")) && negb (bool_decide (from_node = "nan"))
      then
        let to_node :=
          if bool_decide (to_node = "") || bool_decide (to_node = "nan")
          then "RELEASE" else to_node in
        extract_connections rest (connections ++ [mkSegment from_node to_node])
      else extract_connections rest connections
  end.

(** The dictionary of lines 56-63. [complete_flow[0] if complete_flow else
    None] is [head], and [complete_flow[-1] if ...] is [last]. *)
Record FlowEntry : Type := mkEntry {
  pipeline_tag : string;
  total_connections : nat;
  complete_flow : list string;
  start : option string;
  end_ : option string;
  all_raw_connections : list Segment
}.

(** Lines 26-70: the loop over the pipeline tags. *)
Fixpoint extract_loop (df_pipelines : list Row) (tags : list string)
         (pipeline_flows : list (string * FlowEntry))
  : option (list (string * FlowEntry)) :=
  match tags with
  | [] => Some pipeline_flows
  | tag :: rest =>
      if bool_decide (tag = "") || bool_decide (tag = "nan")
      then extract_loop df_pipelines rest pipeline_flows
      else
        let tag_data := filter (λ row, row_Tag row = tag) df_pipelines in
        let connections := extract_connections tag_data [] in
        match connections with
        | [] => extract_loop df_pipelines rest pipeline_flows
        | _ :: _ =>
            flow ← build_flow_by_following_sequence connections;
            extract_loop df_pipelines rest
              (dict_set pipeline_flows tag
                 (mkEntry tag (length connections) flow (head flow) (last flow)
                          connections))
        end
  end.

(** [extract_complete_pipeline_flows], lines 13-72, from the table as
    read. *)
Definition extract_complete_pipeline_flows (table : list Row)
  : option (list (string * FlowEntry)) :=
  let df_pipelines := clean_row <$> table in
  extract_loop df_pipelines (unique (row_Tag <$> df_pipelines) []) [].

(** The JSON form of an entry, lines 158-166. *)
Definition json_connection (conn : Segment) : value :=
  VDict [("from", VStr (seg_from conn)); ("to", VStr (seg_to conn))].

Definition json_node (node : option string) : value :=
  match node with Some s => VStr s | None => VNone end.

Definition json_entry (tag : string) (data : FlowEntry) : value :=
  VDict [("pipeline_tag", VStr tag);
         ("start", json_node (start data));
         ("end", json_node (end_ data));
         ("complete_flow", VList (VStr <$> complete_flow data));
         ("total_connections", VInt (Z.of_nat (total_connections data)));
         ("flow_length", VInt (Z.of_nat (length (complete_flow data))));
         ("all_connections", VList (json_connection <$> all_raw_connections data))].

(** [save_flows_to_json], lines 157-166: the loop that fills
    [json_output]. *)
Fixpoint save_flows_to_json (pipeline_flows : list (string * FlowEntry))
         (json_output : dict) : dict :=
  match pipeline_flows with
  | [] => json_output
  | (tag, data) :: rest =>
      save_flows_to_json rest (dict_set json_output tag (json_entry tag data))
  end.

(** *** Notions used to state the properties *)




(** The rows of a pipeline that runs through [nodes] one after the
    other. *)
Fixpoint path_segments (nodes : list string) : list Segment :=
  match nodes with
  | x :: (y :: _) as rest => mkSegment x y :: path_segments rest
  | _ => []
  end.

(** [node] is an end of some row. *)
Definition endpoint (connections : list Segment) (node : string) : Prop :=
  ∃ conn, conn ∈ connections ∧ (node = seg_from conn ∨ node = seg_to conn).

(** A cell that holds a name: neither empty nor the ["nan"] of a missing
    cell. *)
Definition names_a_node (cell : string) : Prop := cell ≠ "" ∧ cell ≠ "nan".

(** What one pass of the loop of lines 37-48 appends, if anything. *)
Definition row_connection (row : Row) : option Segment :=
  let from_node := strip (row_From row) in
  let to_node := strip (row_To row) in
  if negb (bool_decide (from_node = "")) && negb (bool_decide (from_node = "nan"))
  then Some (mkSegment from_node
               (if bool_decide (to_node = "") || bool_decide (to_node = "nan")
                then "RELEASE" else to_node))
  else None.

(** The rows of pipeline [tag] in the cleaned table, and the connections
    read from them. *)
Definition rows_of (df_pipelines : list Row) (tag : string) : list Row :=
  filter (λ row, row_Tag row = tag) df_pipelines.

Definition connections_of (df_pipelines : list Row) (tag : string) : list Segment :=
  extract_connections (rows_of df_pipelines tag) [].

End TableReader.

(** ** The normalization stage ([s4_normalize_tags.py]) *)

Module NormalizeStage.

(** Induction over a value and the values it holds. *)
Section DeepInduction.

Variable P : value → Prop.
Hypothesis HNone : P VNone.
Hypothesis HBool : ∀ b, P (VBool b).
Hypothesis HInt : ∀ z, P (VInt z).
Hypothesis HFloat : ∀ r, P (VFloat r).
Hypothesis HStr : ∀ s, P (VStr s).
Hypothesis HList : ∀ l, Forall P l → P (VList l).
Hypothesis HDict : ∀ d : dict, Forall (λ item, P item.2) d → P (VDict d).

Fixpoint value_deep_ind (v : value) : P v :=
  match v with
  | VNone => HNone
  | VBool b => HBool b
  | VInt z => HInt z
  | VFloat r => HFloat r
  | VStr s => HStr s
  | VList l =>
      HList l ((fix all (l : list value) : Forall P l :=
                  match l with
                  | [] => @List.Forall_nil _ P
                  | x :: rest => @List.Forall_cons _ P x rest (value_deep_ind x) (all rest)
                  end) l)
  | VDict d =>
      HDict d ((fix all (d : dict) : Forall (λ item, P item.2) d :=
                  match d with
                  | [] => @List.Forall_nil _ (λ item, P item.2)
                  | item :: rest =>
                      @List.Forall_cons _ (λ item, P item.2) item rest
                                        (value_deep_ind item.2) (all rest)
                  end) d)
  end.

End DeepInduction.

Section WithPipelineTags.

(** The set of line 17; the code asks it for membership only. *)
Variable all_pipeline_tags : list string.

(** Lines 30-34 and 42-46: what becomes of a string that a dictionary or
    a list holds. *)
Definition normalize_unless_pipeline (s : string) : value :=
  if decide (s ∈ all_pipeline_tags) then VStr s else S4.normalize_tag (VStr s).

(** [recursive_normalize], lines 21-52. The keys of a dictionary are
    distinct, so that the assignments of lines 27-36 fill [new_obj] in the
    order of [obj]. *)
Fixpoint recursive_normalize (skip_keys : list string) (obj : value) : value :=
  match obj with
  | VDict d =>
      VDict
        ((fix items (d : list (string * value)) : list (string * value) :=
            match d with
            | [] => []
            | (k, v) :: rest =>
                (k, if decide (k ∈ skip_keys) then v
                    else match v with
                         | VStr s => normalize_unless_pipeline s
                         | _ => recursive_normalize skip_keys v
                         end) :: items rest
            end) d)
  | VList l =>
      VList (List.map (λ item, match item with
                               | VStr s => normalize_unless_pipeline s
                               | _ => recursive_normalize skip_keys item
                               end) l)
  | _ => obj
  end.

(** Lines 60-62. *)
Fixpoint normalize_flows (items : dict) (normalized_flows : dict) : dict :=
  match items with
  | [] => normalized_flows
  | (pipe_tag, pipe_info) :: rest =>
      normalize_flows rest
        (dict_set normalized_flows pipe_tag
                  (recursive_normalize ["pipeline_tag"] pipe_info))
  end.

(** Lines 72-77, for one record. [dict(rec)] copies a dictionary. A
    value that is no dictionary it rejects, unless the value is a sequence
    of pairs (the empty one included), of which it makes a dictionary whose
    keys need not be strings. The tables of this pipeline hold
    dictionaries, and so do the tables of the properties below; [None] is
    the result for every other record. *)
Definition normalize_record (tag_field : string) (rec : value) : option value :=
  match rec with
  | VDict rec_copy =>
      match dict_lookup rec_copy tag_field with
      | Some (VStr tag_value) =>
          if decide (tag_value ∈ all_pipeline_tags) then Some (VDict rec_copy)
          else Some (VDict (dict_set rec_copy tag_field
                                     (S4.normalize_tag (VStr tag_value))))
      | _ => Some (VDict rec_copy)
      end
  | _ => None
  end.

(** [normalize_tag_in_records], lines 69-78. *)
Definition normalize_tag_in_records (records : value) (tag_field : string)
  : option value :=
  recs ← iterate records;
  new_records ← mapM (normalize_record tag_field) recs;
  Some (VList new_records).

(** Lines 80-81, and likewise 82-83 and 84-85. *)
Definition normalize_table (table : string) (process_data : value) : option value :=
  match py_in table process_data with
  | Some true =>
      records ← getitem process_data table;
      new_records ← normalize_tag_in_records records "Tag";
      setitem process_data table new_records
  | Some false => Some process_data
  | None => None
  end.

End WithPipelineTags.

(** [normalize_merged_pid], lines 17-93, from the decoded document to the
    document that is written out. *)
Definition normalize_merged_pid (data : value) : option value :=
  flow_data ← get_dict data "complete_pipeline_flows";
  let all_pipeline_tags := flow_data.*1 in
  let normalized_flows := normalize_flows all_pipeline_tags flow_data [] in
  process_data ← get data "process_data" (VDict []);
  process_data ← normalize_table all_pipeline_tags "Equipment" process_data;
  process_data ← normalize_table all_pipeline_tags "Instrumentation" process_data;
  process_data ← normalize_table all_pipeline_tags "HandValves" process_data;
  Some (VDict [("complete_pipeline_flows", VDict normalized_flows);
               ("process_data", process_data)]).

(** *** Notions used to state the properties *)

(** A step into a value: to the field [k] of a dictionary or to the item
    [i] of a list; and the value that a sequence of steps leads to. *)
Inductive step : Type :=
| Field (k : string)
| Item (i : nat).

Definition child (v : value) (s : step) : option value :=
  match v, s with
  | VDict d, Field k => dict_lookup d k
  | VList l, Item i => l !! i
  | _, _ => None
  end.

Fixpoint at_path (v : value) (path : list step) : option value :=
  match path with
  | [] => Some v
  | s :: rest => c ← child v s; at_path c rest
  end.

(** What [recursive_normalize] makes of a value that a dictionary or a
    list holds. *)
Definition normalize_held (all_pipeline_tags skip_keys : list string) (v : value)
  : value :=
  match v with
  | VStr s => normalize_unless_pipeline all_pipeline_tags s
  | _ => recursive_normalize all_pipeline_tags skip_keys v
  end.

(** What [normalize_tag_in_records] makes of the value of the tag
    field. *)
Definition normalize_tag_value (all_pipeline_tags : list string) (v : value)
  : value :=
  match v with
  | VStr s => normalize_unless_pipeline all_pipeline_tags s
  | _ => v
  end.

(** The path goes through a field that is skipped. *)
Definition skips (skip_keys : list string) (path : list step) : bool :=
  existsb (λ s, match s with
                | Field k => bool_decide (k ∈ skip_keys)
                | Item _ => false
                end) path.

(** A string of lower-case ASCII letters and digits. *)
Definition lower_alnum (s : string) : Prop :=
  Forall (λ c, between 97 122 c || between 48 57 c = true) (chars s).

End NormalizeStage.

(** ** Notions used to state properties of the classifier *)

Module Resolver.

(** The reference dictionary that the classifier builds from a table of
    [process_data], lines 21-27 of [s5_classify_tags.py]. *)
Definition reference_tags (container_repr : value → string) (process_data : dict)
           (table : string) : option dict :=
  tag_dict container_repr (default (VList []) (dict_lookup process_data table)).

(** The key under which line 25 files a record:
    [str(e.get("Tag", "")).lower()]. *)
Definition record_key (container_repr : value → string) (e : value)
  : option string :=
  tag ← get e "Tag" (VStr "");
  Some (lower (py_str container_repr tag)).

(** The last of the records that is filed under [key]. *)
Fixpoint last_with_key (container_repr : value → string) (key : string)
         (records : list value) : option value :=
  match records with
  | [] => None
  | e :: rest =>
      match last_with_key container_repr key rest with
      | Some e' => Some e'
      | None =>
          if decide (record_key container_repr e = Some key) then Some e else None
      end
  end.

(** A reference record as [find_best_match] meets it: the category of
    its table, its key and the record. *)
Definition candidate : Type := (category * string * value)%type.

(** The records in the order in which lines 43-51 score them. *)
Definition candidates (equipment_tags instrument_tags handvalve_tags : dict)
  : list candidate :=
  ((λ item, (Equipment, item.1, item.2)) <$> equipment_tags) ++
  ((λ item, (Instrumentation, item.1, item.2)) <$> instrument_tags) ++
  ((λ item, (Handvalve, item.1, item.2)) <$> handvalve_tags).

(** The three loops of lines 43-51 as one loop over the candidates. *)
Fixpoint scan_candidates (tag_lower : string) (cands : list candidate)
         (best : match_result) : option match_result :=
  match cands with
  | [] => Some best
  | (cat_name, ref_tag, details) :: rest =>
      score ← similarity tag_lower ref_tag;
      scan_candidates tag_lower rest
        (if Qlt_le_dec (match_score best) score
         then mkMatch cat_name details score
         else best)
  end.

(** [best] is the first of the candidates with the highest score, and the
    initial [node] of score 0 when no candidate scores above 0. *)
Definition first_best (tag_lower : string) (cands : list candidate)
           (best : match_result) : Prop :=
  (∀ cat_name ref_tag details, (cat_name, ref_tag, details) ∈ cands →
     ∃ q, similarity tag_lower ref_tag = Some q ∧ (q <= match_score best)%Q) ∧
  ((best = mkMatch Node VNone 0) ∨
   ∃ i cat_name ref_tag details,
     cands !! i = Some (cat_name, ref_tag, details) ∧
     similarity tag_lower ref_tag = Some (match_score best) ∧
     best = mkMatch cat_name details (match_score best) ∧
     (0 < match_score best)%Q ∧
     ∀ j cat_name' ref_tag' details', j < i →
       cands !! j = Some (cat_name', ref_tag', details') →
       ∃ q, similarity tag_lower ref_tag' = Some q ∧ (q < match_score best)%Q).

End Resolver.

(** ** Retrieval for the chat front end ([main.py]) *)

Module Retrieval.

(** [similarity(a, b) >= threshold]. *)
Definition at_least (threshold : Q) (a b : string) : option bool :=
  score ← similarity a b;
  Some (if Qlt_le_dec score threshold then false else true).

(** [tag.lower()]; [None] is the [AttributeError] of a value that is not
    a [str]. *)
Definition str_lower (tag : value) : option string :=
  match tag with
  | VStr s => Some (lower s)
  | _ => None
  end.

(** The loop of lines 74-86 of [find_best_tag_matches]. *)
Fixpoint match_items (q_raw q_norm : string) (threshold : Q)
         (items : list value) (results : list value) : option (list value) :=
  match items with
  | [] => Some results
  | item :: rest =>
      tag ← get item "Tag" (VStr "");
      tag_lower ← str_lower tag;
      let tag_norm := Chat.normalize_tag tag in
      if negb (bool_decide (tag_lower = "")) && is_substring tag_lower q_raw
      then match_items q_raw q_norm threshold rest (results ++ [item])
      else if bool_decide (tag_norm = "")
      then match_items q_raw q_norm threshold rest results
      else
        match at_least threshold q_norm tag_norm with
        | Some true => match_items q_raw q_norm threshold rest (results ++ [item])
        | Some false => match_items q_raw q_norm threshold rest results
        | None => None
        end
  end.

(** [find_best_tag_matches(query, data_list, threshold)], lines 61-88. *)
Definition find_best_tag_matches (query : string) (data_list : value)
           (threshold : Q) : option (list value) :=
  if truthy data_list then
    items ← iterate data_list;
    match_items (lower query) (Chat.normalize_tag (VStr query)) threshold items []
  else Some [].

(** The loop of lines 101-110 of [find_pipeline_matches]. *)
Fixpoint match_pipelines (q_raw q_norm : string) (threshold : Q)
         (items : dict) (matches : dict) : option dict :=
  match items with
  | [] => Some matches
  | (pipe_tag, pipe_info) :: rest =>
      let tag_lower := lower pipe_tag in
      let tag_norm := Chat.normalize_tag (VStr pipe_tag) in
      if is_substring tag_lower q_raw
      then match_pipelines q_raw q_norm threshold rest
             (dict_set matches pipe_tag pipe_info)
      else
        match at_least threshold q_norm tag_norm with
        | Some true =>
            match_pipelines q_raw q_norm threshold rest
              (dict_set matches pipe_tag pipe_info)
        | Some false => match_pipelines q_raw q_norm threshold rest matches
        | None => None
        end
  end.

(** [find_pipeline_matches(query, threshold)], lines 91-112, with the
    global [PIPELINES] as an argument. *)
Definition find_pipeline_matches (PIPELINES : value) (query : string)
           (threshold : Q) : option dict :=
  match PIPELINES with
  | VDict items =>
      match_pipelines (lower query) (Chat.normalize_tag (VStr query)) threshold
                      items []
  | _ => None
  end.

(** The reverse index [TAG_TO_PIPELINES]: normalized tag to set of
    pipeline ids. The code asks it for the entry of a key and runs over
    its items to fill a dictionary; the order of that run shows in the
    order of the result only, which is left out here: the index and the
    result of [find_pipelines_for_tag] are finite maps. *)
Abbreviation tag_index := (gmap string (gset string)).

(** A value can be a member of a [set]. *)
Definition hashable (v : value) : bool :=
  match v with
  | VList _ | VDict _ => false
  | _ => true
  end.

(** Lines 135-138, for one member [t] of the set of line 134. *)
Definition index_tag (pipe_tag : string) (index : tag_index) (t : value)
  : tag_index :=
  if truthy t then
    let norm := Chat.normalize_tag t in
    <[norm := default ∅ (index !! norm) ∪ {[pipe_tag]}]> index
  else index.

(** Lines 130-138, for one [step]. The set [{step_tag, detail_tag}] has
    one member when the two are equal and two otherwise; entering a tag
    twice, or the two in the other order, gives the same index. *)
Definition index_step (pipe_tag : string) (index : tag_index) (step : value)
  : option tag_index :=
  step_tag ← get step "tag" VNone;
  details ← get step "details" VNone;
  detail_tag ← get (if truthy details then details else VDict []) "Tag" VNone;
  if hashable step_tag && hashable detail_tag
  then Some (index_tag pipe_tag (index_tag pipe_tag index step_tag) detail_tag)
  else None.

(** Lines 129-138. *)
Fixpoint index_steps (pipe_tag : string) (index : tag_index) (steps : list value)
  : option tag_index :=
  match steps with
  | [] => Some index
  | step :: rest =>
      index ← index_step pipe_tag index step;
      index_steps pipe_tag index rest
  end.

(** Lines 128-138. *)
Fixpoint index_pipelines (items : dict) (index : tag_index) : option tag_index :=
  match items with
  | [] => Some index
  | (pipe_tag, pipe_info) :: rest =>
      flow ← get pipe_info "complete_flow" (VList []);
      steps ← iterate flow;
      index ← index_steps pipe_tag index steps;
      index_pipelines rest index
  end.

(** [build_tag_index()], lines 121-140, with the global [PIPELINES] as
    an argument. *)
Definition build_tag_index (PIPELINES : value) : option tag_index :=
  match PIPELINES with
  | VDict items => index_pipelines items ∅
  | _ => None
  end.

(** Lines 161-163 and 168-170:
    [for p_tag in pipe_ids: if p_tag in PIPELINES: results[p_tag] = PIPELINES[p_tag]]. *)
Definition add_pipelines (PIPELINES : dict) (pipe_ids : gset string)
           (results : gmap string value) : gmap string value :=
  set_fold (λ p_tag results,
              match dict_lookup PIPELINES p_tag with
              | Some pipe_info => <[p_tag := pipe_info]> results
              | None => results
              end) results pipe_ids.

(** The condition of line 167. *)
Definition tag_matches (threshold : Q) (q_norm t_norm : string) : option bool :=
  if is_substring t_norm q_norm || is_substring q_norm t_norm then Some true
  else at_least threshold q_norm t_norm.

(** [find_pipelines_for_tag(tag_query, threshold)], lines 146-172, with
    the globals [TAG_TO_PIPELINES] and [PIPELINES] as arguments. *)
Definition find_pipelines_for_tag (TAG_TO_PIPELINES : tag_index) (PIPELINES : dict)
           (tag_query : string) (threshold : Q) : option (gmap string value) :=
  if bool_decide (tag_query = "") then Some ∅
  else
    let q_norm := Chat.normalize_tag (VStr tag_query) in
    if bool_decide (q_norm = "") then Some ∅
    else
      let direct := default ∅ (TAG_TO_PIPELINES !! q_norm) in
      let results := add_pipelines PIPELINES direct ∅ in
      map_fold (λ t_norm pipe_ids (results : option (gmap string value)),
                  results ← results;
                  match tag_matches threshold q_norm t_norm with
                  | Some true => Some (add_pipelines PIPELINES pipe_ids results)
                  | Some false => Some results
                  | None => None
                  end)
               (Some results) TAG_TO_PIPELINES.

(** The thresholds when the caller passes none. *)
Definition default_match_threshold : Q := 6 # 10.
Definition default_tag_threshold : Q := 7 # 10.

(** *** Notions used to state the properties *)

(** A record is selected by the direct test of line 80 or by the fuzzy
    test of line 85. *)
Definition direct_hit (q_raw : string) (tag : string) : Prop :=
  lower tag ≠ "" ∧ is_substring (lower tag) q_raw = true.

Definition fuzzy_hit (q_norm : string) (threshold : Q) (tag : string) : Prop :=
  lower (re_sub_non_alnum tag) ≠ "" ∧
  ∃ score, similarity q_norm (lower (re_sub_non_alnum tag)) = Some score ∧
           (threshold <= score)%Q.

(** The record is one that [find_best_tag_matches] keeps. *)
Definition selected (q_raw q_norm : string) (threshold : Q) (item : value) : Prop :=
  ∃ tag, get item "Tag" (VStr "") = Some (VStr tag) ∧
         (direct_hit q_raw tag ∨ fuzzy_hit q_norm threshold tag).

(** A record as the tables hold it: a dictionary whose [Tag], when it
    has one, is a string. *)
Definition tagged_record (item : value) : Prop :=
  ∃ d, item = VDict d ∧ ∀ v, dict_lookup d "Tag" = Some v → is_str v = true.

(** The pipeline is one that [find_pipeline_matches] keeps. *)
Definition pipeline_selected (q_raw q_norm : string) (threshold : Q)
           (pipe_tag : string) : Prop :=
  is_substring (lower pipe_tag) q_raw = true ∨
  ∃ score, similarity q_norm (lower (re_sub_non_alnum pipe_tag)) = Some score ∧
           (threshold <= score)%Q.

(** The index files pipeline [pipe_tag] under the normalized tag
    [norm]. *)
Definition indexed (index : tag_index) (norm pipe_tag : string) : Prop :=
  ∃ pipe_ids, index !! norm = Some pipe_ids ∧ pipe_tag ∈ pipe_ids.

(** A step carries the truthy tag [t], as its [tag] or as the [Tag] of
    its [details]; and a step of the flow of [pipe_info] does. *)
Definition step_carries (step t : value) : Prop :=
  truthy t = true ∧
  (get step "tag" VNone = Some t ∨
   ∃ details,
     get step "details" VNone = Some details ∧
     get (if truthy details then details else VDict []) "Tag" VNone = Some t).

Definition carries_tag (pipe_info : value) (t : value) : Prop :=
  ∃ flow steps step,
    get pipe_info "complete_flow" (VList []) = Some flow ∧
    iterate flow = Some steps ∧
    step ∈ steps ∧
    step_carries step t.

(** The results hold the entries of [PIPELINES] for the keys that
    satisfy [S], and nothing else. *)
Definition holds (PIPELINES : dict) (results : gmap string value)
           (S : string → Prop) : Prop :=
  ∀ p v, results !! p = Some v ↔ dict_lookup PIPELINES p = Some v ∧ S p.

(** The condition of line 167 as a proposition. *)
Definition tag_hit (threshold : Q) (q_norm t_norm : string) : Prop :=
  is_substring t_norm q_norm = true ∨
  is_substring q_norm t_norm = true ∨
  ∃ score, similarity q_norm t_norm = Some score ∧ (threshold <= score)%Q.

End Retrieval.

(** * Evaluating the models *)

Example build_flow_single :
  build_flow_by_following_sequence [mkSegment "A" "B"] = Some ["A"; "B"].
Proof. reflexivity. Qed.

Example build_flow_tail :
  build_flow_by_following_sequence [mkSegment "A" "B"; mkSegment "B" "C"]
  = Some ["A"; "B"; "C"].
Proof. vm_compute. reflexivity. Qed.

Example build_flow_head :
  build_flow_by_following_sequence [mkSegment "B" "C"; mkSegment "A" "B"]
  = Some ["A"; "B"; "C"].
Proof. vm_compute. reflexivity. Qed.

(** * Properties of the flow builder *)

Section FlowBuilderFacts.

Implicit Types (conns connections : list Segment) (used : list nat)
  (st : state) (i j k fuel : nat).

(** ** The searching loops *)

Lemma unused_ext conns : ∀ i used (used' : list nat),
  (∀ j, i ≤ j → j ∈ used ↔ j ∈ used') →
  unused i used conns = unused i used' conns.
Proof.
  induction conns as [|c rest IH]; intros i used used' Hext; simpl; [done|].
  rewrite (IH (S i) used used') by (intros j Hj; apply Hext; lia).
  destruct (decide (i ∈ used)) as [Hi|Hi], (decide (i ∈ used')) as [Hi'|Hi'];
    try done; exfalso; apply (Hext i) in Hi || apply (Hext i) in Hi'; eauto.
Qed.

Lemma unused_snoc_lt conns i k used :
  k < i → unused i (used ++ [k]) conns = unused i used conns.
Proof.
  intros Hk. apply unused_ext. intros j Hj. rewrite elem_of_app, list_elem_of_singleton.
  split; [intros [?|?]; [done|lia] | auto].
Qed.

Lemma scan_tail_scan last_node conns : ∀ i used,
  scan_tail last_node used i conns = scan (attach_tail last_node) used i conns.
Proof.
  induction conns as [|c rest IH]; intros i used; simpl; [done|].
  rewrite !IH. unfold attach_tail. repeat case_decide; done.
Qed.

Lemma scan_head_scan first_node conns : ∀ i used,
  scan_head first_node used i conns = scan (attach_head first_node) used i conns.
Proof.
  induction conns as [|c rest IH]; intros i used; simpl; [done|].
  rewrite !IH. unfold attach_head. repeat case_decide; done.
Qed.

(** A hit of a searching loop is the first attaching segment among the
    unused ones, and appending its index removes exactly that segment. *)
Lemma scan_spec attach conns : ∀ i used,
  match scan attach used i conns with
  | Some (k, node) =>
      (i ≤ k < i + length conns) ∧ (k ∉ used) ∧
      (∃ conn, conns !! (k - i) = Some conn ∧ attach conn = Some node) ∧
      first_attaching attach (unused i used conns)
      = Some (node, unused i (used ++ [k]) conns)
  | None => first_attaching attach (unused i used conns) = None
  end.
Proof.
  induction conns as [|c rest IH]; intros i used; simpl; [done|].
  specialize (IH (S i) used).
  destruct (decide (i ∈ used)) as [Hin|Hin].
  - destruct (scan attach used (S i) rest) as [[k node]|]; [|done].
    destruct IH as (Hk & Hnk & (conn & Hc & Hn) & Hfa).
    split; [lia|]. split; [done|]. split.
    + exists conn. replace (k - i) with (S (k - S i)) by lia. done.
    + rewrite decide_True by (apply elem_of_app; auto). done.
  - cbn [first_attaching]. destruct (attach c) as [node|] eqn:Hat.
    { split; [lia|]. split; [done|]. split.
      - exists c. rewrite Nat.sub_diag. eauto.
      - rewrite decide_True by (apply elem_of_app; right; apply list_elem_of_singleton; done).
        rewrite unused_snoc_lt by lia. done. }
    destruct (scan attach used (S i) rest) as [[k node]|].
    + destruct IH as (Hk & Hnk & (conn & Hc & Hn) & Hfa).
      split; [lia|]. split; [done|]. split.
      * exists conn. replace (k - i) with (S (k - S i)) by lia. done.
      * rewrite decide_False.
        2:{ rewrite elem_of_app, list_elem_of_singleton. intros [?|?]; [done|lia]. }
        rewrite Hfa. done.
    + rewrite IH. done.
Qed.

Lemma attach_tail_Some last_node conn node :
  attach_tail last_node conn = Some node →
  (seg_from conn = last_node ∧ node = seg_to conn) ∨
  (seg_to conn = last_node ∧ node = seg_from conn).
Proof. unfold attach_tail. repeat case_decide; naive_solver. Qed.

Lemma attach_head_Some first_node conn node :
  attach_head first_node conn = Some node →
  (seg_to conn = first_node ∧ node = seg_from conn) ∨
  (seg_from conn = first_node ∧ node = seg_to conn).
Proof. unfold attach_head. repeat case_decide; naive_solver. Qed.

(** ** The fallback loop *)

Lemma add_endpoints_loose fl conn :
  add_endpoints fl conn
  = append_if_absent (append_if_absent fl (seg_from conn)) (seg_to conn).
Proof. reflexivity. Qed.

Lemma add_endpoints_grows fl conn x : x ∈ fl → x ∈ add_endpoints fl conn.
Proof.
  unfold add_endpoints. intros Hx.
  repeat case_decide; rewrite ?elem_of_app; auto.
Qed.

Lemma add_endpoints_both fl conn :
  seg_from conn ∈ add_endpoints fl conn ∧ seg_to conn ∈ add_endpoints fl conn.
Proof.
  unfold add_endpoints.
  repeat case_decide; split; try done;
    rewrite ?elem_of_app, ?list_elem_of_singleton; auto.
Qed.

Lemma absorb_flow conns : ∀ i st,
  flow (absorb i conns st)
  = absorb_loose (flow st) (unused i (used_connections st) conns).
Proof.
  induction conns as [|c rest IH]; intros i st; simpl; [done|].
  case_decide; [apply IH|].
  rewrite IH. simpl. rewrite unused_snoc_lt by lia. done.
Qed.

Lemma absorb_used conns : ∀ i st j,
  j ∈ used_connections (absorb i conns st)
  ↔ j ∈ used_connections st ∨ (i ≤ j < i + length conns).
Proof.
  induction conns as [|c rest IH]; intros i st j; simpl.
  - split; [auto|intros [?|?]; [done|lia]].
  - case_decide as Hi; rewrite IH; simpl.
    + split; [intros [?|?]; [auto|right; lia]|].
      intros [?|?]; [auto|]. destruct (decide (j = i)) as [->|]; [auto|right; lia].
    + rewrite elem_of_app, list_elem_of_singleton.
      split; [intros [[?|?]|?]; [auto|right; lia|right; lia]|].
      intros [?|?]; [auto|]. destruct (decide (j = i)) as [->|]; [auto|right; lia].
Qed.

Lemma absorb_nodup conns : ∀ i st,
  NoDup (used_connections st) → NoDup (used_connections (absorb i conns st)).
Proof.
  induction conns as [|c rest IH]; intros i st Hnd; simpl; [done|].
  case_decide as Hi; apply IH; [done|]. simpl.
  apply NoDup_app. split; [done|]. split; [|apply NoDup_singleton].
  intros x Hx ->%list_elem_of_singleton. done.
Qed.

Lemma absorb_grows conns : ∀ i st x,
  x ∈ flow st → x ∈ flow (absorb i conns st).
Proof.
  induction conns as [|c rest IH]; intros i st x Hx; simpl; [done|].
  case_decide; apply IH; [done|]. simpl. by apply add_endpoints_grows.
Qed.

Lemma absorb_endpoints conns : ∀ i st j conn,
  j ∉ used_connections st → conns !! (j - i) = Some conn → i ≤ j →
  seg_from conn ∈ flow (absorb i conns st) ∧ seg_to conn ∈ flow (absorb i conns st).
Proof.
  induction conns as [|c rest IH]; intros i st j conn Hj Hc Hij; simpl; [done|].
  destruct (decide (j = i)) as [->|Hne].
  - rewrite Nat.sub_diag in Hc. simplify_eq/=. rewrite decide_False by done.
    split; apply absorb_grows; simpl; apply add_endpoints_both.
  - replace (j - i) with (S (j - S i)) in Hc by lia. simpl in Hc.
    case_decide; apply (IH _ _ j); try done; try lia.
    simpl. rewrite elem_of_app, list_elem_of_singleton. intros [?|?]; done.
Qed.

(** ** The invariant *)

Lemma invariant_init c c' rest :
  invariant (c :: c' :: rest) (mkState [seg_from c; seg_to c] [0]).
Proof.
  split; simpl.
  - apply NoDup_singleton.
  - intros i ->%list_elem_of_singleton. lia.
  - done.
  - intros i conn ->%list_elem_of_singleton [= <-]. set_solver.
Qed.

Lemma invariant_extend connections st k conn (fl : list string) :
  invariant connections st →
  k ∉ used_connections st → connections !! k = Some conn →
  (∀ x, x ∈ flow st → x ∈ fl) → seg_from conn ∈ fl → seg_to conn ∈ fl →
  invariant connections (mkState fl (used_connections st ++ [k])).
Proof.
  intros [Hnd Hr Hne He] Hk Hc Hsub Hf Ht. split; simpl.
  - apply NoDup_app. split; [done|]. split; [|apply NoDup_singleton].
    intros x Hx ->%list_elem_of_singleton. done.
  - intros i [Hi| ->%list_elem_of_singleton]%elem_of_app; [auto|].
    by eapply lookup_lt_Some.
  - intros ->. destruct (flow st) as [|x l]; [done|].
    specialize (Hsub x). set_solver.
  - intros i c [Hi| ->%list_elem_of_singleton]%elem_of_app Hci.
    + destruct (He i c Hi Hci). auto.
    + simplify_eq. auto.
Qed.

(** One pass either continues with exactly one more row marked used, or
    breaks with every row marked used; the invariant survives both. *)
Lemma loop_body_progress connections st :
  invariant connections st →
  ∃ out, loop_body connections st = Some out ∧
    match out with
    | Continue st' =>
        invariant connections st' ∧
        ∃ k, (k ∉ used_connections st) ∧ k < length connections ∧
             used_connections st' = used_connections st ++ [k]
    | Break st' =>
        invariant connections st' ∧
        (∀ k, k < length connections → k ∈ used_connections st')
    end.
Proof.
  intros Hinv. pose proof Hinv as [Hnd Hr Hne He]. unfold loop_body.
  destruct (last (flow st)) as [last_node|] eqn:Hlast;
    [|by apply last_None in Hlast].
  destruct (head (flow st)) as [first_node|] eqn:Hhead;
    [|by apply head_None in Hhead].
  simpl. rewrite scan_tail_scan, scan_head_scan.
  pose proof (scan_spec (attach_tail last_node) connections 0 (used_connections st)) as Ht.
  pose proof (scan_spec (attach_head first_node) connections 0 (used_connections st)) as Hh.
  apply last_Some_elem_of in Hlast. apply head_Some_elem_of in Hhead.
  destruct (scan (attach_tail last_node) _ 0 connections) as [[k node]|].
  - destruct Ht as (Hk & Hnk & (conn & Hc & Hat) & _).
    rewrite Nat.sub_0_r in Hc. eexists. split; [done|]. split.
    + apply attach_tail_Some in Hat as [[<- ->]|[<- ->]];
        (eapply invariant_extend; [done..| | |]);
        intros; rewrite ?elem_of_app, ?list_elem_of_singleton; auto.
    + exists k. split; [done|]. split; [lia|done].
  - destruct (scan (attach_head first_node) _ 0 connections) as [[k node]|].
    + destruct Hh as (Hk & Hnk & (conn & Hc & Hat) & _).
      rewrite Nat.sub_0_r in Hc. eexists. split; [done|]. split.
      * apply attach_head_Some in Hat as [[<- ->]|[<- ->]];
          (eapply invariant_extend; [done..| | |]);
          intros; rewrite ?elem_of_cons; auto.
      * exists k. split; [done|]. split; [lia|done].
    + eexists. split; [done|]. split.
      * split.
        -- by apply absorb_nodup.
        -- intros i [Hi|Hi]%absorb_used; [auto|lia].
        -- destruct (flow st) as [|x l] eqn:Hfl; [done|].
           intros Hnil. assert (x ∈ flow (absorb 0 connections st)) as Hx
             by (apply absorb_grows; rewrite Hfl; left).
           rewrite Hnil in Hx. by apply elem_of_nil in Hx.
        -- intros i conn Hi Hc.
           destruct (decide (i ∈ used_connections st)) as [Hin|Hin].
           ++ destruct (He i conn Hin Hc). split; by apply absorb_grows.
           ++ apply absorb_endpoints with (j := i); [done| |lia].
              by rewrite Nat.sub_0_r.
      * intros k Hk. apply absorb_used. right. lia.
Qed.

(** ** The [while] loop *)

Lemma all_used_length connections st :
  invariant connections st →
  (∀ k, k < length connections → k ∈ used_connections st) →
  ¬ length (used_connections st) < length connections.
Proof.
  intros [Hnd _ _ _] Hall.
  assert (length (seq 0 (length connections)) ≤ length (used_connections st)) as Hle.
  { apply NoDup_incl_length; [apply NoDup_ListNoDup, NoDup_seq|].
    intros k Hk%list_elem_of_In%elem_of_seq. apply list_elem_of_In, Hall. lia. }
  rewrite length_seq in Hle. lia.
Qed.

Lemma length_all_used connections st :
  invariant connections st →
  ¬ length (used_connections st) < length connections →
  ∀ k, k < length connections → k ∈ used_connections st.
Proof.
  intros [Hnd Hr _ _] Hlen k Hk.
  apply list_elem_of_In.
  apply (NoDup_length_incl (l := used_connections st) (l' := seq 0 (length connections))).
  - by apply NoDup_ListNoDup.
  - rewrite length_seq. lia.
  - intros x Hx%list_elem_of_In. apply list_elem_of_In, elem_of_seq.
    specialize (Hr x Hx). lia.
  - apply list_elem_of_In, elem_of_seq. lia.
Qed.

Lemma unused_nil conns : ∀ i used,
  unused i used conns = [] ↔ ∀ j, i ≤ j < i + length conns → j ∈ used.
Proof.
  induction conns as [|c rest IH]; intros i used; simpl.
  - split; [intros _ j ?; lia|done].
  - case_decide as Hi.
    + rewrite IH. split; intros H j Hj; [|apply H; lia].
      destruct (decide (j = i)) as [->|]; [done|apply H; lia].
    + split; [done|]. intros H. destruct Hi. apply H. lia.
Qed.

Lemma unused_fresh conns : ∀ i used,
  (∀ j, j ∈ used → j < i) → unused i used conns = conns.
Proof.
  induction conns as [|c rest IH]; intros i used Hlt; simpl; [done|].
  rewrite decide_False by (intros Hi%Hlt; lia).
  f_equal. apply IH. intros j Hj%Hlt. lia.
Qed.

Lemma unused_length_le conns : ∀ i used,
  length (unused i used conns) ≤ length conns.
Proof.
  induction conns as [|c rest IH]; intros i used; simpl; [done|].
  specialize (IH (S i) used). case_decide; simpl; lia.
Qed.

Lemma first_attaching_length attach (pending rest : list Segment) node :
  first_attaching attach pending = Some (node, rest) →
  length pending = S (length rest).
Proof.
  revert rest. induction pending as [|s p IH]; intros rest; simpl; [done|].
  destruct (attach s); [by intros [= _ <-]|].
  destruct (first_attaching attach p) as [[x r]|]; simpl; [|done].
  intros [= -> <-]. simpl. f_equal. by apply IH.
Qed.

(** The loop returns whenever it is given at least as many passes as
    there are rows not yet used, and what it returns is the sequence that
    the stitching rule of the specification produces from the same
    sequence and the unused rows. *)
Lemma while_loop_stitch connections : ∀ fuel n st,
  invariant connections st →
  length connections - length (used_connections st) ≤ fuel →
  length (unused 0 (used_connections st) connections) ≤ n →
  ∃ st', while_loop fuel connections st = Some st' ∧
         invariant connections st' ∧
         (∀ k, k < length connections → k ∈ used_connections st') ∧
         flow st' = stitch n (flow st) (unused 0 (used_connections st) connections).
Proof.
  induction fuel as [|fuel IH]; intros n st Hinv Hfuel Hn.
  - simpl. rewrite decide_False by lia. exists st.
    pose proof (length_all_used _ _ Hinv ltac:(lia)) as Hall.
    split; [done|]. split; [done|]. split; [done|].
    replace (unused 0 (used_connections st) connections) with (@nil Segment).
    + by destruct n.
    + symmetry. apply unused_nil. intros j Hj. apply Hall. lia.
  - simpl. case_decide as Hlt.
    2:{ exists st. pose proof (length_all_used _ _ Hinv Hlt) as Hall.
        split; [done|]. split; [done|]. split; [done|].
        replace (unused 0 (used_connections st) connections) with (@nil Segment).
        - by destruct n.
        - symmetry. apply unused_nil. intros j Hj. apply Hall. lia. }
    destruct (unused 0 (used_connections st) connections) as [|p0 pending] eqn:Hpend.
    { exfalso. eapply all_used_length; [done| |done].
      intros k Hk. eapply unused_nil; [done|lia]. }
    destruct n as [|n]; [simpl in Hn; lia|].
    pose proof Hinv as [_ _ Hne _].
    unfold loop_body.
    destruct (last (flow st)) as [last_node|] eqn:Hlast;
      [|by apply last_None in Hlast].
    destruct (head (flow st)) as [first_node|] eqn:Hhead;
      [|by apply head_None in Hhead].
    cbn [stitch mbind option_bind]. rewrite Hlast, Hhead. cbn [default from_option id].
    rewrite scan_tail_scan, scan_head_scan.
    pose proof (loop_body_progress _ _ Hinv) as (out & Hout & Hprog).
    unfold loop_body in Hout. rewrite Hlast, Hhead in Hout.
    cbn [mbind option_bind] in Hout. rewrite scan_tail_scan, scan_head_scan in Hout.
    pose proof (scan_spec (attach_tail last_node) connections 0 (used_connections st)) as Ht.
    pose proof (scan_spec (attach_head first_node) connections 0 (used_connections st)) as Hh.
    rewrite Hpend in Ht, Hh.
    destruct (scan (attach_tail last_node) _ 0 connections) as [[k node]|].
    { destruct Ht as (_ & _ & _ & Hfa). rewrite Hfa. simplify_eq.
      destruct Hprog as (Hinv' & k' & _ & _ & Hused). simpl in Hused.
      apply first_attaching_length in Hfa.
      destruct (IH n _ Hinv') as (st' & Hrun & Hinv'' & Hall & Hflow).
      - simpl. rewrite length_app. simpl. lia.
      - simpl in *. lia.
      - exists st'. rewrite Hrun, Hflow. done. }
    rewrite Ht.
    destruct (scan (attach_head first_node) _ 0 connections) as [[k node]|].
    { destruct Hh as (_ & _ & _ & Hfa). rewrite Hfa. simplify_eq.
      destruct Hprog as (Hinv' & k' & _ & _ & Hused). simpl in Hused.
      apply first_attaching_length in Hfa.
      destruct (IH n _ Hinv') as (st' & Hrun & Hinv'' & Hall & Hflow).
      - simpl. rewrite length_app. simpl. lia.
      - simpl in *. lia.
      - exists st'. rewrite Hrun, Hflow. done. }
    rewrite Hh. simplify_eq. destruct Hprog as [Hinv' Hall].
    eexists. split; [done|]. split; [done|]. split; [done|].
    rewrite absorb_flow, Hpend. done.
Qed.

Lemma while_loop_total connections st fuel :
  invariant connections st →
  length connections - length (used_connections st) ≤ fuel →
  ∃ st', while_loop fuel connections st = Some st'.
Proof.
  intros Hinv Hfuel.
  destruct (while_loop_stitch connections fuel
              (length (unused 0 (used_connections st) connections)) st)
    as (st' & Hrun & _); eauto.
Qed.

(** More fuel than needed changes nothing. *)
Lemma while_loop_fuel_irrelevant connections : ∀ fuel fuel' st st1 st2,
  while_loop fuel connections st = Some st1 →
  while_loop fuel' connections st = Some st2 →
  st1 = st2.
Proof.
  induction fuel as [|fuel IH]; intros fuel' st st1 st2; simpl.
  - case_decide; [done|]. intros [= <-]. destruct fuel'; simpl;
      rewrite decide_False by done; congruence.
  - case_decide as Hlt.
    2:{ intros [= <-]. destruct fuel'; simpl;
          rewrite decide_False by done; congruence. }
    destruct fuel' as [|fuel']; simpl; rewrite decide_True by done; [done|].
    destruct (loop_body connections st) as [[st'|st']|]; [|congruence|done].
    apply IH.
Qed.

Lemma build_flow_fuel_stitch connections fuel :
  length connections ≤ fuel →
  build_flow_fuel fuel connections = Some (spec_buildFlow connections) ∧
  ∀ conn, conn ∈ connections →
          seg_from conn ∈ spec_buildFlow connections ∧
          seg_to conn ∈ spec_buildFlow connections.
Proof.
  intros Hfuel. destruct connections as [|c [|c' rest]].
  - split; [done|]. by intros conn ?%elem_of_nil.
  - split; [done|]. intros conn ->%list_elem_of_singleton. simpl.
    rewrite !elem_of_cons. auto.
  - pose proof (invariant_init c c' rest) as Hinv.
    destruct (while_loop_stitch (c :: c' :: rest) fuel (length (c' :: rest)) _ Hinv)
      as (st' & Hrun & Hinv' & Hall & Hflow).
    + simpl in *. lia.
    + change (length (unused 0 [0] (c :: c' :: rest)) ≤ length (c' :: rest)).
      change (unused 0 [0] (c :: c' :: rest))
        with (if decide (0 ∈ [0]) then unused 1 [0] (c' :: rest)
              else c :: unused 1 [0] (c' :: rest)).
      rewrite decide_True by (by apply list_elem_of_singleton).
      apply unused_length_le.
    + unfold build_flow_fuel. rewrite Hrun. cbn [fmap option_fmap option_map].
      assert (flow st' = spec_buildFlow (c :: c' :: rest)) as Heq.
      { rewrite Hflow. cbn [flow used_connections spec_buildFlow]. f_equal.
        change (unused 0 [0] (c :: c' :: rest))
          with (if decide (0 ∈ [0]) then unused 1 [0] (c' :: rest)
                else c :: unused 1 [0] (c' :: rest)).
        rewrite decide_True by (by apply list_elem_of_singleton).
        apply unused_fresh. intros j ->%list_elem_of_singleton. lia. }
      rewrite Heq. split; [done|].
      intros conn (k & Hk)%list_elem_of_lookup. rewrite <- Heq.
      eapply inv_endpoints; [done| |done].
      apply Hall. by eapply lookup_lt_Some.
Qed.

End FlowBuilderFacts.

(** ** The flow builder and the stitching rule *)

(** C1. [build_flow_by_following_sequence] returns, for every segment list,
    the sequence that the greedy sequential stitching rule of the
    specification dictates: nothing for no segment, [from; to] for a single
    one, and otherwise the result of extending the first segment at the tail,
    else at the head, else absorbing what is left. On
    [B->C; A->B] that rule extends at the head and yields [A; B; C]. *)
Theorem build_flow_implements_stitching :
  build_flow_by_following_sequence [] = Some [] ∧
  (∀ s, build_flow_by_following_sequence [s] = Some [seg_from s; seg_to s]) ∧
  (∀ segments,
     build_flow_by_following_sequence segments = Some (spec_buildFlow segments)) ∧
  build_flow_by_following_sequence [mkSegment "B" "C"; mkSegment "A" "B"]
  = Some ["A"; "B"; "C"].
Proof.
  split; [done|]. split; [done|]. split; [|by vm_compute].
  intros segments. by apply build_flow_fuel_stitch.
Qed.

(** The fallback absorbs [C->D] and [D->C] as loose endpoints; stitching
    them to one another would have repeated [C]. *)
Example fallback_leaves_fragments_unmerged :
  build_flow_by_following_sequence
    [mkSegment "A" "B"; mkSegment "C" "D"; mkSegment "D" "C"]
  = Some ["A"; "B"; "C"; "D"].
Proof. by vm_compute. Qed.

(** C3. When a pass of the loop finds no extension at the tail and none at
    the head, the loop ends in that very pass, whatever fuel is left: its
    result is the state after the fallback, in which every endpoint of every
    unused row was appended unless already present and every row is marked
    used. No hypothesis is made about the rows that are absorbed, so this
    holds also when they connect to one another or to an appended node. *)
Theorem fallback_fires_once_and_ends_loop
  (connections : list Segment) (st : state) (fuel : nat)
  (last_node first_node : string) :
  length (used_connections st) < length connections →
  last (flow st) = Some last_node →
  head (flow st) = Some first_node →
  scan_tail last_node (used_connections st) 0 connections = None →
  scan_head first_node (used_connections st) 0 connections = None →
  while_loop (S fuel) connections st = Some (absorb 0 connections st) ∧
  flow (absorb 0 connections st)
  = absorb_loose (flow st) (unused 0 (used_connections st) connections) ∧
  ∀ k, k < length connections → k ∈ used_connections (absorb 0 connections st).
Proof.
  intros Hlt Hlast Hhead Htail Hscan. split; [|split].
  - simpl. rewrite decide_True by done. unfold loop_body.
    rewrite Hlast. simpl. rewrite Htail, Hhead. simpl. rewrite Hscan. done.
  - apply absorb_flow.
  - intros k Hk. apply absorb_used. right. lia.
Qed.

Lemma fallback_fires_once_and_ends_loop_witness :
  let connections := [mkSegment "A" "B"; mkSegment "C" "D"; mkSegment "D" "C"] in
  let st := mkState ["A"; "B"] [0] in
  while_loop 1 connections st = Some (absorb 0 connections st) ∧
  flow (absorb 0 connections st)
  = absorb_loose (flow st) (unused 0 (used_connections st) connections) ∧
  ∀ k, k < length connections → k ∈ used_connections (absorb 0 connections st).
Proof.
  intros connections st.
  apply (fallback_fires_once_and_ends_loop connections st 0 "B" "A");
    [simpl; lia | reflexivity | reflexivity | reflexivity | reflexivity].
Defined.

(** C8. The flow builder returns on every finite segment list, whatever its
    topology: as many passes as there are rows always suffice, and more
    change nothing. The reason is that a pass of the loop either marks
    exactly one row used that was not, or breaks with every row used. *)
Theorem build_flow_terminates (connections : list Segment) :
  (∃ fl, build_flow_by_following_sequence connections = Some fl ∧
         ∀ fuel, length connections ≤ fuel →
                 build_flow_fuel fuel connections = Some fl) ∧
  ∀ st, flow st ≠ [] →
    ∃ out, loop_body connections st = Some out ∧
      match out with
      | Continue st' =>
          ∃ k, (k ∉ used_connections st) ∧ k < length connections ∧
               used_connections st' = used_connections st ++ [k]
      | Break st' => ∀ k, k < length connections → k ∈ used_connections st'
      end.
Proof.
  split.
  - exists (spec_buildFlow connections). split.
    + by apply build_flow_fuel_stitch.
    + intros fuel Hfuel. by apply build_flow_fuel_stitch.
  - intros st Hne. unfold loop_body.
    destruct (last (flow st)) as [last_node|] eqn:Hlast;
      [|by apply last_None in Hlast].
    destruct (head (flow st)) as [first_node|] eqn:Hhead;
      [|by apply head_None in Hhead].
    simpl. rewrite scan_tail_scan, scan_head_scan.
    pose proof (scan_spec (attach_tail last_node) connections 0 (used_connections st)) as Ht.
    pose proof (scan_spec (attach_head first_node) connections 0 (used_connections st)) as Hh.
    destruct (scan (attach_tail last_node) _ 0 connections) as [[k node]|].
    { destruct Ht as (Hk & Hnk & _). eexists. split; [done|].
      exists k. split; [done|]. split; [lia|done]. }
    destruct (scan (attach_head first_node) _ 0 connections) as [[k node]|].
    { destruct Hh as (Hk & Hnk & _). eexists. split; [done|].
      exists k. split; [done|]. split; [lia|done]. }
    eexists. split; [done|]. intros k Hk. apply absorb_used. right. lia.
Qed.

Lemma build_flow_terminates_witness :
  let connections := [mkSegment "A" "B"; mkSegment "B" "C"; mkSegment "C" "A"] in
  let st := mkState ["A"; "B"] [0] in
  flow st ≠ [] ∧
  ∃ out, loop_body connections st = Some out ∧
    match out with
    | Continue st' =>
        ∃ k, (k ∉ used_connections st) ∧ k < length connections ∧
             used_connections st' = used_connections st ++ [k]
    | Break st' => ∀ k, k < length connections → k ∈ used_connections st'
    end.
Proof.
  intros connections st.
  assert (flow st ≠ []) as Hne by (simpl; discriminate).
  split; [exact Hne|].
  exact (proj2 (build_flow_terminates connections) st Hne).
Defined.

(** A cycle and a branch, run to completion. *)
Example build_flow_cycle :
  build_flow_by_following_sequence
    [mkSegment "A" "B"; mkSegment "B" "C"; mkSegment "C" "A"]
  = Some ["A"; "B"; "C"; "A"].
Proof. by vm_compute. Qed.

Example build_flow_branch :
  build_flow_by_following_sequence
    [mkSegment "A" "B"; mkSegment "B" "C"; mkSegment "B" "D"]
  = Some ["A"; "B"; "C"; "D"].
Proof. by vm_compute. Qed.

(** C10. Both endpoints of every input segment are members of the sequence
    that the flow builder returns; membership is all that is promised, since
    a cyclic input such as [A->B; B->A] yields a sequence with a repeated
    label. *)
Theorem build_flow_keeps_every_endpoint :
  (∀ connections conn, conn ∈ connections →
     ∃ fl, build_flow_by_following_sequence connections = Some fl ∧
           seg_from conn ∈ fl ∧ seg_to conn ∈ fl) ∧
  (∃ connections fl,
     build_flow_by_following_sequence connections = Some fl ∧ ¬ NoDup fl).
Proof.
  split.
  - intros connections conn Hin.
    destruct (build_flow_fuel_stitch connections (length connections)) as [Hrun Hall];
      [done|].
    exists (spec_buildFlow connections). split; [done|]. by apply Hall.
  - exists [mkSegment "A" "B"; mkSegment "B" "A"], ["A"; "B"; "A"].
    split; [by vm_compute|].
    intros Hnd. apply NoDup_cons in Hnd as [Hnotin _].
    apply Hnotin. right. left.
Qed.

Lemma build_flow_keeps_every_endpoint_witness :
  let connections := [mkSegment "TK-01" "PU-01"; mkSegment "PU-01" "RELEASE"] in
  mkSegment "PU-01" "RELEASE" ∈ connections ∧
  ∃ fl, build_flow_by_following_sequence connections = Some fl ∧
        "PU-01" ∈ fl ∧ "RELEASE" ∈ fl.
Proof.
  intros connections.
  assert (mkSegment "PU-01" "RELEASE" ∈ connections) as Hin
    by (apply (bool_decide_unpack _); vm_compute; exact I).
  split; [exact Hin|].
  exact (proj1 build_flow_keeps_every_endpoint connections _ Hin).
Defined.

(** * Properties of the tag normalizers *)

Section NormalizerFacts.

Ltac each_ascii c := destruct c as [[] [] [] [] [] [] [] []].

Lemma is_ascii_alnum_spec c : is_ascii_alnum c = ascii_letter_or_digit c.
Proof. each_ascii c; vm_compute; reflexivity. Qed.

Lemma lower_char_spec c :
  is_ascii_alnum c = true → lower_char c = ascii_lowercase c.
Proof. each_ascii c; vm_compute; intros H; (discriminate H || reflexivity). Qed.

Lemma lower_char_alnum c :
  is_ascii_alnum c = true → is_ascii_alnum (lower_char c) = true.
Proof. each_ascii c; vm_compute; intros H; (discriminate H || reflexivity). Qed.

Lemma lower_char_idem c : lower_char (lower_char c) = lower_char c.
Proof. each_ascii c; vm_compute; reflexivity. Qed.

Lemma normalize_spec s : lower (re_sub_non_alnum s) = spec_normalize s.
Proof.
  unfold spec_normalize, chars. induction s as [|c s IH]; simpl; [done|].
  rewrite <- is_ascii_alnum_spec.
  destruct (is_ascii_alnum c) eqn:Hc; simpl; [|done].
  rewrite IH, lower_char_spec by done. done.
Qed.

Lemma re_sub_lower_fixed s :
  re_sub_non_alnum (lower (re_sub_non_alnum s)) = lower (re_sub_non_alnum s).
Proof.
  induction s as [|c s IH]; simpl; [done|].
  destruct (is_ascii_alnum c) eqn:Hc; simpl; [|done].
  rewrite lower_char_alnum by done. by rewrite IH.
Qed.

Lemma lower_idem s : lower (lower s) = lower s.
Proof. induction s as [|c s IH]; simpl; [done|]. by rewrite lower_char_idem, IH. Qed.

Lemma normalize_idem s :
  lower (re_sub_non_alnum (lower (re_sub_non_alnum s)))
  = lower (re_sub_non_alnum s).
Proof. by rewrite re_sub_lower_fixed, lower_idem. Qed.

Lemma normalize_same a b :
  same_modulo_case_and_punctuation a b →
  lower (re_sub_non_alnum a) = lower (re_sub_non_alnum b).
Proof.
  induction 1 as [|c a b Hc _ IH|c a b Hc _ IH|c d a b Hc Hd Hcd _ IH]; simpl.
  - done.
  - rewrite <- is_ascii_alnum_spec in Hc. by rewrite Hc.
  - rewrite <- is_ascii_alnum_spec in Hc. by rewrite Hc.
  - rewrite <- is_ascii_alnum_spec in Hc, Hd. rewrite Hc, Hd. simpl.
    rewrite !lower_char_spec by done. by rewrite Hcd, IH.
Qed.

End NormalizerFacts.

(** C6, as the claim states it, fails for the normalizer of
    [s4_normalize_tags.py]: a number comes back as that number, which is
    not an empty result. *)
Lemma s4_normalize_tag_nonstring_not_empty :
  is_str (VInt 5) = false ∧
  S4.normalize_tag (VInt 5) = VInt 5 ∧
  ¬ empty_result (S4.normalize_tag (VInt 5)).
Proof.
  split; [done|]. split; [done|].
  intros [H|[H|[H|H]]]; discriminate H.
Qed.

(** C6, amended. On an input that is not a string the normalizer of
    [main.py] returns the empty string and the one of [s4_normalize_tags.py]
    returns its input unchanged. On a string both return the ASCII letters
    and digits of the input, in order and lower-cased; hence both are
    idempotent and send two tags that differ only in case or punctuation to
    the same result. *)
Theorem normalize_tag_contract :
  (∀ v, is_str v = false → Chat.normalize_tag v = "" ∧ S4.normalize_tag v = v) ∧
  (∀ s, Chat.normalize_tag (VStr s) = spec_normalize s ∧
        S4.normalize_tag (VStr s) = VStr (spec_normalize s)) ∧
  (∀ v, Chat.normalize_tag (VStr (Chat.normalize_tag v)) = Chat.normalize_tag v ∧
        S4.normalize_tag (S4.normalize_tag v) = S4.normalize_tag v) ∧
  (∀ a b, same_modulo_case_and_punctuation a b →
          Chat.normalize_tag (VStr a) = Chat.normalize_tag (VStr b) ∧
          S4.normalize_tag (VStr a) = S4.normalize_tag (VStr b)).
Proof.
  split; [|split; [|split]].
  - intros v Hv. by destruct v.
  - intros s. simpl. by rewrite normalize_spec.
  - intros v. destruct v; simpl; try done. by rewrite normalize_idem.
  - intros a b Hab. simpl. by rewrite (normalize_same a b Hab).
Qed.

Lemma normalize_tag_contract_witness :
  same_modulo_case_and_punctuation "HV-MK.H441" "hvmkh441" ∧
  Chat.normalize_tag (VStr "HV-MK.H441") = Chat.normalize_tag (VStr "hvmkh441") ∧
  S4.normalize_tag (VStr "HV-MK.H441") = S4.normalize_tag (VStr "hvmkh441").
Proof.
  assert (same_modulo_case_and_punctuation "HV-MK.H441" "hvmkh441") as Hsame.
  { repeat first [ apply same_empty
                 | apply same_char; [reflexivity | reflexivity | reflexivity |]
                 | apply same_skip_l; [reflexivity |] ]. }
  split; [exact Hsame|].
  exact (proj2 (proj2 (proj2 normalize_tag_contract)) _ _ Hsame).
Defined.

Example normalize_tag_example :
  Chat.normalize_tag (VStr "HV-MK.H441") = "hvmkh441" ∧
  S4.normalize_tag (VStr "HV-MK.H441") = VStr "hvmkh441" ∧
  Chat.normalize_tag VNone = "" ∧
  S4.normalize_tag VNone = VNone.
Proof. by vm_compute. Qed.

(** * Properties of the sequence matcher *)

Section DifflibSound.

Variables a b : list ascii.
Variable b2j : gmap ascii (list nat).
Hypothesis Hb2j : sound_index b b2j.

Implicit Types (i j k d alo ahi blo bhi : nat) (m best : Match)
  (j2len newj2len : gmap nat nat) (js : list nat).

#[local] Abbreviation row_ok := (Difflib.row_ok a b).
#[local] Abbreviation prev_ok := (Difflib.prev_ok a b).

(** Close a goal [l !! x = Some e] with a hypothesis about [l !! y] where
    [x = y] is arithmetic. *)
Ltac by_lookup :=
  match goal with
  | H : ?l !! _ = Some ?e |- ?l !! _ = Some ?e =>
      etrans; [|exact H]; f_equal; lia
  end.

Lemma valid_block_weaken alo ahi ahi' blo bhi m :
  ahi ≤ ahi' → valid_block a b (alo, ahi, blo, bhi) m →
  valid_block a b (alo, ahi', blo, bhi) m.
Proof. destruct m as [[i j] k]. simpl. intuition lia. Qed.

Lemma inner_loop_sound alo blo bhi i elt j2len : ∀ js newj2len best,
  alo ≤ i → a !! i = Some elt →
  (∀ j, j ∈ js → b !! j = Some elt) →
  prev_ok alo blo bhi i j2len →
  row_ok alo blo bhi i newj2len →
  valid_block a b (alo, S i, blo, bhi) best →
  let '(newj2len', best') := inner_loop j2len blo bhi i js newj2len best in
  row_ok alo blo bhi i newj2len' ∧ valid_block a b (alo, S i, blo, bhi) best'.
Proof.
  induction js as [|j js IH]; intros newj2len best Hi Ha Hjs Hprev Hrow Hbest; simpl.
  { done. }
  assert (∀ j, j ∈ js → b !! j = Some elt) as Hjs' by (intros; apply Hjs; by right).
  assert (b !! j = Some elt) as Hbj by (apply Hjs; by left).
  case_decide as Hlo; [by apply IH|].
  case_decide as Hhi; [done|].
  set (k := j2lenget_pred j2len j + 1).
  assert (1 ≤ k ∧ valid_block a b (alo, S i, blo, bhi) (i + 1 - k, j + 1 - k, k)
          ∧ k ≤ i + 1 ∧ k ≤ j + 1) as (Hk1 & Hkv & Hki & Hkj).
  { subst k. destruct j as [|j']; cbn [j2lenget_pred].
    - split; [lia|]. split; [|lia]. cbn [valid_block]. repeat split; try lia.
      intros d Hd. exists elt. split; by_lookup.
    - destruct (j2len !! j') as [k0|] eqn:Hk0; cbn [default from_option id].
      + destruct i as [|r].
        { simpl in Hprev. subst j2len. by rewrite lookup_empty in Hk0. }
        destruct Hprev as [Hge Hlt].
        destruct (decide (alo ≤ r)) as [Hr|Hr].
        2:{ rewrite Hlt in Hk0 by lia. by rewrite lookup_empty in Hk0. }
        destruct (Hge Hr j' k0 Hk0) as (H1 & Hv & H2 & H3).
        cbn [valid_block] in Hv. destruct Hv as (Hv1 & Hv2 & Hv3 & Hv4 & Hv5).
        split; [lia|]. split; [|lia]. cbn [valid_block]. repeat split; try lia.
        intros d Hd. destruct (decide (d = k0)) as [->|Hne].
        * exists elt. split; by_lookup.
        * destruct (Hv5 d ltac:(lia)) as (x & Hx1 & Hx2). exists x.
          split; by_lookup.
      + split; [lia|]. split; [|lia]. cbn [valid_block]. repeat split; try lia.
        intros d Hd. exists elt. split; by_lookup. }
  apply IH; try done.
  - intros j0 k0. rewrite lookup_insert. case_decide as Hj0.
    + intros [= <-]. subst j0. done.
    + apply Hrow.
  - case_decide; [done|done].
Qed.

Lemma positions_sound i elt :
  a !! i = Some elt → ∀ j, j ∈ positions a b2j i → b !! j = Some elt.
Proof.
  intros Ha j. unfold positions. rewrite Ha. simpl.
  destruct (b2j !! elt) as [js|] eqn:Hjs; simpl.
  - by apply Hb2j.
  - by intros ?%elem_of_nil.
Qed.

Lemma row_ok_empty alo blo bhi r : row_ok alo blo bhi r ∅.
Proof. intros j k. by rewrite lookup_empty. Qed.

Lemma main_loop_sound alo blo bhi : ∀ n i j2len best,
  alo ≤ i →
  prev_ok alo blo bhi i j2len →
  valid_block a b (alo, i, blo, bhi) best →
  valid_block a b (alo, i + n, blo, bhi)
    (foldl (λ '(j2len, best) i,
              inner_loop j2len blo bhi i (positions a b2j i) ∅ best)
           (j2len, best) (seq i n)).2.
Proof.
  induction n as [|n IH]; intros i j2len best Hi Hprev Hbest; simpl.
  { by rewrite Nat.add_0_r. }
  destruct (a !! i) as [elt|] eqn:Ha.
  - pose proof (inner_loop_sound alo blo bhi i elt j2len (positions a b2j i) ∅ best
                  Hi Ha (positions_sound i elt Ha) Hprev (row_ok_empty _ _ _ _)
                  (valid_block_weaken alo i (S i) blo bhi best ltac:(lia) Hbest)) as Hstep.
    destruct (inner_loop j2len blo bhi i (positions a b2j i) ∅ best)
      as [newj2len best'].
    destruct Hstep as [Hrow Hbest'].
    replace (i + S n) with (S i + n) by lia.
    apply IH; [lia| |done].
    simpl. split; [done|lia].
  - assert (positions a b2j i = []) as -> by (unfold positions; by rewrite Ha).
    cbn [inner_loop].
    replace (i + S n) with (S i + n) by lia.
    apply IH; [lia| |by eapply valid_block_weaken; [|done]; lia].
    simpl. split; [intros; apply row_ok_empty|done].
Qed.

Lemma longest_junk_free_sound alo ahi blo bhi :
  well_formed (alo, ahi, blo, bhi) →
  valid_block a b (alo, ahi, blo, bhi) (longest_junk_free a b2j alo ahi blo bhi).
Proof.
  intros [Ha Hb]. unfold longest_junk_free.
  replace ahi with (alo + (ahi - alo)) at 1 by lia.
  apply main_loop_sound; [done| |].
  - destruct alo; simpl; [done|]. split; [lia|done].
  - simpl. repeat split; try lia.
Qed.

Lemma same_element_eq junk x y :
  same_element a b junk x y = true →
  ∃ e, a !! x = Some e ∧ b !! y = Some e.
Proof.
  unfold same_element. destruct (a !! x) as [ea|], (b !! y) as [eb|]; try done.
  intros [_ ->%bool_decide_eq_true]%andb_true_iff. eauto.
Qed.

Lemma extend_left_sound junk alo ahi blo bhi : ∀ besti bestj bestsize,
  valid_block a b (alo, ahi, blo, bhi) (besti, bestj, bestsize) →
  valid_block a b (alo, ahi, blo, bhi)
    (extend_left a b junk alo blo besti bestj bestsize).
Proof.
  induction besti as [|i' IH]; intros bestj bestsize Hv; simpl; [done|].
  destruct bestj as [|j']; [done|].
  case_decide as Hlt; [|done].
  destruct (same_element a b junk i' j') eqn:Hsame; [|done].
  apply IH. apply same_element_eq in Hsame as (e & Hea & Heb).
  simpl in *. destruct Hv as (H1 & H2 & H3 & H4 & H5).
  repeat split; try lia.
  intros d Hd. destruct d as [|d].
  - exists e. split; by_lookup.
  - destruct (H5 d ltac:(lia)) as (x & Hx1 & Hx2). exists x. split; by_lookup.
Qed.

Lemma extend_right_sound junk alo ahi blo bhi besti bestj : ∀ room bestsize,
  valid_block a b (alo, ahi, blo, bhi) (besti, bestj, bestsize) →
  valid_block a b (alo, ahi, blo, bhi)
    (extend_right a b junk ahi bhi besti bestj bestsize room).
Proof.
  induction room as [|room IH]; intros bestsize Hv; simpl; [done|].
  case_decide as Hlt; [|done].
  destruct (same_element a b junk _ _) eqn:Hsame; [|done].
  apply IH. apply same_element_eq in Hsame as (e & Hea & Heb).
  simpl in *. destruct Hv as (H1 & H2 & H3 & H4 & H5).
  repeat split; try lia.
  intros d Hd. destruct (decide (d = bestsize)) as [->|Hne].
  - by exists e.
  - apply H5. lia.
Qed.

Lemma extend_sound junk alo ahi blo bhi m :
  valid_block a b (alo, ahi, blo, bhi) m →
  valid_block a b (alo, ahi, blo, bhi) (extend a b junk alo ahi blo bhi m).
Proof.
  intros Hv. unfold extend. destruct m as [[besti bestj] bestsize].
  pose proof (extend_left_sound junk alo ahi blo bhi besti bestj bestsize Hv) as Hl.
  destruct (extend_left a b junk alo blo besti bestj bestsize) as [[i j] k].
  by apply extend_right_sound.
Qed.

Lemma find_longest_match_sound alo ahi blo bhi :
  well_formed (alo, ahi, blo, bhi) →
  valid_block a b (alo, ahi, blo, bhi)
    (find_longest_match a b b2j alo ahi blo bhi).
Proof.
  intros Hwf. unfold find_longest_match.
  by apply extend_sound, extend_sound, longest_junk_free_sound.
Qed.

End DifflibSound.

Section DifflibQueue.

Variables a b : list ascii.
Variable b2j : gmap ascii (list nat).
Hypothesis Hb2j : sound_index b b2j.

Implicit Types (r : region) (queue : list region) (blocks : list Match).

#[local] Abbreviation tight := (Difflib.tight a b).

Lemma rounds_cons r queue :
  rounds (r :: queue) = 2 * (r.1.1.2 - r.1.1.1) + 1 + rounds queue.
Proof. reflexivity. Qed.

Lemma potential_cons r queue blocks :
  potential (r :: queue) blocks = capacity r + potential queue blocks.
Proof. unfold potential. rewrite fmap_cons. cbn [sum_list_with id]. lia. Qed.

Lemma potential_snoc queue blocks (m : Match) :
  potential queue (blocks ++ [m]) = size m + potential queue blocks.
Proof.
  unfold potential. rewrite fmap_app, sum_list_with_app.
  cbn [fmap list_fmap sum_list_with id]. lia.
Qed.

Lemma potential_nil blocks : potential [] blocks = sum_list (size <$> blocks).
Proof. unfold potential. cbn [fmap list_fmap sum_list_with]. lia. Qed.

(** What a round does, with the block it found. *)
Lemma queue_body_spec r queue blocks :
  well_formed r →
  ∃ i j k, valid_block a b r (i, j, k) ∧
    let '(alo, ahi, blo, bhi) := r in
    queue_body a b b2j r queue blocks =
      if decide (k ≠ 0) then
        ((if decide (i + k < ahi ∧ j + k < bhi) then [(i + k, ahi, j + k, bhi)] else [])
         ++ (if decide (alo < i ∧ blo < j) then [(alo, i, blo, j)] else [])
         ++ queue,
         blocks ++ [(i, j, k)])
      else (queue, blocks).
Proof.
  destruct r as [[[alo ahi] blo] bhi]. intros Hwf.
  pose proof (find_longest_match_sound a b b2j Hb2j alo ahi blo bhi Hwf) as Hv.
  unfold queue_body.
  destruct (find_longest_match a b b2j alo ahi blo bhi) as [[i j] k].
  exists i, j, k. split; [done|].
  repeat case_decide; done.
Qed.

Lemma queue_body_progress r queue blocks :
  Forall well_formed (r :: queue) →
  Forall well_formed (queue_body a b b2j r queue blocks).1 ∧
  rounds (queue_body a b b2j r queue blocks).1 < rounds (r :: queue) ∧
  potential (queue_body a b b2j r queue blocks).1 (queue_body a b b2j r queue blocks).2
  ≤ potential (r :: queue) blocks.
Proof.
  intros [Hr Hq]%Forall_cons.
  destruct (queue_body_spec r queue blocks Hr) as (i & j & k & Hv & Hbody).
  destruct r as [[[alo ahi] blo] bhi]. rewrite Hbody. clear Hbody.
  destruct Hv as (H1 & H2 & H3 & H4 & _). destruct Hr as [Hr1 Hr2].
  repeat case_decide; cbn [fst snd app]; rewrite ?Forall_cons;
    (split; [repeat split; (done || lia)|]);
    rewrite ?rounds_cons, ?potential_cons, ?potential_snoc;
    cbn [capacity size fst snd]; lia.
Qed.

(** The rule of the loop: an invariant of the rounds holds of the result,
    and the loop does return when given [rounds queue] rounds. *)
Lemma queue_loop_rule (I : list region → list Match → Prop) :
  (∀ r queue blocks,
     Forall well_formed (r :: queue) → I (r :: queue) blocks →
     I (queue_body a b b2j r queue blocks).1 (queue_body a b b2j r queue blocks).2) →
  ∀ fuel queue blocks,
    Forall well_formed queue → rounds queue ≤ fuel → I queue blocks →
    ∃ result, queue_loop fuel a b b2j queue blocks = Some result ∧ I [] result.
Proof.
  intros Hstep. induction fuel as [|fuel IH]; intros queue blocks Hwf Hfuel HI.
  - destruct queue as [|r queue]; [by exists blocks|].
    rewrite rounds_cons in Hfuel. lia.
  - destruct queue as [|r queue]; [by exists blocks|]. simpl.
    pose proof (queue_body_progress r queue blocks Hwf) as (Hwf' & Hlt & _).
    specialize (Hstep r queue blocks Hwf HI).
    destruct (queue_body a b b2j r queue blocks) as [queue' blocks'].
    apply IH; [done| |done]. simpl in *. lia.
Qed.

(** The matched sizes never exceed what the regions could hold. *)
Lemma queue_loop_potential fuel queue blocks :
  Forall well_formed queue → rounds queue ≤ fuel →
  ∃ result, queue_loop fuel a b b2j queue blocks = Some result ∧
            sum_list (size <$> result) ≤ potential queue blocks.
Proof.
  intros Hwf Hfuel.
  destruct (queue_loop_rule (λ q bl, potential q bl ≤ potential queue blocks))
    with (fuel := fuel) (queue := queue) (blocks := blocks)
    as (result & Hrun & Hres); try done.
  - intros r q bl Hwf' HI.
    pose proof (queue_body_progress r q bl Hwf') as (_ & _ & Hle). lia.
  - exists result. split; [done|]. by rewrite potential_nil in Hres.
Qed.

Lemma tight_step n r queue blocks :
  Forall well_formed (r :: queue) →
  potential (r :: queue) blocks ≤ n →
  tight n (r :: queue) blocks →
  tight n (queue_body a b b2j r queue blocks).1 (queue_body a b b2j r queue blocks).2.
Proof.
  intros Hwf Hpot [Hlost|[Hal Hcov]].
  { left. pose proof (queue_body_progress r queue blocks Hwf) as (_ & _ & Hle). lia. }
  apply Forall_cons in Hwf as [Hr Hq]. apply Forall_cons in Hal as [Har Haq].
  destruct (queue_body_spec r queue blocks Hr) as (i & j & k & Hv & Hbody).
  destruct r as [[[alo ahi] blo] bhi]. rewrite Hbody. clear Hbody.
  destruct Har as [<- <-]. destruct Hv as (H1 & H2 & H3 & H4 & H5).
  unfold tight in *. rewrite potential_cons in *. cbn [capacity] in *.
  destruct (decide (k ≠ 0)) as [Hk|Hk]; cbn [fst snd].
  - destruct (decide (i = j)) as [<-|Hij].
    + right. split.
      * repeat case_decide; simpl; rewrite ?Forall_cons; done.
      * intros p Hp Hne. destruct (Hcov p Hp Hne) as (r & Hin & Hins).
        apply elem_of_cons in Hin as [->|Hin].
        2:{ exists r. split; [|done]. rewrite !elem_of_app. auto. }
        simpl in Hins.
        destruct (decide (p < i)) as [Hpi|Hpi].
        { exists (alo, i, alo, i). split; [|simpl; lia].
          repeat case_decide; try lia;
            rewrite ?elem_of_app, ?list_elem_of_singleton; auto. }
        destruct (decide (p < i + k)) as [Hpk|Hpk].
        { destruct (H5 (p - i) ltac:(lia)) as (x & Hx1 & Hx2).
          replace (i + (p - i)) with p in * by lia. congruence. }
        exists (i + k, ahi, i + k, ahi). split; [|simpl; lia].
        repeat case_decide; try lia;
          rewrite ?elem_of_app, ?list_elem_of_singleton; auto.
    + left. repeat case_decide; cbn [app];
        rewrite ?potential_cons, ?potential_snoc; cbn [capacity size fst snd]; lia.
  - destruct (decide (alo = ahi)) as [<-|Hne].
    + right. split; [done|].
      intros p Hp Hdiff. destruct (Hcov p Hp Hdiff) as (r & Hin & Hins).
      apply elem_of_cons in Hin as [->|Hin]; [simpl in Hins; lia|]. eauto.
    + left. lia.
Qed.

Lemma queue_loop_tight n fuel queue blocks :
  Forall well_formed queue → rounds queue ≤ fuel →
  potential queue blocks ≤ n → tight n queue blocks →
  ∃ result, queue_loop fuel a b b2j queue blocks = Some result ∧
            (sum_list (size <$> result) = n → ∀ p, p < n → a !! p = b !! p).
Proof.
  intros Hwf Hfuel Hpot Htight.
  destruct (queue_loop_rule (λ q bl, potential q bl ≤ n ∧ tight n q bl))
    with (fuel := fuel) (queue := queue) (blocks := blocks)
    as (result & Hrun & Hle & Hres); try done.
  - intros r q bl Hwf' [HI1 HI2]. split.
    + pose proof (queue_body_progress r q bl Hwf') as (_ & _ & Hle). lia.
    + by apply tight_step.
  - exists result. split; [done|]. intros Hsum p Hp.
    destruct Hres as [Hlost|[_ Hcov]].
    + rewrite potential_nil in Hlost. lia.
    + destruct (decide (a !! p = b !! p)) as [|Hne]; [done|].
      destruct (Hcov p Hp Hne) as (r & Hin & _). by apply elem_of_nil in Hin.
Qed.

End DifflibQueue.

Section DifflibBlocks.

Implicit Types (l : list Match) (x : Match).

Lemma sum_sizes_cons x l :
  sum_list (size <$> x :: l) = size x + sum_list (size <$> l).
Proof. reflexivity. Qed.

Lemma sum_sizes_snoc l x :
  sum_list (size <$> l ++ [x]) = sum_list (size <$> l) + size x.
Proof.
  rewrite fmap_app, sum_list_with_app. cbn [fmap list_fmap sum_list_with id]. lia.
Qed.

Lemma insert_sorted_sum x l :
  sum_list (size <$> insert_sorted x l) = size x + sum_list (size <$> l).
Proof.
  induction l as [|y l IH]; cbn [insert_sorted]; [done|].
  destruct (Match_leb x y); rewrite !sum_sizes_cons; [done|]. rewrite IH. lia.
Qed.

Lemma sort_sum l : sum_list (size <$> sort l) = sum_list (size <$> l).
Proof.
  unfold sort. induction l as [|x l IH]; cbn [foldr]; [done|].
  by rewrite insert_sorted_sum, sum_sizes_cons, IH.
Qed.

Lemma collapse_fold_sum l : ∀ i1 j1 k1 acc,
  let '(_, _, k1', acc') := foldl collapse_step (i1, j1, k1, acc) l in
  k1' + sum_list (size <$> acc')
  = k1 + sum_list (size <$> acc) + sum_list (size <$> l).
Proof.
  induction l as [|[[i2 j2] k2] l IH]; intros i1 j1 k1 acc; cbn [foldl].
  { cbn [fmap list_fmap sum_list_with]. lia. }
  rewrite sum_sizes_cons. unfold collapse_step at 2. cbn [size snd].
  case_decide.
  - specialize (IH i1 j1 (k1 + k2) acc).
    destruct (foldl collapse_step _ l) as [[[? ?] k1'] acc']. lia.
  - specialize (IH i2 j2 k2 (if decide (k1 ≠ 0) then acc ++ [(i1, j1, k1)] else acc)).
    destruct (foldl collapse_step _ l) as [[[? ?] k1'] acc']. rewrite IH.
    case_decide; rewrite ?sum_sizes_snoc; cbn [size snd]; lia.
Qed.

Lemma collapse_sum la lb l :
  sum_list (size <$> collapse la lb l) = sum_list (size <$> l).
Proof.
  unfold collapse. pose proof (collapse_fold_sum l 0 0 0 []) as H.
  destruct (foldl collapse_step _ l) as [[[i1 j1] k1] acc].
  cbn [fmap list_fmap sum_list_with] in H.
  case_decide; rewrite ?sum_sizes_snoc; cbn [size snd]; lia.
Qed.

End DifflibBlocks.

Section DifflibIndex.

Implicit Types (l b : list ascii) (elt : ascii) (js : list nat) (j : nat)
  (b2j : gmap ascii (list nat)).

Lemma occurrences_elem elt l : ∀ (i0 : nat) j,
  j ∈ occurrences elt i0 l ↔ i0 ≤ j ∧ l !! (j - i0) = Some elt.
Proof.
  induction l as [|x l IH]; intros i0 j; simpl.
  - rewrite elem_of_nil. split; [done|]. intros [_ H]. by rewrite lookup_nil in H.
  - case_decide as Hx; rewrite ?elem_of_cons, IH.
    + subst x. split.
      * intros [->|[Hle Hl]]; [rewrite Nat.sub_diag; split; [lia|done]|].
        split; [lia|]. by replace (j - i0) with (S (j - S i0)) by lia.
      * intros [Hle Hl]. destruct (decide (j = i0)) as [->|Hne]; [by left|right].
        split; [lia|]. by replace (j - i0) with (S (j - S i0)) in Hl by lia.
    + split.
      * intros [Hle Hl]. split; [lia|].
        by replace (j - i0) with (S (j - S i0)) by lia.
      * intros [Hle Hl]. destruct (decide (j = i0)) as [->|Hne].
        { rewrite Nat.sub_diag in Hl. simpl in Hl. congruence. }
        split; [lia|]. by replace (j - i0) with (S (j - S i0)) in Hl by lia.
Qed.

Lemma index_fold elt l : ∀ (i0 : nat) b2j,
  foldl (λ (b2j : gmap ascii (list nat)) '(i, x),
           <[x := default [] (b2j !! x) ++ [i]]> b2j)
        b2j (imap (λ i x, (i0 + i, x)) l) !! elt
  = grown (b2j !! elt) (occurrences elt i0 l).
Proof.
  induction l as [|x l IH]; intros i0 b2j; [done|].
  rewrite imap_cons. cbn [foldl occurrences].
  rewrite (imap_ext _ (λ i x, (S i0 + i, x))) by (intros; simpl; f_equal; lia).
  rewrite IH, Nat.add_0_r. case_decide as Hx.
  - subst x. rewrite lookup_insert_eq.
    destruct (occurrences elt (S i0) l); simpl; [done|].
    by rewrite <- app_assoc.
  - by rewrite lookup_insert_ne.
Qed.

Lemma index_all_lookup b elt :
  index_all b !! elt = grown None (occurrences elt 0 b).
Proof.
  unfold index_all. rewrite <- (lookup_empty (M := gmap ascii) (A := list nat) elt).
  apply (index_fold elt b 0 ∅).
Qed.

(** An entry of [chain_b b] is the full, increasing list of the positions
    of its key. *)
Lemma chain_b_lookup b elt js :
  chain_b b !! elt = Some js → js = occurrences elt 0 b.
Proof.
  unfold chain_b. intros H.
  assert (index_all b !! elt = Some js) as Hall.
  { case_decide; [|done]. by apply map_lookup_filter_Some in H as [H _]. }
  rewrite index_all_lookup in Hall.
  destruct (occurrences elt 0 b); simpl in Hall; congruence.
Qed.

Lemma chain_b_sound b : sound_index b (chain_b b).
Proof.
  intros elt js j ->%chain_b_lookup [_ Hj]%occurrences_elem.
  by rewrite Nat.sub_0_r in Hj.
Qed.

End DifflibIndex.

Section DifflibRatio.

Implicit Types a b : list ascii.

(** The number of matched elements behind a ratio: the sizes of the
    blocks of [get_matching_blocks]. *)
Lemma ratio_matches a b :
  ∃ matches,
    ratio a b = Some (calculate_ratio matches (length a + length b)) ∧
    matches ≤ length a ∧ matches ≤ length b ∧
    (length a = length b → matches = length a → a = b).
Proof.
  pose proof (chain_b_sound b) as Hsound.
  assert (Forall well_formed [(0, length a, 0, length b)]) as Hwf.
  { apply Forall_singleton. simpl. lia. }
  assert (rounds [(0, length a, 0, length b)] ≤ 2 * length a + 1) as Hfuel.
  { rewrite rounds_cons. unfold rounds. simpl. lia. }
  assert (potential [(0, length a, 0, length b)] [] = length a `min` length b) as Hpot.
  { rewrite potential_cons, potential_nil. simpl. lia. }
  destruct (queue_loop_potential a b (chain_b b) Hsound _ _ [] Hwf Hfuel)
    as (blocks & Hrun & Hle).
  rewrite Hpot in Hle.
  exists (sum_list (size <$> blocks)).
  unfold ratio, get_matching_blocks. rewrite Hrun. cbn [mbind option_bind].
  rewrite collapse_sum, sort_sum. split; [done|]. split; [lia|]. split; [lia|].
  intros Hlen Hfull.
  destruct (queue_loop_tight a b (chain_b b) Hsound (length a) _ _ [] Hwf Hfuel)
    as (blocks' & Hrun' & Heq).
  - rewrite Hpot. lia.
  - right. split.
    + apply Forall_singleton. simpl. lia.
    + intros p Hp _. exists (0, length a, 0, length b).
      split; [by apply list_elem_of_singleton|]. simpl. lia.
  - rewrite Hrun in Hrun'. injection Hrun' as <-.
    apply list_eq. intros p. destruct (decide (p < length a)) as [Hp|Hp].
    + by apply Heq.
    + rewrite !lookup_ge_None_2 by lia. done.
Qed.

Lemma calculate_ratio_range matches total :
  2 * matches ≤ total →
  (0 <= calculate_ratio matches total)%Q ∧ (calculate_ratio matches total <= 1)%Q.
Proof.
  intros Hle. unfold calculate_ratio. case_decide as Hz.
  - unfold Qle. simpl. split; [lia|].
    rewrite Z.mul_1_r, Z.mul_1_l.
    rewrite <- (positive_nat_Z (Pos.of_nat total)), Nat2Pos.id by done. lia.
  - split; unfold Qle; simpl; lia.
Qed.

Lemma calculate_ratio_one matches total :
  total ≠ 0 → (calculate_ratio matches total == 1)%Q ↔ 2 * matches = total.
Proof.
  intros Hz. unfold calculate_ratio. rewrite decide_True by done.
  unfold Qeq. simpl. rewrite Z.mul_1_r, Z.mul_1_l.
  rewrite <- (positive_nat_Z (Pos.of_nat total)), Nat2Pos.id by done. lia.
Qed.

Lemma ratio_total a b : ∃ q, ratio a b = Some q.
Proof. destruct (ratio_matches a b) as (m & H & _). eauto. Qed.

Lemma ratio_range a b q : ratio a b = Some q → (0 <= q)%Q ∧ (q <= 1)%Q.
Proof.
  destruct (ratio_matches a b) as (m & Hr & Ha & Hb & _).
  rewrite Hr. intros [= <-]. apply calculate_ratio_range. lia.
Qed.

Lemma ratio_one_eq a b q : ratio a b = Some q → (q == 1)%Q → a = b.
Proof.
  destruct (ratio_matches a b) as (m & Hr & Ha & Hb & Heq).
  rewrite Hr. intros [= <-] Hone.
  destruct (decide (length a + length b = 0)) as [Hz|Hz].
  - destruct a, b; simpl in Hz; try lia. done.
  - apply calculate_ratio_one in Hone; [|done]. apply Heq; lia.
Qed.

End DifflibRatio.

Section DifflibIdentical.

Variable s : list ascii.

Abbreviation b2j := (chain_b s).
Abbreviation n := (length s).

Implicit Types (i j k r c : nat) (best : Match) (j2len newj2len : gmap nat nat)
  (js : list nat).

#[local] Abbreviation holds_row_before := (Difflib.holds_row_before s).
#[local] Abbreviation holds_row := (Difflib.holds_row s).
#[local] Abbreviation row_positions := (Difflib.row_positions s).

Lemma same_indexed_sym i j : same_indexed s b2j i j = same_indexed s b2j j i.
Proof.
  unfold same_indexed. destruct (s !! i) as [x|], (s !! j) as [y|]; try done.
  destruct (decide (x = y)) as [->|Hne]; [done|].
  rewrite (bool_decide_eq_false_2 (x = y)) by done.
  by rewrite (bool_decide_eq_false_2 (y = x)) by congruence.
Qed.

Lemma same_indexed_diag i j :
  same_indexed s b2j i j = true → same_indexed s b2j i i = true.
Proof.
  unfold same_indexed. destruct (s !! i) as [x|], (s !! j) as [y|]; try done.
  intros [_ H]%andb_true_iff. rewrite H. by rewrite bool_decide_eq_true_2.
Qed.

Lemma run_sym : ∀ i j, run s b2j i j = run s b2j j i.
Proof.
  induction i as [|i IH]; intros [|j]; simpl.
  - done.
  - by rewrite (same_indexed_sym 0 (S j)).
  - by rewrite (same_indexed_sym (S i) 0).
  - by rewrite (same_indexed_sym (S i) (S j)), IH.
Qed.

Lemma run_diag : ∀ i j, run s b2j i j ≤ run s b2j i i.
Proof.
  induction i as [|i IH]; intros j; simpl.
  - destruct (same_indexed s b2j 0 j) eqn:Hj; [|lia].
    rewrite (same_indexed_diag _ _ Hj). destruct j; lia.
  - destruct (same_indexed s b2j (S i) j) eqn:Hj; [|lia].
    rewrite (same_indexed_diag _ _ Hj). destruct j as [|j]; [lia|].
    specialize (IH j). lia.
Qed.

Lemma run_le : ∀ i j, run s b2j i j ≤ S i ∧ run s b2j i j ≤ S j.
Proof.
  induction i as [|i IH]; intros j; simpl.
  - destruct (same_indexed s b2j 0 j); destruct j; lia.
  - destruct (same_indexed s b2j (S i) j); [|lia].
    destruct j as [|j]; [lia|]. specialize (IH j). lia.
Qed.

Lemma holds_row_next i j2len : holds_row i j2len → holds_row_before (S i) j2len.
Proof.
  intros H j. rewrite H. destruct i; simpl; by destruct (same_indexed _ _ _ _).
Qed.

Lemma inner_loop_value i j2len j :
  holds_row_before i j2len → same_indexed s b2j i j = true →
  j2lenget_pred j2len j + 1 = run s b2j i j.
Proof.
  intros Hprev Hsame. destruct i as [|r], j as [|j]; simpl; rewrite Hsame;
    rewrite ?Hprev; lia.
Qed.

Lemma inner_loop_app i j2len js1 : ∀ js2 newj2len best,
  (∀ j, j ∈ js1 → j < n) →
  inner_loop j2len 0 n i (js1 ++ js2) newj2len best
  = inner_loop j2len 0 n i js2
      (inner_loop j2len 0 n i js1 newj2len best).1
      (inner_loop j2len 0 n i js1 newj2len best).2.
Proof.
  induction js1 as [|j js1 IH]; intros js2 newj2len best Hlt; cbn [app inner_loop fst snd]; [done|].
  rewrite !(decide_False (P := j < 0)) by lia.
  rewrite !(decide_False (P := n ≤ j)) by (specialize (Hlt j ltac:(left)); lia).
  apply IH. intros; apply Hlt. by right.
Qed.

Lemma inner_loop_table i j2len : ∀ js newj2len best,
  holds_row_before i j2len → row_positions i js →
  ∀ j, (inner_loop j2len 0 n i js newj2len best).1 !! j
       = if decide (j ∈ js) then Some (run s b2j i j) else newj2len !! j.
Proof.
  induction js as [|j0 js IH]; intros newj2len best Hprev Hpos j; cbn [inner_loop fst snd].
  { rewrite decide_False by apply not_elem_of_nil. done. }
  destruct (Hpos j0 ltac:(left)) as [Hlt Hsame].
  rewrite (decide_False (P := j0 < 0)) by lia.
  rewrite (decide_False (P := n ≤ j0)) by lia.
  rewrite IH; [|done|intros ? ?; apply Hpos; by right].
  rewrite (inner_loop_value i j2len j0 Hprev Hsame).
  destruct (decide (j ∈ js)) as [Hin|Hin].
  - rewrite decide_True by (by right). done.
  - rewrite lookup_insert. case_decide as Hj.
    + subst j0. rewrite decide_True by (by left). done.
    + rewrite decide_False; [done|]. rewrite elem_of_cons. intros [?|?]; [congruence|done].
Qed.

(** Positions whose run does not beat the best leave the best alone. *)
Lemma inner_loop_keeps i j2len : ∀ js newj2len best,
  holds_row_before i j2len → row_positions i js →
  (∀ j, j ∈ js → run s b2j i j ≤ size best) →
  (inner_loop j2len 0 n i js newj2len best).2 = best.
Proof.
  induction js as [|j0 js IH]; intros newj2len best Hprev Hpos Hle; cbn [inner_loop fst snd]; [done|].
  destruct (Hpos j0 ltac:(left)) as [Hlt Hsame].
  rewrite (decide_False (P := j0 < 0)) by lia.
  rewrite (decide_False (P := n ≤ j0)) by lia.
  rewrite (inner_loop_value i j2len j0 Hprev Hsame).
  rewrite (decide_False (P := size best < _)) by (specialize (Hle j0 ltac:(left)); lia).
  apply IH; [done| |]; intros ? ?; [apply Hpos|apply Hle]; by right.
Qed.

Lemma occurrences_app elt (l1 l2 : list ascii) : ∀ i0 : nat,
  occurrences elt i0 (l1 ++ l2)
  = occurrences elt i0 l1 ++ occurrences elt (i0 + length l1) l2.
Proof.
  induction l1 as [|x l1 IH]; intros i0; simpl.
  - by rewrite Nat.add_0_r.
  - rewrite IH. replace (S i0 + length l1) with (i0 + S (length l1)) by lia.
    by case_decide.
Qed.

(** The positions of [s[i]] in [s]: those before [i], then [i], then
    those after. *)
Lemma occurrences_split i elt :
  s !! i = Some elt →
  occurrences elt 0 s
  = occurrences elt 0 (take i s) ++ i :: occurrences elt (S i) (drop (S i) s).
Proof.
  intros Hi. pose proof (lookup_lt_Some _ _ _ Hi) as Hlt.
  rewrite <- (take_drop_middle s i elt Hi) at 1.
  rewrite occurrences_app. simpl. rewrite decide_True by done.
  rewrite length_take. by replace (i `min` n) with i by lia.
Qed.

(** One row of the main loop, when a sequence is matched against
    itself: the best block stays on the diagonal and dominates the
    row. *)
Lemma row_identical i j2len best :
  i < n →
  holds_row_before i j2len →
  diagonal best →
  (∀ r c, r < i → run s b2j r c ≤ size best) →
  let st := inner_loop j2len 0 n i (positions s b2j i) ∅ best in
  holds_row i st.1 ∧ diagonal st.2 ∧ (∀ r c, r < S i → run s b2j r c ≤ size st.2).
Proof.
  intros Hi Hprev Hdiag Hdom.
  destruct (s !! i) as [elt|] eqn:Helt; [|apply lookup_ge_None in Helt; lia].
  unfold positions. rewrite Helt. cbn [mbind option_bind].
  destruct (b2j !! elt) as [js|] eqn:Hjs; cbn [default from_option id].
  2:{ assert (∀ j, same_indexed s b2j i j = false) as Hno.
      { intros j. unfold same_indexed. rewrite Helt. destruct (s !! j); [|done].
        rewrite (bool_decide_eq_false_2 (is_Some _)); [apply andb_false_r|].
        rewrite Hjs. by intros [? ?]. }
      cbn [inner_loop fst snd]. split; [|split; [done|]].
      - intros j. by rewrite Hno, lookup_empty.
      - intros r c Hr. destruct (decide (r = i)) as [->|]; [|apply Hdom; lia].
        destruct i; simpl; rewrite Hno; lia. }
  pose proof (chain_b_lookup _ _ _ Hjs) as ->.
  assert (∀ j, j ∈ occurrences elt 0 s ↔ same_indexed s b2j i j = true) as Hocc.
  { intros j. rewrite occurrences_elem, Nat.sub_0_r. unfold same_indexed.
    rewrite Helt. split.
    - intros [_ ->]. rewrite bool_decide_eq_true_2 by done.
      rewrite bool_decide_eq_true_2; [done|]. by rewrite Hjs.
    - destruct (s !! j) as [y|]; [|done].
      intros [->%bool_decide_eq_true _]%andb_true_iff. split; [lia|done]. }
  assert (row_positions i (occurrences elt 0 s)) as Hpos.
  { intros j Hj. split; [|by apply Hocc].
    apply occurrences_elem in Hj as [_ Hj]. rewrite Nat.sub_0_r in Hj.
    by eapply lookup_lt_Some. }
  split.
  { intros j. rewrite inner_loop_table by done. rewrite lookup_empty.
    destruct (same_indexed s b2j i j) eqn:Hsame.
    - rewrite decide_True; [done|]. by apply Hocc.
    - rewrite decide_False; [done|]. rewrite Hocc. congruence. }
  assert (same_indexed s b2j i i = true) as Hii.
  { apply Hocc. apply occurrences_elem. rewrite Nat.sub_0_r. split; [lia|done]. }
  revert Hpos. rewrite (occurrences_split i elt Helt). intros Hpos.
  set (before := occurrences elt 0 (take i s)) in *.
  set (after := occurrences elt (S i) (drop (S i) s)) in *.
  assert (∀ j, j ∈ before → j < i) as Hbefore.
  { intros j [_ Hj]%occurrences_elem. apply lookup_lt_Some in Hj.
    rewrite length_take in Hj. lia. }
  assert (∀ j, j ∈ after → i < j) as Hafter.
  { intros j [Hj _]%occurrences_elem. lia. }
  assert (row_positions i before) as Hpos1
    by (intros j Hj; apply Hpos; rewrite elem_of_app; auto).
  assert (row_positions i after) as Hpos3
    by (intros j Hj; apply Hpos; rewrite elem_of_app, elem_of_cons; auto).
  rewrite inner_loop_app by (intros j Hj; by apply Hpos1).
  rewrite (inner_loop_keeps i j2len before ∅ best Hprev Hpos1).
  2:{ intros j Hj. rewrite run_sym. apply Hdom. by apply Hbefore. }
  cbn [inner_loop]. rewrite (decide_False (P := i < 0)) by lia.
  rewrite (decide_False (P := n ≤ i)) by lia.
  rewrite (inner_loop_value i j2len i Hprev Hii).
  set (best' := if decide (size best < run s b2j i i)
                then (i + 1 - run s b2j i i, i + 1 - run s b2j i i, run s b2j i i)
                else best).
  assert (diagonal best' ∧ run s b2j i i ≤ size best' ∧ size best ≤ size best')
    as (Hdiag' & Hrun' & Hmono).
  { subst best'. case_decide; unfold diagonal, size in *; simpl; split; try done; lia. }
  rewrite (inner_loop_keeps i j2len after _ best' Hprev Hpos3).
  2:{ intros j Hj. pose proof (run_diag i j). lia. }
  split; [done|]. intros r c Hr. destruct (decide (r = i)) as [->|Hne].
  - pose proof (run_diag i c). lia.
  - specialize (Hdom r c ltac:(lia)). lia.
Qed.

Lemma main_loop_identical : ∀ m i j2len best,
  i + m = n →
  holds_row_before i j2len →
  diagonal best →
  (∀ r c, r < i → run s b2j r c ≤ size best) →
  diagonal
    (foldl (λ '(j2len, best) i,
              inner_loop j2len 0 n i (positions s b2j i) ∅ best)
           (j2len, best) (seq i m)).2.
Proof.
  induction m as [|m IH]; intros i j2len best Hn Hprev Hdiag Hdom; simpl; [done|].
  pose proof (row_identical i j2len best ltac:(lia) Hprev Hdiag Hdom) as Hrow.
  destruct (inner_loop j2len 0 n i (positions s b2j i) ∅ best) as [newj2len best'].
  destruct Hrow as (Hrow & Hdiag' & Hdom').
  apply IH; [lia| |done|done]. by apply holds_row_next.
Qed.

Lemma same_element_identical junk i :
  i < n → same_element s s junk i i = negb junk.
Proof.
  intros Hi. unfold same_element.
  destruct (s !! i) as [x|] eqn:Hx; [|apply lookup_ge_None in Hx; lia].
  rewrite (bool_decide_eq_true_2 (x = x)) by done. rewrite andb_true_r.
  unfold isbjunk, bjunk. rewrite (bool_decide_eq_false_2 (x ∈ ∅)) by apply not_elem_of_empty.
  by destruct junk.
Qed.

Lemma extend_left_identical : ∀ d k,
  d ≤ n → extend_left s s false 0 0 d d k = (0, 0, k + d).
Proof.
  induction d as [|d IH]; intros k Hd; cbn [extend_left].
  - by rewrite Nat.add_0_r.
  - rewrite decide_True by lia. rewrite same_element_identical by lia.
    cbn [negb]. rewrite IH by lia. f_equal. lia.
Qed.

Lemma extend_right_identical : ∀ room k,
  k + room = n → extend_right s s false n n 0 0 k room = (0, 0, n).
Proof.
  induction room as [|room IH]; intros k Hk; cbn [extend_right].
  - by rewrite Nat.add_0_r in Hk; subst.
  - rewrite decide_True by lia. rewrite Nat.add_0_l.
    rewrite same_element_identical by lia. cbn [negb]. apply IH. lia.
Qed.

Lemma extend_junk_identical :
  extend s s true 0 n 0 n (0, 0, n) = (0, 0, n).
Proof.
  unfold extend. cbn [extend_left]. rewrite Nat.add_0_l, Nat.sub_diag. done.
Qed.

(** Matching a sequence against itself finds the whole sequence. *)
Lemma find_longest_match_identical :
  find_longest_match s s b2j 0 n 0 n = (0, 0, n).
Proof.
  unfold find_longest_match.
  pose proof (longest_junk_free_sound s s b2j (chain_b_sound s) 0 n 0 n
                ltac:(simpl; lia)) as Hv.
  assert (diagonal (longest_junk_free s b2j 0 n 0 n)) as Hdiag.
  { unfold longest_junk_free. rewrite Nat.sub_0_r.
    apply main_loop_identical; try done. intros r c Hr. lia. }
  destruct (longest_junk_free s b2j 0 n 0 n) as [[i j] k].
  unfold diagonal in Hdiag. simpl in Hdiag. subst j.
  destruct Hv as (_ & Hik & _).
  unfold extend at 2. rewrite extend_left_identical by lia.
  rewrite extend_right_identical by lia.
  apply extend_junk_identical.
Qed.

Lemma queue_loop_nil fuel (a b : list ascii) (index : gmap ascii (list nat)) blocks :
  queue_loop fuel a b index [] blocks = Some blocks.
Proof. by destruct fuel. Qed.

Lemma ratio_identical : ∃ q, ratio s s = Some q ∧ (q == 1)%Q.
Proof.
  unfold ratio, get_matching_blocks.
  replace (2 * n + 1) with (S (2 * n)) by lia. cbn [queue_loop].
  unfold queue_body. rewrite find_longest_match_identical.
  destruct (decide (n ≠ 0)) as [Hn|Hn].
  - rewrite decide_False by lia. rewrite decide_False by lia.
    rewrite queue_loop_nil. cbn [mbind option_bind]. eexists. split; [done|].
    rewrite collapse_sum, sort_sum. cbn [app fmap list_fmap sum_list_with size snd id].
    apply calculate_ratio_one; lia.
  - rewrite queue_loop_nil. cbn [mbind option_bind]. eexists. split; [done|].
    rewrite collapse_sum, sort_sum. cbn [fmap list_fmap sum_list_with].
    unfold calculate_ratio. rewrite decide_False by lia. done.
Qed.

End DifflibIdentical.

(** * Properties of the resolver *)

Section ResolverFacts.

Implicit Types (tag s tag_lower ref_tag : string) (p_tags : list string)
  (items equipment_tags instrument_tags handvalve_tags : dict)
  (best : match_result) (threshold : Q).

Lemma similarity_total a b : ∃ q, similarity a b = Some q ∧ (0 <= q)%Q ∧ (q <= 1)%Q.
Proof.
  unfold similarity. destruct (ratio_total (chars a) (chars b)) as [q Hq].
  exists q. split; [done|]. by apply (ratio_range (chars a) (chars b)).
Qed.

Lemma matches_pipeline_tag_spec tag p_tags :
  matches_pipeline_tag tag p_tags = true ↔ tag ∈ p_tags.
Proof.
  induction p_tags as [|p rest IH]; cbn [matches_pipeline_tag].
  - rewrite elem_of_nil. split; [discriminate|done].
  - rewrite elem_of_cons. case_decide as Hp; [split; auto|].
    rewrite IH. split; [auto|]. intros [?|?]; [congruence|done].
Qed.

(** The loop over one reference dictionary keeps the first record with
    the highest score seen so far. *)
Lemma scan_tag_dict_spec tag_lower cat_name items : ∀ best,
  ∃ best',
    scan_tag_dict tag_lower cat_name items best = Some best' ∧
    (match_score best <= match_score best')%Q ∧
    (∀ ref_tag, ref_tag ∈ items.*1 →
       ∃ q, similarity tag_lower ref_tag = Some q ∧ (q <= match_score best')%Q) ∧
    (best' = best ∨
     ∃ ref_tag details, (ref_tag, details) ∈ items ∧
       similarity tag_lower ref_tag = Some (match_score best') ∧
       best' = mkMatch cat_name details (match_score best')).
Proof.
  induction items as [|[ref_tag details] rest IH]; intros best; simpl.
  { exists best. split; [done|]. split; [apply Qle_refl|]. split; [|by left].
    by intros ? ?%elem_of_nil. }
  destruct (similarity_total tag_lower ref_tag) as (score & Hscore & _).
  rewrite Hscore. simpl.
  destruct (Qlt_le_dec (match_score best) score) as [Hlt|Hle].
  - destruct (IH (mkMatch cat_name details score)) as (best' & Hrun & Hmono & Hall & Hwho).
    simpl in Hmono. exists best'. split; [done|]. split.
    { eapply Qle_trans; [apply Qlt_le_weak, Hlt|done]. }
    split.
    + intros r [->|Hr]%elem_of_cons; [eauto|by apply Hall].
    + right. destruct Hwho as [->|(r & d & Hin & Hsim & ->)].
      * exists ref_tag, details. split; [left|done].
      * exists r, d. split; [by right|done].
  - destruct (IH best) as (best' & Hrun & Hmono & Hall & Hwho).
    exists best'. split; [done|]. split; [done|]. split.
    + intros r [->|Hr]%elem_of_cons; [|by apply Hall].
      exists score. split; [done|]. by eapply Qle_trans.
    + destruct Hwho as [->|(r & d & Hin & Hsim & ->)]; [by left|right].
      exists r, d. split; [by right|done].
Qed.

(** The three loops together. *)
Lemma scan_tables_spec tag_lower equipment_tags instrument_tags handvalve_tags :
  ∃ best1 best2 best,
    scan_tag_dict tag_lower Equipment equipment_tags (mkMatch Node VNone 0) = Some best1 ∧
    scan_tag_dict tag_lower Instrumentation instrument_tags best1 = Some best2 ∧
    scan_tag_dict tag_lower Handvalve handvalve_tags best2 = Some best ∧
    best_score tag_lower
      (equipment_tags.*1 ++ instrument_tags.*1 ++ handvalve_tags.*1)
      (match_score best).
Proof.
  destruct (scan_tag_dict_spec tag_lower Equipment equipment_tags (mkMatch Node VNone 0))
    as (best1 & Hrun1 & Hmono1 & Hall1 & Hwho1).
  destruct (scan_tag_dict_spec tag_lower Instrumentation instrument_tags best1)
    as (best2 & Hrun2 & Hmono2 & Hall2 & Hwho2).
  destruct (scan_tag_dict_spec tag_lower Handvalve handvalve_tags best2)
    as (best & Hrun3 & Hmono3 & Hall3 & Hwho3).
  exists best1, best2, best. split; [done|]. split; [done|]. split; [done|].
  simpl in Hmono1. split; [|split].
  - destruct Hwho3 as [->|(r & d & Hin & Hsim & _)].
    2:{ right. exists r. split; [|done]. rewrite !elem_of_app. right. right.
        apply list_elem_of_fmap. by exists (r, d). }
    destruct Hwho2 as [->|(r & d & Hin & Hsim & _)].
    2:{ right. exists r. split; [|done]. rewrite !elem_of_app. right. left.
        apply list_elem_of_fmap. by exists (r, d). }
    destruct Hwho1 as [->|(r & d & Hin & Hsim & _)]; [by left|].
    right. exists r. split; [|done]. rewrite !elem_of_app. left.
    apply list_elem_of_fmap. by exists (r, d).
  - eapply Qle_trans; [exact Hmono1|]. eapply Qle_trans; [exact Hmono2|done].
  - intros r [Hr|[Hr|Hr]%elem_of_app]%elem_of_app.
    + destruct (Hall1 r Hr) as (q & Hq & Hle). exists q. split; [done|].
      eapply Qle_trans; [exact Hle|]. eapply Qle_trans; [exact Hmono2|done].
    + destruct (Hall2 r Hr) as (q & Hq & Hle). exists q. split; [done|].
      eapply Qle_trans; [exact Hle|done].
    + by apply Hall3.
Qed.

Lemma find_best_match_blank p_tags equipment_tags instrument_tags handvalve_tags
      threshold (tag : value) :
  blank tag →
  find_best_match p_tags equipment_tags instrument_tags handvalve_tags threshold tag
  = Some (mkMatch Node VNone 0).
Proof.
  destruct tag; try done. simpl. intros Hb. by rewrite bool_decide_eq_true_2.
Qed.

Lemma find_best_match_total p_tags equipment_tags instrument_tags handvalve_tags
      threshold (tag : value) :
  ∃ m, find_best_match p_tags equipment_tags instrument_tags handvalve_tags
         threshold tag = Some m.
Proof.
  destruct tag; simpl; eauto.
  case_bool_decide; [eauto|]. destruct (matches_pipeline_tag _ _); [eauto|].
  destruct (scan_tables_spec (strip (lower s)) equipment_tags instrument_tags
              handvalve_tags) as (b1 & b2 & b3 & -> & H2 & H3 & _).
  simpl. rewrite H2. simpl. rewrite H3. simpl.
  destruct (Qlt_le_dec _ _); eauto.
Qed.

End ResolverFacts.

(** ** The similarity ratio *)

(** C5, as the claim states it, fails: the ratio depends on the order of
    its arguments. *)
Lemma similarity_not_symmetric :
  similarity "tide" "diet" = Some (2 # 8)%Q ∧
  similarity "diet" "tide" = Some (4 # 8)%Q ∧
  ¬ (2 # 8 == 4 # 8)%Q ∧
  similarity "tide" "diet" ≠ similarity "diet" "tide".
Proof.
  split; [by vm_compute|]. split; [by vm_compute|]. split; [by vm_compute|].
  vm_compute. discriminate.
Qed.

(** C5, amended. [similarity] always returns a ratio, the ratio lies
    between 0 and 1, and it is 1 exactly when the two strings are the same.
    Symmetry is not among its properties. *)
Theorem similarity_range_and_identity (a b : string) :
  ∃ q, similarity a b = Some q ∧
       (0 <= q)%Q ∧ (q <= 1)%Q ∧
       ((q == 1)%Q ↔ a = b).
Proof.
  destruct (similarity_total a b) as (q & Hq & H0 & H1).
  exists q. split; [done|]. split; [done|]. split; [done|].
  unfold similarity in Hq. split.
  - intros Hone. pose proof (ratio_one_eq _ _ _ Hq Hone) as Heq.
    unfold chars in Heq.
    rewrite <- (string_of_list_ascii_of_string a), <- (string_of_list_ascii_of_string b).
    by rewrite Heq.
  - intros <-. destruct (ratio_identical (chars a)) as (q' & Hq' & Hone).
    rewrite Hq in Hq'. by injection Hq' as <-.
Qed.

(** ** The resolver *)

(** C2, as the claim states it, fails for a pipeline tag that is blank:
    the blank test comes first. *)
Lemma blank_pipeline_tag_is_node :
  " " ∈ [" "] ∧
  find_best_match [" "] [] [] [] default_threshold (VStr " ")
  = Some (mkMatch Node VNone 0) ∧
  find_best_match [" "] [] [] [] default_threshold (VStr " ")
  ≠ Some (mkMatch Pipeline VNone 1).
Proof. split; [left|]. split; [by vm_compute|]. vm_compute. discriminate. Qed.

(** C2, amended. A tag that is not blank and equals one of the keys of
    the flows mapping resolves to category [pipeline] with no details and
    score 1, whatever the reference tables and the threshold are: no
    similarity enters the result. *)
Theorem exact_pipeline_tag_wins
  (set_order : list string → list string) (flow_data : dict)
  (equipment_tags instrument_tags handvalve_tags : dict) (threshold : Q)
  (tag : string) :
  iterates_elements set_order →
  tag ∈ flow_data.*1 →
  strip tag ≠ "" →
  find_best_match (set_order flow_data.*1) equipment_tags instrument_tags
                  handvalve_tags threshold (VStr tag)
  = Some (mkMatch Pipeline VNone 1).
Proof.
  intros Hset Hin Hblank. simpl.
  rewrite bool_decide_eq_false_2 by done.
  assert (matches_pipeline_tag tag (set_order flow_data.*1) = true) as ->; [|done].
  apply matches_pipeline_tag_spec. by apply Hset.
Qed.

Lemma exact_pipeline_tag_wins_witness :
  let flow_data : dict := [("P-100", VDict [])] in
  let equipment_tags : dict := [("p-100", VDict [("Tag", VStr "P-100")])] in
  iterates_elements reverse ∧
  "P-100" ∈ flow_data.*1 ∧
  strip "P-100" ≠ "" ∧
  similarity "p-100" "p-100" = Some (10 # 10)%Q ∧
  find_best_match (reverse flow_data.*1) equipment_tags [] [] default_threshold
                  (VStr "P-100")
  = Some (mkMatch Pipeline VNone 1).
Proof.
  intros flow_data equipment_tags.
  assert (iterates_elements reverse) as Hset by (intros keys x; apply elem_of_reverse).
  assert ("P-100" ∈ flow_data.*1) as Hin by (simpl; left).
  assert (strip "P-100" ≠ "") as Hblank by (vm_compute; discriminate).
  split; [exact Hset|]. split; [exact Hin|]. split; [exact Hblank|].
  split; [vm_compute; reflexivity|].
  exact (exact_pipeline_tag_wins reverse flow_data equipment_tags [] []
           default_threshold "P-100" Hset Hin Hblank).
Defined.

(** C4, as the claim states it, fails for a tag that is a pipeline tag: the
    best similarity of [P-100] to the reference tags is 2/7, below the
    threshold, yet the tag is classified as a pipeline with score 1, not as
    a node with score 2/7. *)
Lemma pipeline_tag_below_threshold_is_not_node :
  best_score (strip (lower "P-100")) (["p9"] ++ [] ++ []) (2 # 7) ∧
  (2 # 7 < default_threshold)%Q ∧
  find_best_match ["P-100"] [("p9", VDict [("Tag", VStr "P9")])] [] []
                  default_threshold (VStr "P-100")
  = Some (mkMatch Pipeline VNone 1) ∧
  find_best_match ["P-100"] [("p9", VDict [("Tag", VStr "P9")])] [] []
                  default_threshold (VStr "P-100")
  ≠ Some (mkMatch Node VNone (2 # 7)).
Proof.
  split; [|split; [done|split; [by vm_compute|vm_compute; discriminate]]].
  split; [|split; [done|]].
  - right. exists "p9". split; [left|by vm_compute].
  - intros ref_tag Href. apply list_elem_of_singleton in Href as ->.
    exists (2 # 7)%Q. split; [by vm_compute|apply Qle_refl].
Qed.

(** C4, amended. A blank or non-string tag resolves to [node] with no
    details and score 0. A tag that is neither blank nor one of the pipeline
    tags has a best similarity score over the three reference tables, and
    when that score is strictly below the threshold the tag resolves to
    [node] with no details and that very score. *)
Theorem below_threshold_is_node_with_score
  (all_pipeline_tags : list string)
  (equipment_tags instrument_tags handvalve_tags : dict) (threshold : Q)
  (tag : value) :
  (blank tag →
   find_best_match all_pipeline_tags equipment_tags instrument_tags handvalve_tags
                   threshold tag
   = Some (mkMatch Node VNone 0)) ∧
  (∀ s, tag = VStr s → strip s ≠ "" → s ∉ all_pipeline_tags →
     ∃ best,
       best_score (strip (lower s))
                  (equipment_tags.*1 ++ instrument_tags.*1 ++ handvalve_tags.*1) best ∧
       ((best < threshold)%Q →
        find_best_match all_pipeline_tags equipment_tags instrument_tags
                        handvalve_tags threshold tag
        = Some (mkMatch Node VNone best))).
Proof.
  split; [apply find_best_match_blank|].
  intros s -> Hblank Hnot.
  destruct (scan_tables_spec (strip (lower s)) equipment_tags instrument_tags
              handvalve_tags) as (b1 & b2 & best & H1 & H2 & H3 & Hbest).
  exists (match_score best). split; [done|]. intros Hlt. simpl.
  rewrite bool_decide_eq_false_2 by done.
  destruct (matches_pipeline_tag s all_pipeline_tags) eqn:Hm.
  { by apply matches_pipeline_tag_spec in Hm. }
  rewrite H1. simpl. rewrite H2. simpl. rewrite H3. simpl.
  destruct (Qlt_le_dec (match_score best) threshold) as [_|Hle]; [done|].
  exfalso. by apply (Qlt_not_le _ _ Hlt).
Qed.

Lemma below_threshold_is_node_with_score_witness :
  let equipment_tags : dict := [("tk01", VDict [("Tag", VStr "TK01")])] in
  blank (VStr "  ") ∧
  find_best_match ["P-100"] equipment_tags [] [] default_threshold (VStr "  ")
  = Some (mkMatch Node VNone 0) ∧
  strip "T9" ≠ "" ∧ ("T9" ∉ ["P-100"]) ∧
  ∃ best,
    best_score (strip (lower "T9")) (equipment_tags.*1 ++ [] ++ []) best ∧
    ((best < default_threshold)%Q →
     find_best_match ["P-100"] equipment_tags [] [] default_threshold (VStr "T9")
     = Some (mkMatch Node VNone best)).
Proof.
  intros equipment_tags.
  assert (blank (VStr "  ")) as Hb by (vm_compute; reflexivity).
  assert (strip "T9" ≠ "") as Hne by (vm_compute; discriminate).
  assert ("T9" ∉ ["P-100"]) as Hnot.
  { intros [H|H]%elem_of_cons; [discriminate H|by apply elem_of_nil in H]. }
  split; [exact Hb|]. split.
  - exact (proj1 (below_threshold_is_node_with_score ["P-100"] equipment_tags [] []
                    default_threshold (VStr "  ")) Hb).
  - split; [exact Hne|]. split; [exact Hnot|].
    exact (proj2 (below_threshold_is_node_with_score ["P-100"] equipment_tags [] []
                    default_threshold (VStr "T9")) "T9" eq_refl Hne Hnot).
Defined.


Example resolver_examples :
  let equipment_tags : dict := [("tk01", VDict [("Tag", VStr "TK01")])] in
  find_best_match ["P-100"] equipment_tags [] [] default_threshold (VStr "RELEASE")
  = Some (mkMatch Node VNone 0) ∧
  find_best_match ["P-100"] equipment_tags [] [] default_threshold (VStr "T9")
  = Some (mkMatch Node VNone (2 # 6)) ∧
  find_best_match ["P-100"] equipment_tags [] [] default_threshold (VStr "TK-02")
  = Some (mkMatch Equipment (VDict [("Tag", VStr "TK01")]) (6 # 9)).
Proof. by vm_compute. Qed.

(** * Properties of the classifier *)

Section DictFacts.

Context {V : Type}.
Implicit Types (d : list (string * V)) (k : string) (v : V).

Lemma dict_lookup_set_eq d k v : dict_lookup (dict_set d k v) k = Some v.
Proof.
  induction d as [|[k' v'] d IH]; simpl.
  - by rewrite decide_True.
  - case_decide as Hk; simpl.
    + by rewrite decide_True.
    + by rewrite decide_False.
Qed.

Lemma dict_lookup_set_ne d k k' v :
  k ≠ k' → dict_lookup (dict_set d k v) k' = dict_lookup d k'.
Proof.
  intros Hne. induction d as [|[k0 v0] d IH]; simpl.
  - by rewrite decide_False.
  - case_decide as Hk; simpl; [|by rewrite IH].
    subst k0. by rewrite !decide_False.
Qed.

Lemma dict_lookup_None d k : dict_lookup d k = None ↔ k ∉ d.*1.
Proof.
  induction d as [|[k0 v0] d IH]; simpl.
  - split; [intros _; apply not_elem_of_nil|done].
  - rewrite not_elem_of_cons. case_decide as Hk.
    + split; [done|]. intros [? _]. congruence.
    + rewrite IH. split; [intros; split; [congruence|done]|by intros [_ ?]].
Qed.

Lemma dict_lookup_elem d k v : NoDup d.*1 → (k, v) ∈ d → dict_lookup d k = Some v.
Proof.
  induction d as [|[k0 v0] d IH]; simpl; intros Hnd Hin.
  - by apply elem_of_nil in Hin.
  - apply NoDup_cons in Hnd as [Hk0 Hnd].
    apply elem_of_cons in Hin as [[= -> ->]|Hin]; [by rewrite decide_True|].
    rewrite decide_False; [by apply IH|].
    intros ->. apply Hk0. apply list_elem_of_fmap. by exists (k, v).
Qed.

Lemma dict_lookup_Some_elem d k v : dict_lookup d k = Some v → (k, v) ∈ d.
Proof.
  induction d as [|[k0 v0] d IH]; simpl; [done|].
  case_decide as Hk; [intros [= ->]; subst; left|right; auto].
Qed.

Lemma dict_set_keys_new d k v :
  k ∉ d.*1 → (dict_set d k v).*1 = d.*1 ++ [k].
Proof.
  induction d as [|[k0 v0] d IH]; cbn [dict_set]; [done|].
  rewrite !fmap_cons. cbn [fst].
  intros [Hne Hk]%not_elem_of_cons. rewrite decide_False by done.
  rewrite fmap_cons, IH by done. done.
Qed.

Lemma dict_set_keys_old d k v :
  k ∈ d.*1 → (dict_set d k v).*1 = d.*1.
Proof.
  induction d as [|[k0 v0] d IH]; cbn [dict_set]; [by intros ?%elem_of_nil|].
  rewrite !fmap_cons. cbn [fst].
  case_decide as Hk; [done|]. intros [?|Hin]%elem_of_cons; [congruence|].
  rewrite fmap_cons, IH by done. done.
Qed.

End DictFacts.

Section ClassifierFacts.

Variable all_pipeline_tags : list string.
Variables equipment_tags instrument_tags handvalve_tags : dict.
Variable threshold : Q.

#[local] Abbreviation find_best_match' :=
  (find_best_match all_pipeline_tags equipment_tags instrument_tags
                   handvalve_tags threshold).
#[local] Abbreviation classify_tag' :=
  (classify_tag all_pipeline_tags equipment_tags instrument_tags
                handvalve_tags threshold).
#[local] Abbreviation enrich_key' :=
  (enrich_key all_pipeline_tags equipment_tags instrument_tags
              handvalve_tags threshold).
#[local] Abbreviation enrich_complete_flow' :=
  (enrich_complete_flow all_pipeline_tags equipment_tags instrument_tags
                        handvalve_tags threshold).
#[local] Abbreviation enrich_all_connections' :=
  (enrich_all_connections all_pipeline_tags equipment_tags instrument_tags
                          handvalve_tags threshold).
#[local] Abbreviation enrich_pipe' :=
  (enrich_pipe all_pipeline_tags equipment_tags instrument_tags
               handvalve_tags threshold).
#[local] Abbreviation enrich_flows' :=
  (enrich_flows all_pipeline_tags equipment_tags instrument_tags
                handvalve_tags threshold).

Implicit Types (tag v new_pipe : value) (d items acc : dict) (key : string).

Lemma classify_tag_spec tag :
  ∃ m, classify_tag' tag = Some (classified tag m).
Proof.
  unfold classify_tag. destruct (find_best_match_total all_pipeline_tags
    equipment_tags instrument_tags handvalve_tags threshold tag) as [m ->].
  by exists m.
Qed.

(** Enriching the labels of a flow keeps each label, in place. *)
Lemma classify_flow_spec (labels : list value) :
  ∃ enriched,
    mapM classify_tag' labels = Some enriched ∧
    length enriched = length labels ∧
    ∀ i label, labels !! i = Some label →
      ∃ m, enriched !! i = Some (classified label m).
Proof.
  induction labels as [|label labels (enriched & Hrun & Hlen & Hall)].
  - exists []. split; [done|]. split; [done|]. intros i label. by rewrite lookup_nil.
  - destruct (classify_tag_spec label) as [m Hm].
    exists (classified label m :: enriched).
    split; [|split].
    + cbn [mapM]. rewrite Hm, Hrun. done.
    + simpl. by rewrite Hlen.
    + intros [|i] l; simpl; [intros [= <-]; eauto|apply Hall].
Qed.

Lemma enrich_key_dict key d new_pipe :
  enrich_key' key (VDict d) = Some new_pipe →
  ∃ d', new_pipe = VDict d' ∧ d'.*1 = d.*1 ∧
        ∀ k, k ≠ key → dict_lookup d' k = dict_lookup d k.
Proof.
  unfold enrich_key. cbn [py_in getitem setitem].
  case_bool_decide as Hin; [|intros [= <-]; eauto].
  destruct Hin as [tag Htag]. rewrite Htag. cbn [mbind option_bind].
  destruct (truthy tag); [|intros [= <-]; eauto].
  destruct (classify_tag_spec tag) as [m ->]. cbn [mbind option_bind].
  intros [= <-]. eexists. split; [done|]. split.
  - apply dict_set_keys_old. apply dict_lookup_Some_elem in Htag.
    apply list_elem_of_fmap. by exists (key, tag).
  - intros k Hk. by apply dict_lookup_set_ne.
Qed.

Lemma enrich_all_connections_dict d new_pipe :
  enrich_all_connections' (VDict d) = Some new_pipe →
  ∃ d', new_pipe = VDict d' ∧ d'.*1 = d.*1 ∧
        ∀ k, k ≠ "all_connections" → dict_lookup d' k = dict_lookup d k.
Proof.
  unfold enrich_all_connections. cbn [py_in getitem setitem].
  case_bool_decide as Hin; [|intros [= <-]; eauto].
  destruct Hin as [conns Hconns]. rewrite Hconns. cbn [mbind option_bind].
  destruct conns; try (intros [= <-]; eauto).
  destruct (mapM _ items) as [enriched|]; [|done]. cbn [mbind option_bind].
  intros [= <-]. eexists. split; [done|]. split.
  - apply dict_set_keys_old. apply dict_lookup_Some_elem in Hconns.
    apply list_elem_of_fmap. by eexists (_, _).
  - intros k Hk. by apply dict_lookup_set_ne.
Qed.

Lemma enrich_complete_flow_dict d (labels : list value) new_pipe :
  dict_lookup d "complete_flow" = Some (VList labels) →
  enrich_complete_flow' (VDict d) = Some new_pipe →
  ∃ enriched,
    mapM classify_tag' labels = Some enriched ∧
    new_pipe = VDict (dict_set d "complete_flow" (VList enriched)).
Proof.
  intros Hflow. unfold enrich_complete_flow. cbn [py_in getitem setitem].
  rewrite bool_decide_eq_true_2 by (by rewrite Hflow).
  rewrite Hflow. cbn [mbind option_bind].
  destruct (classify_flow_spec labels) as (enriched & -> & _).
  cbn [mbind option_bind]. intros [= <-]. eauto.
Qed.

(** The flow of an enriched pipeline entry is the original flow, label
    by label. *)
Lemma enrich_pipe_flow d (labels : list value) new_pipe :
  dict_lookup d "complete_flow" = Some (VList labels) →
  enrich_pipe' (VDict d) = Some new_pipe →
  ∃ d' enriched,
    new_pipe = VDict d' ∧ d'.*1 = d.*1 ∧
    dict_lookup d' "complete_flow" = Some (VList enriched) ∧
    length enriched = length labels ∧
    ∀ i label, labels !! i = Some label →
      ∃ m, enriched !! i = Some (classified label m).
Proof.
  intros Hflow. unfold enrich_pipe.
  destruct (enrich_key' "start" (VDict d)) as [p1|] eqn:H1; [|done].
  apply enrich_key_dict in H1 as (d1 & -> & Hk1 & Hd1). cbn [mbind option_bind].
  destruct (enrich_key' "end" (VDict d1)) as [p2|] eqn:H2; [|done].
  apply enrich_key_dict in H2 as (d2 & -> & Hk2 & Hd2). cbn [mbind option_bind].
  destruct (enrich_complete_flow' (VDict d2)) as [p3|] eqn:H3; [|done].
  assert (dict_lookup d2 "complete_flow" = Some (VList labels)) as Hflow2.
  { rewrite Hd2, Hd1 by done. done. }
  apply (enrich_complete_flow_dict _ labels) in H3 as (enriched & Hrun & ->); [|done].
  cbn [mbind option_bind]. intros H4.
  apply enrich_all_connections_dict in H4 as (d4 & -> & Hk4 & Hd4).
  destruct (classify_flow_spec labels) as (enriched' & Hrun' & Hlen & Hall).
  rewrite Hrun in Hrun'. injection Hrun' as <-.
  exists d4, enriched. split; [done|]. split.
  - rewrite Hk4, dict_set_keys_old, Hk2, Hk1; [done|].
    apply dict_lookup_Some_elem in Hflow2.
    apply list_elem_of_fmap. by eexists (_, _).
  - split; [|done]. rewrite Hd4 by done. apply dict_lookup_set_eq.
Qed.

(** The loop over the pipelines files every enriched entry under its own
    key, in the order of the input. *)
Lemma enrich_flows_spec items : ∀ acc out,
  enrich_flows' items acc = Some out →
  NoDup (acc.*1 ++ items.*1) →
  out.*1 = acc.*1 ++ items.*1 ∧
  (∀ k v, dict_lookup acc k = Some v → dict_lookup out k = Some v) ∧
  (∀ k pipe_info, (k, pipe_info) ∈ items →
     ∃ new_pipe, enrich_pipe' pipe_info = Some new_pipe ∧
                 dict_lookup out k = Some new_pipe).
Proof.
  induction items as [|[pipe_tag pipe_info] items IH]; intros acc out; simpl.
  - intros [= <-] _. rewrite app_nil_r. split; [done|]. split; [done|].
    by intros ? ? ?%elem_of_nil.
  - destruct (enrich_pipe' pipe_info) as [new_pipe|] eqn:Hpipe; [|done].
    cbn [mbind option_bind]. intros Hrun Hnd.
    assert (pipe_tag ∉ acc.*1) as Hfresh.
    { apply NoDup_app in Hnd as (_ & Hdisj & _). intros Hin.
      apply (Hdisj _ Hin). left. }
    assert ((dict_set acc pipe_tag new_pipe).*1 = acc.*1 ++ [pipe_tag]) as Hkeys
      by (by apply dict_set_keys_new).
    destruct (IH _ _ Hrun) as (Hout & Hold & Hnew).
    { rewrite Hkeys, <- app_assoc. done. }
    split; [by rewrite Hout, Hkeys, <- app_assoc|]. split.
    + intros k v Hk. apply Hold. rewrite dict_lookup_set_ne; [done|].
      intros <-. apply dict_lookup_Some_elem in Hk. apply Hfresh.
      apply list_elem_of_fmap. by exists (pipe_tag, v).
    + intros k info [[= -> ->]|Hin]%elem_of_cons; [|by apply Hnew].
      exists new_pipe. split; [done|]. apply Hold, dict_lookup_set_eq.
Qed.

End ClassifierFacts.

Section Totality.

Variable container_repr : value → string.
Variable all_pipeline_tags : list string.
Variables equipment_tags instrument_tags handvalve_tags : dict.
Variable threshold : Q.

#[local] Abbreviation classify_tag' :=
  (classify_tag all_pipeline_tags equipment_tags instrument_tags
                handvalve_tags threshold).

Lemma tag_dict_from_total (records : list value) : ∀ acc,
  Forall is_dict records → ∃ d, tag_dict_from container_repr records acc = Some d.
Proof.
  induction records as [|e records IH]; intros acc Hall; simpl; [eauto|].
  apply Forall_cons in Hall as [[d ->] Hall]. simpl. by apply IH.
Qed.

Lemma tag_dict_total (process_data : dict) (table : string) :
  (∀ records, dict_lookup process_data table = Some records → is_records records) →
  ∃ d, tag_dict container_repr (default (VList []) (dict_lookup process_data table))
       = Some d.
Proof.
  intros Hwf. unfold tag_dict.
  destruct (dict_lookup process_data table) as [v|]; simpl; [|eauto].
  destruct (Hwf v eq_refl) as (records & -> & Hall). simpl.
  by apply tag_dict_from_total.
Qed.

Lemma enrich_key_total key (d : dict) :
  ∃ new_pipe, enrich_key all_pipeline_tags equipment_tags instrument_tags
                handvalve_tags threshold key (VDict d) = Some new_pipe.
Proof.
  unfold enrich_key. cbn [py_in getitem setitem].
  case_bool_decide as Hin; [|eauto].
  destruct Hin as [tag ->]. cbn [mbind option_bind].
  destruct (truthy tag); [|eauto].
  destruct (classify_tag_spec all_pipeline_tags equipment_tags instrument_tags
              handvalve_tags threshold tag) as [m ->].
  cbn [mbind option_bind]. eauto.
Qed.

Lemma enrich_complete_flow_total (d : dict) :
  ∃ new_pipe, enrich_complete_flow all_pipeline_tags equipment_tags instrument_tags
                handvalve_tags threshold (VDict d) = Some new_pipe.
Proof.
  unfold enrich_complete_flow. cbn [py_in getitem setitem].
  case_bool_decide as Hin; [|eauto].
  destruct Hin as [flow ->]. cbn [mbind option_bind].
  destruct flow; eauto.
  destruct (classify_flow_spec all_pipeline_tags equipment_tags instrument_tags
              handvalve_tags threshold items) as (enriched & -> & _).
  cbn [mbind option_bind]. eauto.
Qed.

Lemma enrich_connection_total (conn : value) :
  is_dict conn →
  ∃ enriched, enrich_connection all_pipeline_tags equipment_tags instrument_tags
                handvalve_tags threshold conn = Some enriched.
Proof.
  intros [d ->]. unfold enrich_connection. cbn [get mbind option_bind].
  destruct (classify_tag_spec all_pipeline_tags equipment_tags instrument_tags
              handvalve_tags threshold (default VNone (dict_lookup d "from"))) as [m1 ->].
  cbn [mbind option_bind].
  destruct (classify_tag_spec all_pipeline_tags equipment_tags instrument_tags
              handvalve_tags threshold (default VNone (dict_lookup d "to"))) as [m2 ->].
  cbn [mbind option_bind]. eauto.
Qed.

Lemma enrich_all_connections_total (d : dict) :
  (∀ conns, dict_lookup d "all_connections" = Some (VList conns) →
            Forall is_dict conns) →
  ∃ new_pipe, enrich_all_connections all_pipeline_tags equipment_tags instrument_tags
                handvalve_tags threshold (VDict d) = Some new_pipe.
Proof.
  intros Hwf. unfold enrich_all_connections. cbn [py_in getitem setitem].
  case_bool_decide as Hin; [|eauto].
  destruct Hin as [conns Hconns]. rewrite Hconns. cbn [mbind option_bind].
  destruct conns; eauto.
  destruct (mapM _ items) as [enriched|] eqn:Hmap; [cbn [mbind option_bind]; eauto|].
  exfalso. apply mapM_None_1, Exists_exists in Hmap as (conn & Hin & Hnone).
  specialize (Hwf items Hconns). rewrite Forall_forall in Hwf.
  destruct (enrich_connection_total conn (Hwf conn Hin)) as [? Hsome]. congruence.
Qed.

Lemma enrich_pipe_total (pipe_info : value) :
  well_formed_pipe pipe_info →
  ∃ new_pipe, enrich_pipe all_pipeline_tags equipment_tags instrument_tags
                handvalve_tags threshold pipe_info = Some new_pipe.
Proof.
  intros (d & -> & Hwf). unfold enrich_pipe.
  destruct (enrich_key_total "start" d) as [p1 H1]. rewrite H1.
  apply enrich_key_dict in H1 as (d1 & -> & _ & Hd1). cbn [mbind option_bind].
  destruct (enrich_key_total "end" d1) as [p2 H2]. rewrite H2.
  apply enrich_key_dict in H2 as (d2 & -> & _ & Hd2). cbn [mbind option_bind].
  destruct (enrich_complete_flow_total d2) as [p3 H3]. rewrite H3.
  cbn [mbind option_bind].
  assert (∃ d3, p3 = VDict d3 ∧
                dict_lookup d3 "all_connections" = dict_lookup d2 "all_connections")
    as (d3 & -> & Hd3).
  { revert H3. unfold enrich_complete_flow. cbn [py_in getitem setitem].
    case_bool_decide as Hin; [|intros [= <-]; eauto].
    destruct Hin as [flow ->]. cbn [mbind option_bind].
    destruct flow; try (intros [= <-]; eauto).
    destruct (mapM _ items); [|done]. cbn [mbind option_bind]. intros [= <-].
    eexists. split; [done|]. by apply dict_lookup_set_ne. }
  apply enrich_all_connections_total. intros conns.
  rewrite Hd3, Hd2, Hd1 by done. apply Hwf.
Qed.

Lemma enrich_flows_total (items : dict) : ∀ acc,
  (∀ pipe_tag pipe_info, (pipe_tag, pipe_info) ∈ items → well_formed_pipe pipe_info) →
  ∃ out, enrich_flows all_pipeline_tags equipment_tags instrument_tags
           handvalve_tags threshold items acc = Some out.
Proof.
  induction items as [|[pipe_tag pipe_info] items IH]; intros acc Hwf; simpl; [eauto|].
  destruct (enrich_pipe_total pipe_info) as [new_pipe ->]; [by eapply Hwf; left|].
  cbn [mbind option_bind]. apply IH. intros ? ? ?. eapply Hwf. by right.
Qed.

End Totality.

Lemma classify_total container_repr set_order threshold data :
  well_formed_document data →
  ∃ out, classify_tags_preserve_flow container_repr set_order threshold data = Some out.
Proof.
  intros (flow_data & process_data & Hflows & Hproc & Htables & Hpipes).
  unfold classify_tags_preserve_flow. rewrite Hflows, Hproc. cbn [mbind option_bind].
  destruct (tag_dict_total container_repr process_data "Equipment") as [e ->].
  { intros records. apply Htables. rewrite !elem_of_cons. auto. }
  cbn [mbind option_bind].
  destruct (tag_dict_total container_repr process_data "Instrumentation") as [i ->].
  { intros records. apply Htables. rewrite !elem_of_cons. auto. }
  cbn [mbind option_bind].
  destruct (tag_dict_total container_repr process_data "HandValves") as [h ->].
  { intros records. apply Htables. rewrite !elem_of_cons. auto. }
  cbn [mbind option_bind].
  destruct (enrich_flows_total (set_order flow_data.*1) e i h threshold flow_data [] Hpipes)
    as [out ->].
  cbn [mbind option_bind]. eauto.
Qed.

Section OrderIndependence.

Variables tags1 tags2 : list string.
Hypothesis Hsame : ∀ x, x ∈ tags1 ↔ x ∈ tags2.
Variables equipment_tags instrument_tags handvalve_tags : dict.
Variable threshold : Q.

Lemma find_best_match_order tag :
  find_best_match tags1 equipment_tags instrument_tags handvalve_tags threshold tag
  = find_best_match tags2 equipment_tags instrument_tags handvalve_tags threshold tag.
Proof.
  destruct tag; try done. simpl.
  assert (matches_pipeline_tag s tags1 = matches_pipeline_tag s tags2) as ->; [|done].
  apply eq_true_iff_eq. rewrite !matches_pipeline_tag_spec. apply Hsame.
Qed.

Lemma classify_tag_order tag :
  classify_tag tags1 equipment_tags instrument_tags handvalve_tags threshold tag
  = classify_tag tags2 equipment_tags instrument_tags handvalve_tags threshold tag.
Proof. unfold classify_tag. by rewrite find_best_match_order. Qed.

Lemma enrich_pipe_order pipe_info :
  enrich_pipe tags1 equipment_tags instrument_tags handvalve_tags threshold pipe_info
  = enrich_pipe tags2 equipment_tags instrument_tags handvalve_tags threshold pipe_info.
Proof.
  assert (∀ key v,
    enrich_key tags1 equipment_tags instrument_tags handvalve_tags threshold key v
    = enrich_key tags2 equipment_tags instrument_tags handvalve_tags threshold key v)
    as Hkey.
  { intros key v. unfold enrich_key. destruct (py_in key v) as [[]|]; try done.
    destruct (getitem v key) as [tag|]; [|done]. simpl.
    by rewrite classify_tag_order. }
  assert (∀ v,
    enrich_complete_flow tags1 equipment_tags instrument_tags handvalve_tags threshold v
    = enrich_complete_flow tags2 equipment_tags instrument_tags handvalve_tags threshold v)
    as Hflow.
  { intros v. unfold enrich_complete_flow.
    destruct (py_in _ v) as [[]|]; try done.
    destruct (getitem v _) as [[]|]; try done. simpl.
    by rewrite (mapM_ext _ _ _ classify_tag_order). }
  assert (∀ v,
    enrich_all_connections tags1 equipment_tags instrument_tags handvalve_tags threshold v
    = enrich_all_connections tags2 equipment_tags instrument_tags handvalve_tags threshold v)
    as Hconn.
  { intros v. unfold enrich_all_connections.
    destruct (py_in _ v) as [[]|]; try done.
    destruct (getitem v _) as [[]|]; try done. simpl.
    erewrite mapM_ext; [done|]. intros conn. unfold enrich_connection.
    destruct (get conn "from" VNone); [|done]. simpl.
    destruct (get conn "to" VNone); [|done]. simpl.
    by rewrite !classify_tag_order. }
  unfold enrich_pipe. rewrite Hkey.
  destruct (enrich_key tags2 _ _ _ _ "start" pipe_info) as [p1|]; [|done]. simpl.
  rewrite Hkey.
  destruct (enrich_key tags2 _ _ _ _ "end" p1) as [p2|]; [|done]. simpl.
  rewrite Hflow.
  destruct (enrich_complete_flow tags2 _ _ _ _ p2) as [p3|]; [|done]. simpl.
  apply Hconn.
Qed.

Lemma enrich_flows_order items : ∀ acc,
  enrich_flows tags1 equipment_tags instrument_tags handvalve_tags threshold items acc
  = enrich_flows tags2 equipment_tags instrument_tags handvalve_tags threshold items acc.
Proof.
  induction items as [|[pipe_tag pipe_info] items IH]; intros acc; simpl; [done|].
  rewrite enrich_pipe_order.
  destruct (enrich_pipe tags2 _ _ _ _ pipe_info); [|done]. simpl. apply IH.
Qed.

End OrderIndependence.

(** ** The classifier *)

(** C7. On a document as the earlier stages write it the classifier
    produces a document; and whenever it produces one, that document holds
    the pipelines of the input under the same keys in the same order, and
    for each pipeline whose [complete_flow] is a list, the enriched
    [complete_flow] has the same length and its i-th element is the
    dictionary [{tag, category, details}] whose [tag] is the i-th original
    label: nothing is reordered, dropped, merged or rewritten. (The keys of
    a dictionary are distinct.) *)
Theorem classifier_preserves_flow
  (container_repr : value → string) (set_order : list string → list string)
  (threshold : Q) (data : value) :
  (well_formed_document data →
   ∃ out, classify_tags_preserve_flow container_repr set_order threshold data
          = Some out) ∧
  ∀ out,
    classify_tags_preserve_flow container_repr set_order threshold data = Some out →
    ∃ flow_data classified_flows,
      get_dict data "complete_pipeline_flows" = Some flow_data ∧
      getitem out "complete_pipeline_flows" = Some (VDict classified_flows) ∧
      (NoDup flow_data.*1 →
       classified_flows.*1 = flow_data.*1 ∧
       ∀ pipe_tag pipe_info labels,
         dict_lookup flow_data pipe_tag = Some (VDict pipe_info) →
         dict_lookup pipe_info "complete_flow" = Some (VList labels) →
         ∃ new_pipe enriched,
           dict_lookup classified_flows pipe_tag = Some (VDict new_pipe) ∧
           new_pipe.*1 = pipe_info.*1 ∧
           dict_lookup new_pipe "complete_flow" = Some (VList enriched) ∧
           length enriched = length labels ∧
           ∀ i label, labels !! i = Some label →
             ∃ category details,
               enriched !! i
               = Some (VDict [("tag", label); ("category", VStr category);
                              ("details", details)])).
Proof.
  split; [apply classify_total|].
  unfold classify_tags_preserve_flow. intros out Hrun.
  apply bind_Some in Hrun as (flow_data & Hdata & Hrun).
  apply bind_Some in Hrun as (process_data & _ & Hrun).
  apply bind_Some in Hrun as (equipment_tags & _ & Hrun).
  apply bind_Some in Hrun as (instrument_tags & _ & Hrun).
  apply bind_Some in Hrun as (handvalve_tags & _ & Hrun).
  apply bind_Some in Hrun as (classified_flows & Hflows & Hrun).
  injection Hrun as <-.
  exists flow_data, classified_flows. split; [done|]. split; [done|].
  intros Hnd.
  destruct (enrich_flows_spec _ _ _ _ _ _ _ _ Hflows) as (Hkeys & _ & Hitems); [done|].
  split; [done|].
  intros pipe_tag pipe_info labels Hpipe Hflow.
  destruct (Hitems pipe_tag (VDict pipe_info)) as (new_pipe & Henrich & Hlook).
  { by apply dict_lookup_Some_elem. }
  destruct (enrich_pipe_flow _ _ _ _ _ _ _ _ Hflow Henrich)
    as (d' & enriched & -> & Hk & Hcf & Hlen & Hall).
  exists d', enriched. split; [done|]. split; [done|]. split; [done|]. split; [done|].
  intros i label Hi. destruct (Hall i label Hi) as [m Hm].
  exists (category_name (match_category m)), (match_details m). done.
Qed.

Lemma classifier_preserves_flow_witness :
  well_formed_document example_document ∧
  classify_tags_preserve_flow (λ _, "") reverse default_threshold example_document
  = Some example_output ∧
  ∃ flow_data classified_flows,
    get_dict example_document "complete_pipeline_flows" = Some flow_data ∧
    getitem example_output "complete_pipeline_flows" = Some (VDict classified_flows) ∧
    NoDup flow_data.*1 ∧
    classified_flows.*1 = flow_data.*1.
Proof.
  assert (well_formed_document example_document) as Hwf.
  { eexists _, _. split; [reflexivity|]. split; [reflexivity|]. split.
    - intros table records Htable Hrecords.
      rewrite !elem_of_cons in Htable.
      destruct Htable as [->|[->|[->|Hnil]]]; [| | |by apply elem_of_nil in Hnil];
        vm_compute in Hrecords; injection Hrecords as <-;
        eexists; (split; [reflexivity|]);
        repeat (constructor; [by eexists|]); constructor.
    - intros pipe_tag pipe_info Hin. vm_compute in Hin.
      apply elem_of_cons in Hin as [[= -> ->]|Hin]; [|by apply elem_of_nil in Hin].
      eexists. split; [reflexivity|]. intros conns Hconns.
      vm_compute in Hconns. injection Hconns as <-.
      repeat (constructor; [by eexists|]). constructor. }
  split; [exact Hwf|].
  destruct (proj1 (classifier_preserves_flow (λ _, "") reverse default_threshold
                     example_document) Hwf) as [out Hout].
  assert (classify_tags_preserve_flow (λ _, "") reverse default_threshold
            example_document = Some example_output) as Hrun
    by (vm_compute; reflexivity).
  split; [exact Hrun|].
  destruct (proj2 (classifier_preserves_flow (λ _, "") reverse default_threshold
                     example_document) _ Hrun)
    as (flow_data & classified_flows & Hdata & Hcf & Hflows).
  exists flow_data, classified_flows.
  split; [exact Hdata|]. split; [exact Hcf|].
  assert (NoDup flow_data.*1) as Hnd.
  { vm_compute in Hdata. injection Hdata as <-. apply NoDup_singleton. }
  split; [exact Hnd|exact (proj1 (Hflows Hnd))].
Defined.

Example classifier_example :
  ∃ new_pipe,
    getitem example_output "complete_pipeline_flows" ≫= (λ flows, getitem flows "P-100")
    = Some new_pipe ∧
    getitem new_pipe "complete_flow"
    = Some (VList
              [VDict [("tag", VStr "TK-01"); ("category", VStr "equipment");
                      ("details", VDict [("Tag", VStr "TK01"); ("EquipmentSpec", VStr "tank")])];
               VDict [("tag", VStr "PU-01"); ("category", VStr "equipment");
                      ("details", VDict [("Tag", VStr "PU01")])];
               VDict [("tag", VStr "RELEASE"); ("category", VStr "node");
                      ("details", VNone)]]).
Proof. eexists. split; by vm_compute. Qed.


(** ** Reproducibility *)

(** C9. Two runs of the classifier on the same document with the same
    threshold write the same document, even though the two runs may iterate
    the set of pipeline tags in different orders; and two runs of the flow
    builder on the same segment list return the same sequence, however many
    passes each is allowed. *)
Theorem pipeline_is_deterministic :
  (∀ (container_repr : value → string) (order1 order2 : list string → list string)
     (threshold : Q) (data : value),
     iterates_elements order1 → iterates_elements order2 →
     classify_tags_preserve_flow container_repr order1 threshold data
     = classify_tags_preserve_flow container_repr order2 threshold data) ∧
  (∀ (connections : list Segment) (fuel1 fuel2 : nat) (run1 run2 : list string),
     build_flow_fuel fuel1 connections = Some run1 →
     build_flow_fuel fuel2 connections = Some run2 →
     run1 = run2).
Proof.
  split.
  - intros container_repr order1 order2 threshold data H1 H2.
    unfold classify_tags_preserve_flow.
    destruct (get_dict data "complete_pipeline_flows") as [flow_data|]; [|done].
    cbn [mbind option_bind].
    destruct (get_dict data "process_data") as [process_data|]; [|done].
    cbn [mbind option_bind].
    destruct (tag_dict container_repr (default _ (dict_lookup _ "Equipment")))
      as [equipment_tags|]; [|done].
    cbn [mbind option_bind].
    destruct (tag_dict container_repr (default _ (dict_lookup _ "Instrumentation")))
      as [instrument_tags|]; [|done].
    cbn [mbind option_bind].
    destruct (tag_dict container_repr (default _ (dict_lookup _ "HandValves")))
      as [handvalve_tags|]; [|done].
    cbn [mbind option_bind].
    rewrite (enrich_flows_order (order1 flow_data.*1) (order2 flow_data.*1)); [done|].
    intros x. by rewrite (H1 _ x), (H2 _ x).
  - intros connections fuel1 fuel2 run1 run2.
    unfold build_flow_fuel. destruct connections as [|c [|c' rest]]; try congruence.
    destruct (while_loop fuel1 _ _) as [st1|] eqn:Hrun1; [|done].
    destruct (while_loop fuel2 _ _) as [st2|] eqn:Hrun2; [|done].
    cbn [fmap option_fmap option_map]. intros [= <-] [= <-].
    by rewrite (while_loop_fuel_irrelevant _ _ _ _ _ _ Hrun1 Hrun2).
Qed.

Lemma pipeline_is_deterministic_witness :
  iterates_elements id ∧ iterates_elements reverse ∧
  classify_tags_preserve_flow (λ _, "") id default_threshold example_document
  = classify_tags_preserve_flow (λ _, "") reverse default_threshold example_document ∧
  let connections := [mkSegment "B" "C"; mkSegment "A" "B"] in
  build_flow_fuel 2 connections = Some ["A"; "B"; "C"] ∧
  build_flow_fuel 7 connections = Some ["A"; "B"; "C"].
Proof.
  assert (iterates_elements id) as H1 by (intros keys x; reflexivity).
  assert (iterates_elements reverse) as H2 by (intros keys x; apply elem_of_reverse).
  split; [exact H1|]. split; [exact H2|]. split.
  - exact (proj1 pipeline_is_deterministic (λ _, "") id reverse default_threshold
             example_document H1 H2).
  - intros connections.
    assert (build_flow_fuel 2 connections = Some ["A"; "B"; "C"]) as Hrun
      by (vm_compute; reflexivity).
    split; [exact Hrun|].
    destruct (build_flow_fuel 7 connections) as [run2|] eqn:Hrun2;
      [|vm_compute in Hrun2; discriminate Hrun2].
    f_equal. symmetry.
    exact (proj2 pipeline_is_deterministic connections 2 7 _ _ Hrun Hrun2).
Defined.

Import TableReader NormalizeStage Resolver Retrieval.

(** * More properties of the flow builder *)

Section StitchFacts.

Implicit Types (pending rest segments : list Segment) (sequence : list string)
  (s : Segment) (node x : string) (n : nat).

Lemma first_attaching_elem attach pending : ∀ node rest,
  first_attaching attach pending = Some (node, rest) →
  (∃ s, s ∈ pending ∧ attach s = Some node) ∧ (∀ s, s ∈ rest → s ∈ pending).
Proof.
  induction pending as [|s0 pending IH]; intros node rest Hfirst; simpl in Hfirst;
    [done|].
  destruct (attach s0) as [node0|] eqn:Hs0.
  - injection Hfirst as <- <-. split.
    + exists s0. split; [left|done].
    + intros s Hs. by right.
  - apply bind_Some in Hfirst as ([node1 rest1] & Hrest & Hfirst).
    injection Hfirst as <- <-.
    destruct (IH _ _ Hrest) as [(s & Hs & Hattach) Hsub]. split.
    + exists s. split; [by right|done].
    + intros s' Hs'. apply elem_of_cons in Hs' as [->|Hs']; [left|right; auto].
Qed.

Lemma first_attaching_None attach pending :
  (∀ s, s ∈ pending → attach s = None) → first_attaching attach pending = None.
Proof.
  induction pending as [|s0 pending IH]; intros Hnone; simpl; [done|].
  rewrite (Hnone s0) by left.
  rewrite IH; [done|]. intros s Hs. apply Hnone. by right.
Qed.

Lemma append_if_absent_elem sequence node x :
  x ∈ append_if_absent sequence node ↔ x ∈ sequence ∨ x = node.
Proof.
  unfold append_if_absent. destruct (decide (node ∈ sequence)) as [Hin|Hin].
  - split; [intros ?; by left|]. intros [?| ->]; done.
  - rewrite elem_of_app, list_elem_of_singleton. done.
Qed.

Lemma append_if_absent_extends sequence node :
  ∃ post, append_if_absent sequence node = sequence ++ post ∧ length post ≤ 1.
Proof.
  unfold append_if_absent. destruct (decide (node ∈ sequence)).
  - exists []. rewrite app_nil_r. split; [done|simpl; lia].
  - exists [node]. split; [done|simpl; lia].
Qed.

Lemma absorb_loose_elem pending : ∀ sequence x,
  x ∈ absorb_loose sequence pending →
  x ∈ sequence ∨ endpoint pending x.
Proof.
  unfold absorb_loose.
  induction pending as [|s pending IH]; intros sequence x Hx; simpl in Hx; [by left|].
  apply IH in Hx as [Hx|(conn & Hconn & Hx)].
  - apply append_if_absent_elem in Hx as [Hx| ->].
    + apply append_if_absent_elem in Hx as [Hx| ->]; [by left|].
      right. exists s. split; [left|by left].
    + right. exists s. split; [left|by right].
  - right. exists conn. split; [by right|done].
Qed.

Lemma absorb_loose_extends pending : ∀ sequence,
  ∃ post, absorb_loose sequence pending = sequence ++ post ∧
          length post ≤ 2 * length pending.
Proof.
  unfold absorb_loose.
  induction pending as [|s pending IH]; intros sequence; simpl.
  - exists []. by rewrite app_nil_r.
  - destruct (append_if_absent_extends sequence (seg_from s)) as (p1 & -> & Hp1).
    destruct (append_if_absent_extends (sequence ++ p1) (seg_to s)) as (p2 & -> & Hp2).
    destruct (IH ((sequence ++ p1) ++ p2)) as (p3 & -> & Hp3).
    exists (p1 ++ p2 ++ p3). split; [by rewrite <- !app_assoc|].
    rewrite !length_app. lia.
Qed.

Lemma attach_tail_endpoint last_node s node :
  attach_tail last_node s = Some node → node = seg_from s ∨ node = seg_to s.
Proof. intros H. apply attach_tail_Some in H as [[_ ->]|[_ ->]]; auto. Qed.

Lemma attach_head_endpoint first_node s node :
  attach_head first_node s = Some node → node = seg_from s ∨ node = seg_to s.
Proof. intros H. apply attach_head_Some in H as [[_ ->]|[_ ->]]; auto. Qed.

Lemma stitch_nil n sequence : stitch n sequence [] = sequence.
Proof. by destruct n. Qed.

(** One round of the stitching, by cases. *)
Lemma stitch_round n sequence pending :
  pending ≠ [] →
  stitch (S n) sequence pending
  = match first_attaching (attach_tail (default "" (last sequence))) pending with
    | Some (node, rest) => stitch n (sequence ++ [node]) rest
    | None =>
        match first_attaching (attach_head (default "" (head sequence))) pending with
        | Some (node, rest) => stitch n (node :: sequence) rest
        | None => absorb_loose sequence pending
        end
    end.
Proof. by destruct pending. Qed.

(** Whatever the stitching adds is an end of a pending row. *)
Lemma stitch_elem n : ∀ sequence pending x,
  x ∈ stitch n sequence pending → x ∈ sequence ∨ endpoint pending x.
Proof.
  induction n as [|n IH]; intros sequence pending x Hx.
  { destruct pending; simpl in Hx; by left. }
  destruct (decide (pending = [])) as [->|Hne]; [by left|].
  rewrite stitch_round in Hx by done.
  destruct (first_attaching _ pending) as [[node rest]|] eqn:Htail.
  - destruct (first_attaching_elem _ _ _ _ Htail) as [(s & Hs & Hattach) Hsub].
    apply IH in Hx as [Hx|(conn & Hconn & Hx)].
    + apply elem_of_app in Hx as [Hx|Hx]; [by left|].
      apply list_elem_of_singleton in Hx as ->.
      right. exists s. split; [done|]. by eapply attach_tail_endpoint.
    + right. exists conn. split; [auto|done].
  - destruct (first_attaching (attach_head _) pending) as [[node rest]|] eqn:Hhead.
    + destruct (first_attaching_elem _ _ _ _ Hhead) as [(s & Hs & Hattach) Hsub].
      apply IH in Hx as [Hx|(conn & Hconn & Hx)].
      * apply elem_of_cons in Hx as [->|Hx]; [|by left].
        right. exists s. split; [done|]. by eapply attach_head_endpoint.
      * right. exists conn. split; [auto|done].
    + by apply absorb_loose_elem.
Qed.

(** The stitching only adds in front of the sequence and behind it, one
    node for a row that attaches and at most two for a row that does
    not. *)
Lemma stitch_extends n : ∀ sequence pending,
  ∃ pre post,
    stitch n sequence pending = pre ++ sequence ++ post ∧
    length pre + length post ≤ 2 * length pending.
Proof.
  induction n as [|n IH]; intros sequence pending.
  { exists [], []. split; [|simpl; lia]. rewrite app_nil_r.
    by destruct pending. }
  destruct (decide (pending = [])) as [->|Hne].
  { exists [], []. split; [|simpl; lia]. by rewrite app_nil_r. }
  rewrite stitch_round by done.
  destruct (first_attaching _ pending) as [[node rest]|] eqn:Htail.
  - apply first_attaching_length in Htail.
    destruct (IH (sequence ++ [node]) rest) as (pre & post & -> & Hlen).
    exists pre, (node :: post). split; [by rewrite <- !app_assoc|].
    simpl. lia.
  - destruct (first_attaching (attach_head _) pending) as [[node rest]|] eqn:Hhead.
    + apply first_attaching_length in Hhead.
      destruct (IH (node :: sequence) rest) as (pre & post & -> & Hlen).
      exists (pre ++ [node]), post. split; [by rewrite <- !app_assoc|].
      rewrite length_app. simpl. lia.
    + destruct (absorb_loose_extends pending sequence) as (post & -> & Hlen).
      exists [], post. split; [done|]. simpl. lia.
Qed.

Lemma path_segments_cons x y (nodes : list string) :
  path_segments (x :: y :: nodes) = mkSegment x y :: path_segments (y :: nodes).
Proof. done. Qed.

Lemma path_segments_length (nodes : list string) :
  length (path_segments nodes) = length nodes - 1.
Proof.
  induction nodes as [|x [|y nodes] IH]; [done..|].
  rewrite path_segments_cons. simpl length in *. lia.
Qed.

Lemma path_segments_snoc (nodes : list string) p a :
  path_segments (nodes ++ [p; a]) = path_segments (nodes ++ [p]) ++ [mkSegment p a].
Proof.
  induction nodes as [|x [|y nodes] IH]; [done..|].
  change ((x :: y :: nodes) ++ [p; a]) with (x :: y :: (nodes ++ [p; a])).
  change ((x :: y :: nodes) ++ [p]) with (x :: y :: (nodes ++ [p])).
  rewrite !path_segments_cons.
  change (y :: nodes ++ [p; a]) with ((y :: nodes) ++ [p; a]).
  rewrite IH. done.
Qed.

Lemma path_segments_endpoints (nodes : list string) s :
  s ∈ path_segments nodes → seg_from s ∈ nodes ∧ seg_to s ∈ nodes.
Proof.
  induction nodes as [|x [|y nodes] IH]; [by intros ?%elem_of_nil..|].
  rewrite path_segments_cons. intros [->|Hs]%elem_of_cons.
  - split; [left|right; left].
  - destruct (IH Hs). split; by right.
Qed.

(** Rows listed in flow order are followed at the tail, whatever the
    labels are. *)
Lemma stitch_path (nodes : list string) : ∀ n sequence x,
  last sequence = Some x → length nodes ≤ n →
  stitch n sequence (path_segments (x :: nodes)) = sequence ++ nodes.
Proof.
  induction nodes as [|y nodes IH]; intros n sequence x Hlast Hn.
  { simpl. by rewrite stitch_nil, app_nil_r. }
  destruct n as [|n]; [simpl in Hn; lia|].
  rewrite path_segments_cons, stitch_round by done.
  rewrite Hlast. change (default "" (Some x)) with x. cbn [first_attaching].
  unfold attach_tail at 1. cbn [seg_from seg_to].
  rewrite decide_True by done.
  rewrite IH; [by rewrite <- app_assoc| |simpl in Hn; lia].
  by rewrite last_snoc.
Qed.

(** Rows listed against the flow are followed at the head, when no label
    repeats. *)
Lemma stitch_reverse_path (pre : list string) : ∀ n a suffix z,
  length pre ≤ n →
  last (a :: suffix) = Some z → z ∉ pre ++ [a] →
  stitch n (a :: suffix) (reverse (path_segments (pre ++ [a])))
  = pre ++ a :: suffix.
Proof.
  induction pre as [|p pre IH] using rev_ind; intros n a suffix z Hn Hlast Hz.
  { simpl. by rewrite stitch_nil. }
  rewrite length_app in Hn. simpl in Hn.
  destruct n as [|n]; [lia|].
  rewrite <- app_assoc. cbn [app].
  rewrite path_segments_snoc, reverse_snoc.
  rewrite stitch_round by done.
  rewrite Hlast. change (default "" (Some z)) with z.
  rewrite first_attaching_None; last first.
  { intros s Hs. unfold attach_tail.
    assert (seg_from s ∈ (pre ++ [p]) ++ [a] ∧ seg_to s ∈ (pre ++ [p]) ++ [a])
      as [Hfrom Hto].
    { apply elem_of_cons in Hs as [->|Hs]; cbn [seg_from seg_to].
      - rewrite !elem_of_app, !list_elem_of_singleton. auto.
      - apply elem_of_reverse, path_segments_endpoints in Hs as [??].
        split; apply elem_of_app; by left. }
    rewrite !decide_False; [done|..]; by intros <-. }
  cbn [first_attaching head]. change (default "" (Some a)) with a.
  unfold attach_head at 1. cbn [seg_from seg_to].
  rewrite decide_True by done.
  rewrite (IH n p (a :: suffix) z); [by rewrite <- app_assoc|lia|done|].
  intros Hin. apply Hz. apply elem_of_app. by left.
Qed.

Lemma build_flow_spec segments :
  build_flow_by_following_sequence segments = Some (spec_buildFlow segments).
Proof. by destruct (build_flow_fuel_stitch segments (length segments)). Qed.

Lemma spec_buildFlow_elem segments node :
  node ∈ spec_buildFlow segments → endpoint segments node.
Proof.
  intros Hnode. destruct segments as [|c [|c' rest]]; simpl in Hnode.
  - by apply elem_of_nil in Hnode.
  - exists c. split; [left|].
    apply elem_of_cons in Hnode as [->|Hnode]; [by left|].
    apply list_elem_of_singleton in Hnode as ->. by right.
  - change (node ∈ stitch (length (c' :: rest)) [seg_from c; seg_to c] (c' :: rest))
      in Hnode.
    apply stitch_elem in Hnode as [Hnode|(conn & Hconn & Hnode)].
    + exists c. split; [left|].
      apply elem_of_cons in Hnode as [->|Hnode]; [by left|].
      apply list_elem_of_singleton in Hnode as ->. by right.
    + exists conn. split; [by right|done].
Qed.

Lemma spec_buildFlow_shape (c : Segment) rest :
  ∃ pre post,
    spec_buildFlow (c :: rest) = pre ++ [seg_from c; seg_to c] ++ post ∧
    length pre + length post ≤ 2 * length rest.
Proof.
  destruct rest as [|c' rest].
  - exists [], []. done.
  - change (spec_buildFlow (c :: c' :: rest))
      with (stitch (length (c' :: rest)) [seg_from c; seg_to c] (c' :: rest)).
    destruct (stitch_extends (length (c' :: rest)) [seg_from c; seg_to c] (c' :: rest))
      as (pre & post & -> & Hlen).
    exists pre, post. done.
Qed.

End StitchFacts.

(** ** What the flow holds *)

(** X1. The flow holds nothing but ends of the given rows. *)
Theorem build_flow_only_endpoints (connections : list Segment)
        (fl : list string) (node : string) :
  build_flow_by_following_sequence connections = Some fl →
  node ∈ fl →
  endpoint connections node.
Proof.
  rewrite build_flow_spec. intros [= <-]. apply spec_buildFlow_elem.
Qed.

Lemma build_flow_only_endpoints_witness :
  let connections := [mkSegment "B" "C"; mkSegment "A" "B"] in
  build_flow_by_following_sequence connections = Some ["A"; "B"; "C"] ∧
  "A" ∈ ["A"; "B"; "C"] ∧
  endpoint connections "A".
Proof.
  assert (Hrun : build_flow_by_following_sequence [mkSegment "B" "C"; mkSegment "A" "B"]
                 = Some ["A"; "B"; "C"]) by (vm_compute; reflexivity).
  assert (Hin : "A" ∈ ["A"; "B"; "C"]) by left.
  exact (conj Hrun (conj Hin (build_flow_only_endpoints _ _ _ Hrun Hin))).
Defined.

(** X2. The first row is never moved or turned round: its two ends stay
    next to each other, [from] before [to]. What the other [n - 1] rows add
    goes in front of them or behind them, two nodes a row at most, so that
    the flow has between 2 and [2 * n] nodes. *)
Theorem build_flow_keeps_first_row (c : Segment) (rest : list Segment) :
  ∃ pre post,
    build_flow_by_following_sequence (c :: rest)
    = Some (pre ++ [seg_from c; seg_to c] ++ post) ∧
    length pre + length post ≤ 2 * length rest.
Proof.
  rewrite build_flow_spec.
  destruct (spec_buildFlow_shape c rest) as (pre & post & -> & Hlen).
  by exists pre, post.
Qed.

(** X3. Rows that are listed in the order of the flow, each starting where
    the one before ends, give back the nodes in that order, also when
    labels repeat. *)
Theorem build_flow_follows_path (x y : string) (nodes : list string) :
  build_flow_by_following_sequence (path_segments (x :: y :: nodes))
  = Some (x :: y :: nodes).
Proof.
  destruct (build_flow_fuel_stitch (path_segments (x :: y :: nodes))
              (length (path_segments (x :: y :: nodes)))) as [Hspec _]; [done|].
  unfold build_flow_by_following_sequence. rewrite Hspec. f_equal.
  rewrite path_segments_cons.
  destruct nodes as [|z nodes]; [done|].
  rewrite path_segments_cons.
  change (spec_buildFlow (mkSegment x y :: mkSegment y z :: path_segments (z :: nodes)))
    with (stitch (length (mkSegment y z :: path_segments (z :: nodes))) [x; y]
                 (mkSegment y z :: path_segments (z :: nodes))).
  rewrite <- path_segments_cons.
  rewrite (stitch_path (z :: nodes) _ [x; y] y); [done..|].
  rewrite path_segments_length. simpl. lia.
Qed.

(** X4. Rows of a path without repeated labels that are listed against the
    flow, last row first, give back the nodes in flow order: the builder
    then extends at the head. *)
Theorem build_flow_follows_reversed_path (nodes : list string) :
  NoDup nodes → 2 ≤ length nodes →
  build_flow_by_following_sequence (reverse (path_segments nodes)) = Some nodes.
Proof.
  intros Hnodup Hlen.
  destruct (build_flow_fuel_stitch (reverse (path_segments nodes))
              (length (reverse (path_segments nodes)))) as [Hspec _]; [done|].
  unfold build_flow_by_following_sequence. rewrite Hspec. f_equal.
  destruct nodes as [|b nodes _] using rev_ind; [simpl in Hlen; lia|].
  destruct nodes as [|a pre _] using rev_ind; [simpl in Hlen; lia|].
  clear Hlen. rewrite <- app_assoc in *. cbn [app] in *.
  rewrite path_segments_snoc, reverse_snoc.
  destruct (reverse (path_segments (pre ++ [a]))) as [|s rest] eqn:Hrest.
  - assert (Hpre : length (path_segments (pre ++ [a])) = 0).
    { rewrite <- (length_reverse (path_segments _)), Hrest. done. }
    rewrite path_segments_length, length_app in Hpre. simpl in Hpre.
    destruct pre; [done|simpl in Hpre; lia].
  - change (spec_buildFlow (mkSegment a b :: s :: rest))
      with (stitch (length (s :: rest)) [a; b] (s :: rest)).
    rewrite <- Hrest.
    apply (stitch_reverse_path pre _ a [b] b); [|done|].
    + rewrite length_reverse, path_segments_length, length_app. simpl. lia.
    + change (pre ++ [a; b]) with (pre ++ [a] ++ [b]) in Hnodup.
      rewrite app_assoc in Hnodup.
      apply NoDup_app in Hnodup as (_ & Hdisj & _).
      intros Hin. apply (Hdisj b Hin). left.
Qed.

Lemma build_flow_follows_reversed_path_witness :
  NoDup ["A"; "B"; "C"] ∧ 2 ≤ length ["A"; "B"; "C"] ∧
  build_flow_by_following_sequence [mkSegment "B" "C"; mkSegment "A" "B"]
  = Some ["A"; "B"; "C"].
Proof.
  assert (Hnodup : NoDup ["A"; "B"; "C"]).
  { repeat constructor; rewrite ?elem_of_cons, ?elem_of_nil; intuition congruence. }
  assert (Hlen : 2 ≤ length ["A"; "B"; "C"]) by (simpl; lia).
  exact (conj Hnodup (conj Hlen (build_flow_follows_reversed_path _ Hnodup Hlen))).
Defined.

(** * Properties of the table reader *)

Section ExtractionFacts.

Implicit Types (row : Row) (tag_data df : list Row) (conn : Segment)
  (connections : list Segment) (tag : string) (e : FlowEntry)
  (flows acc : list (string * FlowEntry)).

Lemma names_a_node_test (cell : string) :
  negb (bool_decide (cell = "")) && negb (bool_decide (cell = "nan")) = true
  ↔ names_a_node cell.
Proof.
  unfold names_a_node.
  rewrite andb_true_iff, !negb_true_iff, !bool_decide_eq_false. done.
Qed.

Lemma names_a_node_test_not (cell : string) :
  bool_decide (cell = "") || bool_decide (cell = "nan") = true
  ↔ ¬ names_a_node cell.
Proof.
  unfold names_a_node.
  rewrite orb_true_iff, !bool_decide_eq_true.
  destruct (decide (cell = "")), (decide (cell = "nan")); intuition.
Qed.

Lemma extract_connections_omap tag_data : ∀ connections,
  extract_connections tag_data connections
  = connections ++ omap row_connection tag_data.
Proof.
  induction tag_data as [|row rest IH]; intros acc; simpl.
  { by rewrite app_nil_r. }
  unfold row_connection at 1.
  destruct (negb (bool_decide (strip (row_From row) = "")) && _); simpl.
  - by rewrite IH, <- app_assoc.
  - apply IH.
Qed.

Lemma row_connection_Some row conn :
  row_connection row = Some conn ↔
  names_a_node (strip (row_From row)) ∧
  seg_from conn = strip (row_From row) ∧
  (names_a_node (strip (row_To row)) ∧ seg_to conn = strip (row_To row) ∨
   ¬ names_a_node (strip (row_To row)) ∧ seg_to conn = "RELEASE").
Proof.
  unfold row_connection.
  destruct (negb (bool_decide (strip (row_From row) = "")) && _) eqn:Hfrom.
  - apply names_a_node_test in Hfrom.
    destruct (bool_decide (strip (row_To row) = "") || _) eqn:Hto.
    + apply names_a_node_test_not in Hto. split.
      * intros [= <-]. simpl. auto.
      * intros (_ & Hf & [[Hn _]|[_ Ht]]); [done|].
        destruct conn as [f t]; simpl in *. by subst.
    + assert (Hn : names_a_node (strip (row_To row))).
      { destruct (decide (names_a_node (strip (row_To row)))) as [|Hn]; [done|].
        apply names_a_node_test_not in Hn. congruence. }
      split.
      * intros [= <-]. simpl. auto.
      * intros (_ & Hf & [[_ Ht]|[Hn' _]]); [|done].
        destruct conn as [f t]; simpl in *. by subst.
  - split; [done|]. intros (Hn & _). apply names_a_node_test in Hn. congruence.
Qed.

Lemma unique_spec (tags : list string) : ∀ seen,
  NoDup (unique tags seen) ∧
  ∀ x, x ∈ unique tags seen ↔ x ∈ tags ∧ x ∉ seen.
Proof.
  induction tags as [|t tags IH]; intros seen; simpl.
  { split; [constructor|]. intros x. rewrite elem_of_nil. tauto. }
  destruct (decide (t ∈ seen)) as [Hin|Hin].
  - destruct (IH seen) as [Hnodup Helem]. split; [done|].
    intros x. rewrite Helem, elem_of_cons.
    split; [tauto|]. intros [[->|?] ?]; tauto.
  - destruct (IH (t :: seen)) as [Hnodup Helem]. split.
    + constructor; [|done]. rewrite Helem, elem_of_cons. tauto.
    + intros x. rewrite !elem_of_cons, Helem, elem_of_cons.
      destruct (decide (x = t)) as [->|]; tauto.
Qed.

Lemma dict_set_elem {V : Type} (d : list (string * V)) k v x :
  x ∈ dict_set d k v → x ∈ d ∨ x = (k, v).
Proof.
  induction d as [|[k' v'] d IH]; simpl.
  { intros ->%list_elem_of_singleton. by right. }
  destruct (decide (k' = k)) as [->|Hne].
  - intros [->|Hx]%elem_of_cons; [by right|]. left. by right.
  - intros [->|Hx]%elem_of_cons; [left; left|].
    destruct (IH Hx); [left; by right|by right].
Qed.

Lemma dict_set_new {V : Type} (d : list (string * V)) k v :
  k ∉ d.*1 → dict_set d k v = d ++ [(k, v)].
Proof.
  induction d as [|[k' v'] d IH]; simpl; [done|].
  rewrite not_elem_of_cons. intros [Hne Hk].
  rewrite decide_False by done. by rewrite IH.
Qed.

Lemma dict_set_keys {V : Type} (d : list (string * V)) k v x :
  x ∈ (dict_set d k v).*1 ↔ x ∈ d.*1 ∨ x = k.
Proof.
  destruct (decide (k ∈ d.*1)) as [Hin|Hin].
  - rewrite dict_set_keys_old by done. split; [tauto|]. intros [?| ->]; done.
  - rewrite dict_set_keys_new by done.
    by rewrite elem_of_app, list_elem_of_singleton.
Qed.

Lemma dict_set_NoDup {V : Type} (d : list (string * V)) k v :
  NoDup d.*1 → NoDup (dict_set d k v).*1.
Proof.
  intros Hnodup. destruct (decide (k ∈ d.*1)) as [Hin|Hin].
  - by rewrite dict_set_keys_old.
  - rewrite dict_set_keys_new by done. apply NoDup_app. split; [done|].
    split; [|apply NoDup_singleton].
    intros x Hx ->%list_elem_of_singleton. done.
Qed.

(** The flow over at least one row starts and ends at ends of rows and
    has two nodes or more. *)
Lemma build_flow_ends (c : Segment) (rest : list Segment) :
  ∃ fl s t,
    build_flow_by_following_sequence (c :: rest) = Some fl ∧
    2 ≤ length fl ∧
    head fl = Some s ∧ last fl = Some t ∧
    endpoint (c :: rest) s ∧ endpoint (c :: rest) t.
Proof.
  rewrite build_flow_spec.
  destruct (spec_buildFlow_shape c rest) as (pre & post & Hrun & _).
  assert (Hlen : 2 ≤ length (spec_buildFlow (c :: rest))).
  { rewrite Hrun, !length_app. simpl. lia. }
  pose proof (spec_buildFlow_elem (c :: rest)) as Hends.
  destruct (spec_buildFlow (c :: rest)) as [|s fl]; [simpl in Hlen; lia|].
  destruct (last (s :: fl)) as [t|] eqn:Ht; [|by apply last_None in Ht].
  exists (s :: fl), s, t. split; [done|]. split; [done|]. split; [done|].
  split; [done|]. split.
  - apply Hends. left.
  - apply Hends. apply last_Some in Ht as [l' ->].
    apply elem_of_app. right. left.
Qed.

(** The loop over the tags: it runs to the end, every entry it adds comes
    from the rows of its tag, and a tag gets an entry exactly when it
    names a pipeline with at least one connection. *)
Lemma extract_loop_spec df (tags : list string) : ∀ acc,
  ∃ flows,
    extract_loop df tags acc = Some flows ∧
    (NoDup acc.*1 → NoDup flows.*1) ∧
    (∀ tag, tag ∈ flows.*1 ↔
       tag ∈ acc.*1 ∨ (tag ∈ tags ∧ names_a_node tag ∧ connections_of df tag ≠ [])) ∧
    (∀ tag e, (tag, e) ∈ flows →
       (tag, e) ∈ acc ∨
       ∃ fl, build_flow_by_following_sequence (connections_of df tag) = Some fl ∧
             names_a_node tag ∧ connections_of df tag ≠ [] ∧
             e = mkEntry tag (length (connections_of df tag)) fl (head fl) (last fl)
                         (connections_of df tag)).
Proof.
  induction tags as [|tag tags IH]; intros acc; simpl.
  { exists acc. split; [done|]. split; [done|]. split.
    - intros tag. rewrite elem_of_nil. tauto.
    - intros tag e. by left. }
  destruct (bool_decide (tag = "") || bool_decide (tag = "nan")) eqn:Htag.
  { apply names_a_node_test_not in Htag.
    destruct (IH acc) as (flows & Hrun & Hnodup & Hkeys & Hentries).
    exists flows. split; [done|]. split; [done|]. split; [|done].
    intros tag'. rewrite Hkeys, elem_of_cons.
    split; [tauto|]. intros [?|[[->|?] [??]]]; tauto. }
  assert (Hname : names_a_node tag).
  { destruct (decide (names_a_node tag)) as [|Hn]; [done|].
    apply names_a_node_test_not in Hn. congruence. }
  fold (rows_of df tag). fold (connections_of df tag).
  destruct (connections_of df tag) as [|c rest] eqn:Hconns.
  { destruct (IH acc) as (flows & Hrun & Hnodup & Hkeys & Hentries).
    exists flows. split; [done|]. split; [done|]. split; [|done].
    intros tag'. rewrite Hkeys, elem_of_cons.
    split; [tauto|]. intros [?|[[->|?] [? Hne]]]; [tauto| |tauto].
    by rewrite Hconns in Hne. }
  destruct (build_flow_ends c rest) as (fl & s & t & Hfl & _).
  rewrite Hfl. cbn [mbind option_bind].
  destruct (IH (dict_set acc tag
                  (mkEntry tag (length (c :: rest)) fl (head fl) (last fl) (c :: rest))))
    as (flows & Hrun & Hnodup & Hkeys & Hentries).
  exists flows. split; [done|]. split; [|split].
  - intros Hacc. by apply Hnodup, dict_set_NoDup.
  - intros tag'. rewrite Hkeys, dict_set_keys, elem_of_cons.
    split.
    + intros [[?| ->]|(? & ? & ?)]; [tauto| |tauto].
      right. split; [by left|]. split; [done|]. by rewrite Hconns.
    + intros [?|([->|?] & ? & ?)]; tauto.
  - intros tag' e Hin. apply Hentries in Hin as [Hin|Hin]; [|by right].
    apply dict_set_elem in Hin as [Hin|[= -> ->]]; [by left|].
    right. exists fl. rewrite Hconns. done.
Qed.

Lemma extract_connections_elem tag_data conn :
  conn ∈ extract_connections tag_data [] ↔
  ∃ row, row ∈ tag_data ∧ row_connection row = Some conn.
Proof. by rewrite extract_connections_omap, app_nil_l, list_elem_of_omap. Qed.

Lemma row_connection_names row conn :
  row_connection row = Some conn →
  names_a_node (seg_from conn) ∧ names_a_node (seg_to conn).
Proof.
  intros (Hfrom & -> & [[Hto ->]|[_ ->]])%row_connection_Some; [done|].
  split; [done|]. by split.
Qed.

Lemma extract_total table :
  ∃ flows,
    extract_complete_pipeline_flows table = Some flows ∧
    NoDup flows.*1 ∧
    (∀ tag, tag ∈ flows.*1 ↔
       tag ∈ row_Tag <$> (clean_row <$> table) ∧ names_a_node tag ∧
       connections_of (clean_row <$> table) tag ≠ []) ∧
    (∀ tag e, (tag, e) ∈ flows →
       ∃ fl, build_flow_by_following_sequence (connections_of (clean_row <$> table) tag)
             = Some fl ∧
             names_a_node tag ∧ connections_of (clean_row <$> table) tag ≠ [] ∧
             e = mkEntry tag (length (connections_of (clean_row <$> table) tag)) fl
                         (head fl) (last fl)
                         (connections_of (clean_row <$> table) tag)).
Proof.
  unfold extract_complete_pipeline_flows.
  destruct (extract_loop_spec (clean_row <$> table)
              (unique (row_Tag <$> (clean_row <$> table)) []) [])
    as (flows & Hrun & Hnodup & Hkeys & Hentries).
  destruct (unique_spec (row_Tag <$> (clean_row <$> table)) []) as [_ Hunique].
  exists flows. split; [done|]. split; [apply Hnodup; constructor|]. split.
  - intros tag. rewrite Hkeys, Hunique. simpl. rewrite !elem_of_nil. tauto.
  - intros tag e Hin. apply Hentries in Hin as [Hin|Hin]; [|done].
    by apply elem_of_nil in Hin.
Qed.

End ExtractionFacts.

(** ** From the table to the connections *)

(** X5. The connections of a pipeline are read off its rows one by one: a
    row counts exactly when its [From] cell names a node, its [To] cell is
    kept when it names a node, and becomes [RELEASE] when it is empty or
    [nan]. *)
Theorem connections_come_from_rows (tag_data : list Row) (conn : Segment) :
  conn ∈ extract_connections tag_data [] ↔
  ∃ row, row ∈ tag_data ∧
    names_a_node (strip (row_From row)) ∧
    seg_from conn = strip (row_From row) ∧
    (names_a_node (strip (row_To row)) ∧ seg_to conn = strip (row_To row) ∨
     ¬ names_a_node (strip (row_To row)) ∧ seg_to conn = "RELEASE").
Proof.
  rewrite extract_connections_elem.
  split; intros (row & Hrow & Hconn); exists row; split; try done;
    by apply row_connection_Some.
Qed.

(** X6. [extract_complete_pipeline_flows] returns for every table. Each
    entry it returns belongs to a tag that names a pipeline, counts at
    least one connection, holds the flow built from exactly the
    connections it lists, with two nodes or more, and its [start] and
    [end] are the first and the last node of that flow, never [None]. *)
Theorem extract_entries_are_complete (table : list Row) :
  ∃ flows,
    extract_complete_pipeline_flows table = Some flows ∧
    ∀ tag e, (tag, e) ∈ flows →
      names_a_node tag ∧
      pipeline_tag e = tag ∧
      1 ≤ total_connections e ∧
      total_connections e = length (all_raw_connections e) ∧
      build_flow_by_following_sequence (all_raw_connections e)
      = Some (complete_flow e) ∧
      2 ≤ length (complete_flow e) ∧
      ∃ s t, start e = Some s ∧ head (complete_flow e) = Some s ∧
             end_ e = Some t ∧ last (complete_flow e) = Some t ∧
             endpoint (all_raw_connections e) s ∧
             endpoint (all_raw_connections e) t.
Proof.
  destruct (extract_total table) as (flows & Hrun & _ & _ & Hentries).
  exists flows. split; [done|]. intros tag e Hin.
  destruct (Hentries tag e Hin) as (fl & Hfl & Hname & Hne & ->). simpl.
  destruct (connections_of (clean_row <$> table) tag) as [|c rest]; [done|].
  destruct (build_flow_ends c rest)
    as (fl' & s & t & Hfl' & Hlen & Hs & Ht & Hends & Hendt).
  rewrite Hfl in Hfl'. injection Hfl' as <-.
  split; [done|]. split; [done|]. split; [simpl; lia|]. split; [done|].
  split; [done|]. split; [done|]. exists s, t. done.
Qed.

Lemma extract_entries_are_complete_witness :
  let table := [mkRow "P-100" "TK-01" "PU-01"; mkRow "P-100" "PU-01" "nan"] in
  let e := mkEntry "P-100" 2 ["TK-01"; "PU-01"; "RELEASE"] (Some "TK-01")
                   (Some "RELEASE")
                   [mkSegment "TK-01" "PU-01"; mkSegment "PU-01" "RELEASE"] in
  extract_complete_pipeline_flows table = Some [("P-100", e)] ∧
  ("P-100", e) ∈ [("P-100", e)] ∧
  names_a_node "P-100" ∧
  pipeline_tag e = "P-100" ∧
  1 ≤ total_connections e ∧
  total_connections e = length (all_raw_connections e) ∧
  build_flow_by_following_sequence (all_raw_connections e) = Some (complete_flow e) ∧
  2 ≤ length (complete_flow e) ∧
  ∃ s t, start e = Some s ∧ head (complete_flow e) = Some s ∧
         end_ e = Some t ∧ last (complete_flow e) = Some t ∧
         endpoint (all_raw_connections e) s ∧
         endpoint (all_raw_connections e) t.
Proof.
  intros table e.
  assert (Hrun : extract_complete_pipeline_flows table = Some [("P-100", e)])
    by (vm_compute; reflexivity).
  assert (Hin : ("P-100", e) ∈ [("P-100", e)]) by left.
  destruct (extract_entries_are_complete table) as (flows & Hrun' & Hall).
  rewrite Hrun in Hrun'. injection Hrun' as <-.
  exact (conj Hrun (conj Hin (Hall "P-100" e Hin))).
Defined.

(** X7. A pipeline gets an entry exactly when its tag names a pipeline and
    one of its rows has a [From] cell that names a node; no tag gets two
    entries. *)
Theorem extract_entry_iff_connection (table : list Row)
        (flows : list (string * FlowEntry)) (tag : string) :
  extract_complete_pipeline_flows table = Some flows →
  NoDup flows.*1 ∧
  (tag ∈ flows.*1 ↔
   names_a_node tag ∧
   ∃ row, row ∈ clean_row <$> table ∧ row_Tag row = tag ∧
          names_a_node (strip (row_From row))).
Proof.
  intros Hrun.
  destruct (extract_total table) as (flows' & Hrun' & Hnodup & Hkeys & _).
  rewrite Hrun in Hrun'. injection Hrun' as <-.
  split; [done|]. rewrite Hkeys. split.
  - intros (Htag & Hname & Hne). split; [done|].
    destruct (connections_of (clean_row <$> table) tag) as [|c rest] eqn:Hconns;
      [done|].
    assert (Hc : c ∈ connections_of (clean_row <$> table) tag)
      by (rewrite Hconns; left).
    apply extract_connections_elem in Hc as (row & Hrow & Hc).
    apply list_elem_of_filter in Hrow as [Htag' Hrow].
    exists row. split; [done|]. split; [done|].
    by apply row_connection_Some in Hc as (? & _).
  - intros (Hname & row & Hrow & Htag & Hfrom). split; [|split; [done|]].
    + apply list_elem_of_fmap. by exists row.
    + destruct (row_connection row) as [conn|] eqn:Hconn.
      * intros Hnil.
        assert (Hc : conn ∈ connections_of (clean_row <$> table) tag).
        { apply extract_connections_elem. exists row. split; [|done].
          by apply list_elem_of_filter. }
        rewrite Hnil in Hc. by apply elem_of_nil in Hc.
      * unfold row_connection in Hconn.
        apply names_a_node_test in Hfrom. by rewrite Hfrom in Hconn.
Qed.

Lemma extract_entry_iff_connection_witness :
  let table := [mkRow "P-100" "TK-01" "PU-01"; mkRow "P-200" "nan" "V-2"] in
  extract_complete_pipeline_flows table
  = Some [("P-100", mkEntry "P-100" 1 ["TK-01"; "PU-01"] (Some "TK-01")
                            (Some "PU-01") [mkSegment "TK-01" "PU-01"])] ∧
  NoDup ["P-100"] ∧
  ("P-200" ∈ ["P-100"] ↔
   names_a_node "P-200" ∧
   ∃ row, row ∈ clean_row <$> table ∧ row_Tag row = "P-200" ∧
          names_a_node (strip (row_From row))).
Proof.
  assert (Hrun : extract_complete_pipeline_flows
                   [mkRow "P-100" "TK-01" "PU-01"; mkRow "P-200" "nan" "V-2"]
                 = Some [("P-100", mkEntry "P-100" 1 ["TK-01"; "PU-01"] (Some "TK-01")
                                           (Some "PU-01") [mkSegment "TK-01" "PU-01"])])
    by (vm_compute; reflexivity).
  exact (conj Hrun (extract_entry_iff_connection _ _ "P-200" Hrun)).
Defined.

(** X8. No flow holds an empty node or the [nan] of a missing cell: every
    node of every [complete_flow] names a node. *)
Theorem extracted_flows_name_nodes (table : list Row)
        (flows : list (string * FlowEntry)) (tag : string) (e : FlowEntry)
        (node : string) :
  extract_complete_pipeline_flows table = Some flows →
  (tag, e) ∈ flows →
  node ∈ complete_flow e →
  names_a_node node.
Proof.
  intros Hrun Hin Hnode.
  destruct (extract_total table) as (flows' & Hrun' & _ & _ & Hentries).
  rewrite Hrun in Hrun'. injection Hrun' as <-.
  destruct (Hentries tag e Hin) as (fl & Hfl & _ & _ & ->). simpl in Hnode.
  rewrite build_flow_spec in Hfl. injection Hfl as <-.
  apply spec_buildFlow_elem in Hnode as (conn & Hconn & Hnode).
  apply extract_connections_elem in Hconn as (row & _ & Hconn).
  apply row_connection_names in Hconn as [??].
  by destruct Hnode as [-> | ->].
Qed.

Lemma extracted_flows_name_nodes_witness :
  let table := [mkRow "P-100" " TK-01" "nan"; mkRow "P-100" "" "TK-01"] in
  let e := mkEntry "P-100" 1 ["TK-01"; "RELEASE"] (Some "TK-01") (Some "RELEASE")
                   [mkSegment "TK-01" "RELEASE"] in
  extract_complete_pipeline_flows table = Some [("P-100", e)] ∧
  names_a_node "RELEASE".
Proof.
  assert (Hrun : extract_complete_pipeline_flows
                   [mkRow "P-100" " TK-01" "nan"; mkRow "P-100" "" "TK-01"]
                 = Some [("P-100",
                          mkEntry "P-100" 1 ["TK-01"; "RELEASE"] (Some "TK-01")
                                  (Some "RELEASE") [mkSegment "TK-01" "RELEASE"])])
    by (vm_compute; reflexivity).
  refine (conj Hrun (extracted_flows_name_nodes _ _ "P-100" _ "RELEASE" Hrun _ _)).
  - left.
  - right. left.
Defined.

(** ** The flows as they are written out *)

Lemma save_flows_to_json_map (flows : list (string * FlowEntry)) : ∀ acc : dict,
  NoDup (acc.*1 ++ flows.*1) →
  save_flows_to_json flows acc
  = acc ++ ((λ item, (item.1, json_entry item.1 item.2)) <$> flows).
Proof.
  induction flows as [|[tag e] flows IH]; intros acc Hnodup; simpl.
  { by rewrite app_nil_r. }
  simpl in Hnodup.
  assert (Htag : tag ∉ acc.*1).
  { apply NoDup_app in Hnodup as (_ & Hdisj & _). intros Hin.
    apply (Hdisj _ Hin). left. }
  rewrite dict_set_new by done. rewrite IH.
  - by rewrite <- app_assoc.
  - rewrite fmap_app, <- app_assoc. done.
Qed.

(** X9. What [save_flows_to_json] writes for the flows that were extracted:
    one dictionary a pipeline, under its tag and in the order of the
    entries, which the classifier accepts as a pipeline; its [start] and
    [end] are strings, the first and the last label of [complete_flow], and
    [flow_length] is the number of labels. *)
Theorem saved_flows_are_well_formed (table : list Row)
        (flows : list (string * FlowEntry)) :
  extract_complete_pipeline_flows table = Some flows →
  (save_flows_to_json flows []).*1 = flows.*1 ∧
  ∀ tag v, (tag, v) ∈ save_flows_to_json flows [] →
    well_formed_pipe v ∧
    ∃ nodes s t,
      getitem v "pipeline_tag" = Some (VStr tag) ∧
      getitem v "complete_flow" = Some (VList (VStr <$> nodes)) ∧
      getitem v "start" = Some (VStr s) ∧ head nodes = Some s ∧
      getitem v "end" = Some (VStr t) ∧ last nodes = Some t ∧
      getitem v "flow_length" = Some (VInt (Z.of_nat (length nodes))).
Proof.
  intros Hrun.
  destruct (extract_total table) as (flows' & Hrun' & Hnodup & _ & Hentries).
  rewrite Hrun in Hrun'. injection Hrun' as <-.
  rewrite save_flows_to_json_map by done. rewrite app_nil_l. split.
  { rewrite <- list_fmap_compose. done. }
  intros tag v Hin.
  apply list_elem_of_fmap in Hin as ([tag' e] & [= -> ->] & Hin). simpl.
  destruct (Hentries tag' e Hin) as (fl & Hfl & _ & Hne & ->).
  destruct (connections_of (clean_row <$> table) tag') as [|c rest]; [done|].
  destruct (build_flow_ends c rest) as (fl' & s & t & Hfl' & _ & Hs & Ht & _).
  rewrite Hfl in Hfl'. injection Hfl' as <-.
  split.
  - eexists. split; [done|]. intros conns Hconns. cbn in Hconns.
    injection Hconns as <-.
    rewrite Forall_forall. intros v Hv.
    apply elem_of_cons in Hv as [->|Hv]; [by eexists|].
    apply list_elem_of_fmap in Hv as (conn & -> & _). by eexists.
  - exists fl, s, t. cbn. rewrite Hs, Ht. done.
Qed.

Lemma saved_flows_are_well_formed_witness :
  let table := [mkRow "P-100" "TK-01" "PU-01"; mkRow "P-100" "PU-01" ""] in
  let e := mkEntry "P-100" 2 ["TK-01"; "PU-01"; "RELEASE"] (Some "TK-01")
                   (Some "RELEASE")
                   [mkSegment "TK-01" "PU-01"; mkSegment "PU-01" "RELEASE"] in
  extract_complete_pipeline_flows table = Some [("P-100", e)] ∧
  (save_flows_to_json [("P-100", e)] []).*1 = ["P-100"] ∧
  ∀ tag v, (tag, v) ∈ save_flows_to_json [("P-100", e)] [] →
    well_formed_pipe v ∧
    ∃ nodes s t,
      getitem v "pipeline_tag" = Some (VStr tag) ∧
      getitem v "complete_flow" = Some (VList (VStr <$> nodes)) ∧
      getitem v "start" = Some (VStr s) ∧ head nodes = Some s ∧
      getitem v "end" = Some (VStr t) ∧ last nodes = Some t ∧
      getitem v "flow_length" = Some (VInt (Z.of_nat (length nodes))).
Proof.
  assert (Hrun : extract_complete_pipeline_flows
                   [mkRow "P-100" "TK-01" "PU-01"; mkRow "P-100" "PU-01" ""]
                 = Some [("P-100",
                          mkEntry "P-100" 2 ["TK-01"; "PU-01"; "RELEASE"] (Some "TK-01")
                                  (Some "RELEASE")
                                  [mkSegment "TK-01" "PU-01";
                                   mkSegment "PU-01" "RELEASE"])])
    by (vm_compute; reflexivity).
  exact (conj Hrun (saved_flows_are_well_formed _ _ Hrun)).
Defined.

(** * Properties of the normalization stage *)

Section RecursiveNormalize.

Variable all_pipeline_tags : list string.
Variable skip_keys : list string.

#[local] Abbreviation rn := (recursive_normalize all_pipeline_tags skip_keys).
#[local] Abbreviation held := (normalize_held all_pipeline_tags skip_keys).
#[local] Abbreviation field :=
  (λ item : string * value,
     (item.1, if decide (item.1 ∈ skip_keys) then item.2 else held item.2)).

Implicit Types (v x : value) (d : dict) (l : list value) (s : string)
  (path : list step).

Lemma recursive_normalize_dict d : rn (VDict d) = VDict (field <$> d).
Proof.
  simpl. f_equal. induction d as [|[k v] d IH]; [done|].
  rewrite fmap_cons, <- IH. done.
Qed.

Lemma recursive_normalize_list l : rn (VList l) = VList (held <$> l).
Proof.
  simpl. by f_equal.
Qed.

Lemma normalize_held_not_str v : is_str v = false → held v = rn v.
Proof. by destruct v. Qed.

Lemma recursive_normalize_is_str v : is_str (rn v) = is_str v.
Proof. by destruct v. Qed.

Lemma normalize_unless_pipeline_cases s :
  (s ∈ all_pipeline_tags ∧ normalize_unless_pipeline all_pipeline_tags s = VStr s) ∨
  ((s ∉ all_pipeline_tags) ∧
   normalize_unless_pipeline all_pipeline_tags s = VStr (lower (re_sub_non_alnum s))).
Proof.
  unfold normalize_unless_pipeline.
  destruct (decide (s ∈ all_pipeline_tags)); [by left|by right].
Qed.

Lemma normalize_unless_pipeline_idem s :
  held (normalize_unless_pipeline all_pipeline_tags s)
  = normalize_unless_pipeline all_pipeline_tags s.
Proof.
  destruct (normalize_unless_pipeline_cases s) as [[Hin ->]|[Hin ->]]; simpl.
  - unfold normalize_unless_pipeline. by rewrite decide_True.
  - unfold normalize_unless_pipeline.
    destruct (decide (_ ∈ all_pipeline_tags)); [done|].
    simpl. by rewrite normalize_idem.
Qed.

Lemma recursive_normalize_idem v : rn (rn v) = rn v ∧ held (held v) = held v.
Proof.
  induction v as [| | | |s|l IH|d IH] using value_deep_ind; try done.
  - split; [done|]. apply normalize_unless_pipeline_idem.
  - assert (Hrn : rn (rn (VList l)) = rn (VList l)).
    { rewrite !recursive_normalize_list, <- list_fmap_compose. f_equal.
      apply Forall_fmap_ext_1. eapply Forall_impl; [exact IH|].
      intros v [_ Hv]. exact Hv. }
    split; [done|]. exact Hrn.
  - assert (Hrn : rn (rn (VDict d)) = rn (VDict d)).
    { rewrite !recursive_normalize_dict, <- list_fmap_compose. f_equal.
      apply Forall_fmap_ext_1. eapply Forall_impl; [exact IH|].
      intros [k v] [_ Hv]. simpl in *.
      destruct (decide (k ∈ skip_keys)); [done|]. by rewrite Hv. }
    split; [done|]. exact Hrn.
Qed.

Lemma dict_lookup_field d k :
  dict_lookup (field <$> d) k
  = (λ v, if decide (k ∈ skip_keys) then v else held v) <$> dict_lookup d k.
Proof.
  induction d as [|[k' v] d IH]; [done|].
  rewrite fmap_cons. simpl. destruct (decide (k' = k)) as [->|]; [done|]. apply IH.
Qed.

(** One step into a normalized value leads to what one step into the
    value leads to, normalized unless the field is skipped. *)
Lemma child_recursive_normalize v (st : step) :
  child (rn v) st
  = (λ c, if skips skip_keys [st] then c else held c) <$> child v st.
Proof.
  destruct v as [| | | | |l|d], st as [k|i]; try done.
  - rewrite recursive_normalize_list. simpl. by rewrite list_lookup_fmap.
  - rewrite recursive_normalize_dict. simpl.
    rewrite dict_lookup_field.
    destruct (dict_lookup d k); [|done]. simpl. rewrite orb_false_r.
    case_bool_decide; case_decide; done.
Qed.

Lemma child_not_str v (st : step) c : child v st = Some c → is_str v = false.
Proof. by destruct v. Qed.

Lemma at_path_not_str v path x :
  at_path v path = Some x → path ≠ [] → is_str v = false.
Proof.
  destruct path as [|st path]; [done|]. simpl. intros Hx _.
  apply bind_Some in Hx as (c & Hc & _). by eapply child_not_str.
Qed.

Lemma at_path_recursive_normalize path : ∀ v,
  path ≠ [] →
  at_path (rn v) path
  = (λ x, if skips skip_keys path then x else held x) <$> at_path v path.
Proof.
  induction path as [|st path IH]; intros v Hne; [done|].
  cbn [at_path]. rewrite child_recursive_normalize.
  destruct (child v st) as [c|]; [|done]. cbn [fmap option_fmap option_map mbind option_bind].
  assert (Hst : skips skip_keys (st :: path)
                = if skips skip_keys [st] then true else skips skip_keys path).
  { unfold skips. simpl. rewrite orb_false_r. by destruct st. }
  rewrite Hst.
  destruct (skips skip_keys [st]) eqn:Hskip.
  - by destruct (at_path c path).
  - destruct path as [|st' path'].
    + done.
    + destruct (at_path c (st' :: path')) as [x|] eqn:Hx.
      * rewrite normalize_held_not_str by (by eapply at_path_not_str).
        rewrite IH by done. by rewrite Hx.
      * destruct (is_str c) eqn:Hc.
        { destruct c; try done. simpl.
          by destruct (normalize_unless_pipeline_cases s) as [[_ ->]|[_ ->]]. }
        rewrite normalize_held_not_str by done.
        rewrite IH by done. by rewrite Hx.
Qed.

Lemma lower_alnum_normalized s : lower_alnum (lower (re_sub_non_alnum s)).
Proof.
  unfold lower_alnum, chars. induction s as [|c s IH]; simpl; [constructor|].
  destruct (is_ascii_alnum c) eqn:Hc; [|done]. simpl. constructor; [|done].
  revert Hc. destruct c as [[] [] [] [] [] [] [] []]; vm_compute;
    intros H; (discriminate H || reflexivity).
Qed.

End RecursiveNormalize.

(** ** What [recursive_normalize] changes and what it keeps *)

(** X10. Normalizing twice is normalizing once, whatever the pipeline tags
    and the skipped keys are. *)
Theorem recursive_normalize_idempotent
        (all_pipeline_tags skip_keys : list string) (obj : value) :
  recursive_normalize all_pipeline_tags skip_keys
    (recursive_normalize all_pipeline_tags skip_keys obj)
  = recursive_normalize all_pipeline_tags skip_keys obj.
Proof. apply recursive_normalize_idem. Qed.

(** X11. [recursive_normalize] keeps the shape of a value: a path of
    fields and list positions leads somewhere in the result exactly when
    it does in the input. What it leads to is the input's value as it was
    when the path goes through a skipped field, and otherwise that value
    normalized: a string by [normalize_tag] unless it is a pipeline tag, a
    dictionary or a list recursively, anything else unchanged. *)
Theorem recursive_normalize_keeps_shape
        (all_pipeline_tags skip_keys : list string) (obj : value)
        (path : list step) :
  path ≠ [] →
  at_path (recursive_normalize all_pipeline_tags skip_keys obj) path
  = (λ x, if skips skip_keys path then x
          else normalize_held all_pipeline_tags skip_keys x)
    <$> at_path obj path.
Proof. apply at_path_recursive_normalize. Qed.

Lemma recursive_normalize_keeps_shape_witness :
  let obj := VDict [("pipeline_tag", VStr "P 1"); ("complete_flow", VList [VStr "TK-01"])] in
  [Field "complete_flow"; Item 0] ≠ [] ∧
  at_path (recursive_normalize ["P-100"] ["pipeline_tag"] obj)
          [Field "complete_flow"; Item 0]
  = Some (VStr "tk01").
Proof.
  split; [done|].
  exact (recursive_normalize_keeps_shape ["P-100"] ["pipeline_tag"]
           (VDict [("pipeline_tag", VStr "P 1"); ("complete_flow", VList [VStr "TK-01"])])
           [Field "complete_flow"; Item 0] ltac:(done)).
Defined.

(** X12. After [recursive_normalize] every string that a dictionary or a
    list holds, outside the skipped fields, is a pipeline tag or consists
    of lower-case ASCII letters and digits only. *)
Theorem normalized_strings_are_plain
        (all_pipeline_tags skip_keys : list string) (obj : value)
        (path : list step) (s : string) :
  path ≠ [] →
  skips skip_keys path = false →
  at_path (recursive_normalize all_pipeline_tags skip_keys obj) path = Some (VStr s) →
  s ∈ all_pipeline_tags ∨ lower_alnum s.
Proof.
  intros Hne Hskip. rewrite at_path_recursive_normalize by done. rewrite Hskip.
  destruct (at_path obj path) as [x|]; [|done]. simpl. intros [= Hx].
  destruct x as [| | | |s'|l|d]; try done.
  simpl in Hx.
  destruct (normalize_unless_pipeline_cases all_pipeline_tags s')
    as [[Hin Hs]|[_ Hs]]; rewrite Hs in Hx; injection Hx as <-.
  - by left.
  - right. apply lower_alnum_normalized.
Qed.

Lemma normalized_strings_are_plain_witness :
  let obj := VDict [("start", VStr "TK-01"); ("end", VStr "P-100")] in
  [Field "start"] ≠ [] ∧
  skips ["pipeline_tag"] [Field "start"] = false ∧
  at_path (recursive_normalize ["P-100"] ["pipeline_tag"] obj) [Field "start"]
  = Some (VStr "tk01") ∧
  ("tk01" ∈ ["P-100"] ∨ lower_alnum "tk01").
Proof.
  split; [done|]. split; [done|]. split; [done|].
  exact (normalized_strings_are_plain ["P-100"] ["pipeline_tag"]
           (VDict [("start", VStr "TK-01"); ("end", VStr "P-100")])
           [Field "start"] "tk01" ltac:(done) eq_refl eq_refl).
Defined.

(** X13. A string that is a pipeline tag is left as it is wherever a
    dictionary or a list holds it. *)
Theorem pipeline_tags_survive
        (all_pipeline_tags skip_keys : list string) (obj : value)
        (path : list step) (tag : string) :
  tag ∈ all_pipeline_tags →
  at_path obj path = Some (VStr tag) →
  at_path (recursive_normalize all_pipeline_tags skip_keys obj) path
  = Some (VStr tag).
Proof.
  intros Htag Hpath. destruct path as [|st path].
  { simpl in *. by injection Hpath as ->. }
  rewrite at_path_recursive_normalize by done. rewrite Hpath. simpl.
  destruct (_ || _); [done|].
  unfold normalize_unless_pipeline. by rewrite decide_True.
Qed.

Lemma pipeline_tags_survive_witness :
  let obj := VDict [("start", VStr "TK-01"); ("end", VStr "P-100")] in
  "P-100" ∈ ["P-100"] ∧
  at_path obj [Field "end"] = Some (VStr "P-100") ∧
  at_path (recursive_normalize ["P-100"] ["pipeline_tag"] obj) [Field "end"]
  = Some (VStr "P-100").
Proof.
  assert (Hin : "P-100" ∈ ["P-100"]) by left.
  split; [done|]. split; [done|].
  exact (pipeline_tags_survive ["P-100"] ["pipeline_tag"]
           (VDict [("start", VStr "TK-01"); ("end", VStr "P-100")])
           [Field "end"] "P-100" Hin eq_refl).
Defined.

(** ** The tables and the document *)

Section NormalizeDocument.

Variable all_pipeline_tags : list string.

Implicit Types (d rec_copy pd process_data flow_data : dict) (v records : value)
  (recs : list value) (k table : string).

Lemma normalize_record_spec d :
  ∃ d', normalize_record all_pipeline_tags "Tag" (VDict d) = Some (VDict d') ∧
        d'.*1 = d.*1 ∧
        (∀ k, k ≠ "Tag" → dict_lookup d' k = dict_lookup d k) ∧
        dict_lookup d' "Tag"
        = normalize_tag_value all_pipeline_tags <$> dict_lookup d "Tag".
Proof.
  unfold normalize_record.
  destruct (dict_lookup d "Tag") as [tag_value|] eqn:Htag; [|by exists d].
  destruct tag_value as [| | | |s|l|items];
    try (exists d; rewrite Htag; done).
  unfold normalize_tag_value, normalize_unless_pipeline. simpl.
  destruct (decide (s ∈ all_pipeline_tags)).
  { exists d. by rewrite Htag. }
  eexists. split; [done|]. split; [|split].
  - apply dict_set_keys_old. apply dict_lookup_Some_elem in Htag.
    apply list_elem_of_fmap. by exists ("Tag", VStr s).
  - intros k Hk. by apply dict_lookup_set_ne.
  - by rewrite dict_lookup_set_eq.
Qed.

Lemma normalize_records_spec recs :
  Forall is_dict recs →
  ∃ recs',
    mapM (normalize_record all_pipeline_tags "Tag") recs = Some recs' ∧
    Forall2 (λ rec rec', ∃ d d', rec = VDict d ∧ rec' = VDict d' ∧
               d'.*1 = d.*1 ∧
               (∀ k, k ≠ "Tag" → dict_lookup d' k = dict_lookup d k) ∧
               dict_lookup d' "Tag"
               = normalize_tag_value all_pipeline_tags <$> dict_lookup d "Tag")
            recs recs'.
Proof.
  induction 1 as [|rec recs [d ->] _ (recs' & Hrecs & Hall)].
  { exists []. split; [done|constructor]. }
  destruct (normalize_record_spec d) as (d' & Hd & Hkeys & Hother & Htag).
  exists (VDict d' :: recs'). split.
  - cbn [mapM]. rewrite Hd. cbn [mbind option_bind]. rewrite Hrecs. done.
  - constructor; [|done]. by exists d, d'.
Qed.

Lemma normalize_tag_in_records_records records :
  is_records records →
  ∃ new_records,
    normalize_tag_in_records all_pipeline_tags records "Tag" = Some new_records ∧
    is_records new_records.
Proof.
  intros (recs & -> & Hall). unfold normalize_tag_in_records. simpl.
  destruct (normalize_records_spec recs Hall) as (recs' & -> & Hall').
  simpl. eexists. split; [done|]. exists recs'. split; [done|].
  clear Hall. induction Hall' as [|rec rec' recs recs' (d & d' & _ & -> & _) _ IH];
    constructor; [by exists d'|done].
Qed.

Lemma normalize_table_spec table pd :
  (∀ records, dict_lookup pd table = Some records → is_records records) →
  ∃ pd',
    normalize_table all_pipeline_tags table (VDict pd) = Some (VDict pd') ∧
    pd'.*1 = pd.*1 ∧
    (∀ k, k ≠ table → dict_lookup pd' k = dict_lookup pd k) ∧
    (∀ records, dict_lookup pd' table = Some records → is_records records).
Proof.
  intros Hwf. unfold normalize_table. cbn [py_in getitem setitem].
  case_bool_decide as Hin.
  - destruct Hin as [records Hrecords]. rewrite Hrecords. cbn [mbind option_bind].
    destruct (normalize_tag_in_records_records records (Hwf _ Hrecords))
      as (new_records & -> & Hnew).
    cbn [mbind option_bind]. eexists. split; [done|]. split; [|split].
    + apply dict_set_keys_old. apply dict_lookup_Some_elem in Hrecords.
      apply list_elem_of_fmap. by exists (table, records).
    + intros k Hk. by apply dict_lookup_set_ne.
    + intros records'. rewrite dict_lookup_set_eq. by intros [= <-].
  - exists pd. split; [done|]. split; [done|]. split; [done|].
    intros records Hrecords. destruct Hin. by exists records.
Qed.

Lemma normalize_flows_map flow_data : ∀ acc : dict,
  NoDup (acc.*1 ++ flow_data.*1) →
  normalize_flows all_pipeline_tags flow_data acc
  = acc ++ ((λ item, (item.1, recursive_normalize all_pipeline_tags ["pipeline_tag"]
                                                  item.2)) <$> flow_data).
Proof.
  induction flow_data as [|[tag info] flows IH]; intros acc Hnodup; simpl.
  { by rewrite app_nil_r. }
  simpl in Hnodup.
  assert (Htag : tag ∉ acc.*1).
  { apply NoDup_app in Hnodup as (_ & Hdisj & _). intros Hin.
    apply (Hdisj _ Hin). left. }
  rewrite dict_set_new by done. rewrite IH.
  - by rewrite <- app_assoc.
  - rewrite fmap_app, <- app_assoc. done.
Qed.

Lemma normalize_flows_elem flow_data : ∀ (acc : dict) tag v,
  (tag, v) ∈ normalize_flows all_pipeline_tags flow_data acc →
  (tag, v) ∈ acc ∨
  ∃ info, (tag, info) ∈ flow_data ∧
          v = recursive_normalize all_pipeline_tags ["pipeline_tag"] info.
Proof.
  induction flow_data as [|[tag' info'] flows IH]; intros acc tag v Hin; simpl in Hin.
  { by left. }
  apply IH in Hin as [Hin|(info & Hinfo & ->)].
  - apply dict_set_elem in Hin as [Hin|[= -> ->]]; [by left|].
    right. exists info'. split; [left|done].
  - right. exists info. split; [by right|done].
Qed.

Lemma recursive_normalize_well_formed_pipe pipe_info :
  well_formed_pipe pipe_info →
  well_formed_pipe (recursive_normalize all_pipeline_tags ["pipeline_tag"] pipe_info).
Proof.
  intros (d & -> & Hconns). rewrite recursive_normalize_dict.
  eexists. split; [done|]. intros conns'. rewrite dict_lookup_field.
  destruct (dict_lookup d "all_connections") as [c|] eqn:Hc; [|done].
  cbn [fmap option_fmap option_map].
  destruct (decide ("all_connections" ∈ ["pipeline_tag"])) as [Hin|_];
    [by apply list_elem_of_singleton in Hin|].
  intros [= Hc']. destruct c as [| | | |s|conns|items]; try done.
  - simpl in Hc'.
    by destruct (normalize_unless_pipeline_cases all_pipeline_tags s)
      as [[_ Hs]|[_ Hs]]; rewrite Hs in Hc'.
  - change (recursive_normalize all_pipeline_tags ["pipeline_tag"] (VList conns)
            = VList conns') in Hc'.
    rewrite recursive_normalize_list in Hc'. injection Hc' as <-.
    specialize (Hconns conns eq_refl). rewrite Forall_fmap.
    eapply Forall_impl; [exact Hconns|]. intros conn [items ->]. simpl.
    eexists. apply recursive_normalize_dict.
Qed.

End NormalizeDocument.

Lemma normalize_merged_pid_spec data :
  well_formed_document data →
  ∃ flow_data process_data process_data',
    get_dict data "complete_pipeline_flows" = Some flow_data ∧
    get_dict data "process_data" = Some process_data ∧
    normalize_merged_pid data
    = Some (VDict [("complete_pipeline_flows",
                    VDict (normalize_flows flow_data.*1 flow_data []));
                   ("process_data", VDict process_data')]) ∧
    process_data'.*1 = process_data.*1 ∧
    (∀ k, k ∉ ["Equipment"; "Instrumentation"; "HandValves"] →
          dict_lookup process_data' k = dict_lookup process_data k) ∧
    (∀ table records, table ∈ ["Equipment"; "Instrumentation"; "HandValves"] →
       dict_lookup process_data' table = Some records → is_records records).
Proof.
  intros (flow_data & process_data & Hflows & Hproc & Htables & Hpipes).
  exists flow_data, process_data.
  unfold normalize_merged_pid. rewrite Hflows. cbn [mbind option_bind].
  assert (Hget : get data "process_data" (VDict []) = Some (VDict process_data)).
  { unfold get_dict in Hproc. apply bind_Some in Hproc as (v & Hv & Hd).
    rewrite Hv. by destruct v; try done; injection Hd as ->. }
  rewrite Hget. cbn [mbind option_bind].
  destruct (normalize_table_spec flow_data.*1 "Equipment" process_data)
    as (pd1 & -> & Hkeys1 & Hother1 & Hrec1).
  { intros records. apply Htables. rewrite !elem_of_cons. auto. }
  cbn [mbind option_bind].
  destruct (normalize_table_spec flow_data.*1 "Instrumentation" pd1)
    as (pd2 & -> & Hkeys2 & Hother2 & Hrec2).
  { intros records. rewrite Hother1 by done. apply Htables.
    rewrite !elem_of_cons. auto. }
  cbn [mbind option_bind].
  destruct (normalize_table_spec flow_data.*1 "HandValves" pd2)
    as (pd3 & -> & Hkeys3 & Hother3 & Hrec3).
  { intros records. rewrite Hother2, Hother1 by done. apply Htables.
    rewrite !elem_of_cons. auto. }
  cbn [mbind option_bind].
  exists pd3. split; [done|]. split; [done|]. split; [done|].
  split; [congruence|]. split.
  - intros k Hk. rewrite !not_elem_of_cons in Hk. destruct Hk as (? & ? & ? & _).
    rewrite Hother3, Hother2, Hother1 by done. done.
  - intros table records Htable.
    rewrite !elem_of_cons, elem_of_nil in Htable.
    destruct Htable as [->|[->|[->|[]]]].
    + rewrite Hother3, Hother2 by done. apply Hrec1.
    + rewrite Hother3 by done. apply Hrec2.
    + apply Hrec3.
Qed.

Lemma dict_lookup_fmap_values (f : value → value) (d : dict) (k : string) :
  dict_lookup ((λ item, (item.1, f item.2)) <$> d) k = f <$> dict_lookup d k.
Proof.
  induction d as [|[k' v] d IH]; [done|].
  rewrite fmap_cons. simpl. destruct (decide (k' = k)); [done|]. apply IH.
Qed.

(** X14. [normalize_tag_in_records] returns as many records as it is
    given, in the same order and with the same fields; in each it changes
    at most the value of [Tag], which becomes its normalization when it is
    a string that is no pipeline tag. *)
Theorem normalize_tag_in_records_only_tag
        (all_pipeline_tags : list string) (recs : list value) :
  Forall is_dict recs →
  ∃ recs',
    normalize_tag_in_records all_pipeline_tags (VList recs) "Tag"
    = Some (VList recs') ∧
    length recs' = length recs ∧
    ∀ i d, recs !! i = Some (VDict d) →
      ∃ d', recs' !! i = Some (VDict d') ∧
            d'.*1 = d.*1 ∧
            (∀ k, k ≠ "Tag" → dict_lookup d' k = dict_lookup d k) ∧
            dict_lookup d' "Tag"
            = normalize_tag_value all_pipeline_tags <$> dict_lookup d "Tag".
Proof.
  intros Hall. unfold normalize_tag_in_records. simpl.
  destruct (normalize_records_spec all_pipeline_tags recs Hall)
    as (recs' & -> & Hall').
  simpl. exists recs'. split; [done|]. split.
  { symmetry. by eapply Forall2_length. }
  intros i d Hi.
  destruct (Forall2_lookup_l _ _ _ _ _ Hall' Hi)
    as (rec' & Hi' & d0 & d' & [= <-] & -> & Hkeys & Hother & Htag).
  by exists d'.
Qed.

Lemma normalize_tag_in_records_only_tag_witness :
  let recs := [VDict [("Tag", VStr "TK-01"); ("EquipmentSpec", VStr "Tank A")];
               VDict [("Tag", VStr "P-100")]] in
  Forall is_dict recs ∧
  ∃ recs',
    normalize_tag_in_records ["P-100"] (VList recs) "Tag" = Some (VList recs') ∧
    length recs' = length recs ∧
    ∀ i d, recs !! i = Some (VDict d) →
      ∃ d', recs' !! i = Some (VDict d') ∧
            d'.*1 = d.*1 ∧
            (∀ k, k ≠ "Tag" → dict_lookup d' k = dict_lookup d k) ∧
            dict_lookup d' "Tag"
            = normalize_tag_value ["P-100"] <$> dict_lookup d "Tag".
Proof.
  assert (Hall : Forall is_dict
                   [VDict [("Tag", VStr "TK-01"); ("EquipmentSpec", VStr "Tank A")];
                    VDict [("Tag", VStr "P-100")]]).
  { repeat constructor; by eexists. }
  exact (conj Hall (normalize_tag_in_records_only_tag ["P-100"] _ Hall)).
Defined.

(** X15. On a document as the merge stage writes it,
    [normalize_merged_pid] returns a document of the same form, on which
    the classifier returns in turn. *)
Theorem normalized_document_is_classifiable (data : value) :
  well_formed_document data →
  ∃ out,
    normalize_merged_pid data = Some out ∧
    well_formed_document out ∧
    ∀ (container_repr : value → string) (set_order : list string → list string)
      (threshold : Q),
      ∃ result,
        classify_tags_preserve_flow container_repr set_order threshold out
        = Some result.
Proof.
  intros Hwf.
  destruct (normalize_merged_pid_spec data Hwf)
    as (flow_data & process_data & process_data' & Hflows & Hproc & Hrun & _ & _ & Htables).
  destruct Hwf as (flow_data0 & process_data0 & Hflows0 & _ & _ & Hpipes).
  rewrite Hflows in Hflows0. injection Hflows0 as <-.
  eexists. split; [exact Hrun|].
  assert (Hout : well_formed_document
                   (VDict [("complete_pipeline_flows",
                            VDict (normalize_flows flow_data.*1 flow_data []));
                           ("process_data", VDict process_data')])).
  { exists (normalize_flows flow_data.*1 flow_data []), process_data'.
    split; [done|]. split; [done|]. split; [done|].
    intros pipe_tag pipe_info Hin.
    apply normalize_flows_elem in Hin as [Hin|(info & Hinfo & ->)].
    - by apply elem_of_nil in Hin.
    - apply recursive_normalize_well_formed_pipe. by eapply Hpipes. }
  split; [done|]. intros container_repr set_order threshold.
  by apply classify_total.
Qed.

Lemma normalized_document_is_classifiable_witness :
  well_formed_document example_document ∧
  ∃ out,
    normalize_merged_pid example_document = Some out ∧
    well_formed_document out ∧
    ∀ (container_repr : value → string) (set_order : list string → list string)
      (threshold : Q),
      ∃ result,
        classify_tags_preserve_flow container_repr set_order threshold out
        = Some result.
Proof.
  assert (Hwf : well_formed_document example_document).
  { eexists _, _. split; [reflexivity|]. split; [reflexivity|]. split.
    - intros table records _. cbn.
      repeat (case_decide; [intros [= <-]; eexists; split; [done|];
                            repeat constructor; by eexists|]).
      done.
    - intros pipe_tag pipe_info Hin. apply list_elem_of_singleton in Hin.
      injection Hin as -> ->. eexists. split; [done|]. cbn. intros conns [= <-].
      repeat constructor; by eexists. }
  exact (conj Hwf (normalized_document_is_classifiable example_document Hwf)).
Defined.

Lemma normalize_merged_pid_flows (data out : value) (flow_data : dict) :
  get_dict data "complete_pipeline_flows" = Some flow_data →
  NoDup flow_data.*1 →
  normalize_merged_pid data = Some out →
  ∃ normalized_flows,
    get_dict out "complete_pipeline_flows" = Some normalized_flows ∧
    normalized_flows.*1 = flow_data.*1 ∧
    ∀ pipe_tag pipe_info,
      dict_lookup flow_data pipe_tag = Some pipe_info →
      dict_lookup normalized_flows pipe_tag
      = Some (recursive_normalize flow_data.*1 ["pipeline_tag"] pipe_info).
Proof.
  intros Hflows Hnodup. unfold normalize_merged_pid. rewrite Hflows.
  cbn [mbind option_bind]. intros Hrun.
  apply bind_Some in Hrun as (pd0 & _ & Hrun).
  apply bind_Some in Hrun as (pd1 & _ & Hrun).
  apply bind_Some in Hrun as (pd2 & _ & Hrun).
  apply bind_Some in Hrun as (pd3 & _ & Hrun).
  injection Hrun as <-.
  eexists. split; [done|].
  rewrite normalize_flows_map by done. rewrite app_nil_l. split.
  { rewrite <- list_fmap_compose. done. }
  intros pipe_tag pipe_info Hpipe.
  by rewrite dict_lookup_fmap_values, Hpipe.
Qed.

(** X16. The normalized document holds the pipelines of the input under
    their own keys, untouched and in the same order, and each pipeline is
    the input's pipeline normalized with every key of the flows mapping
    as a pipeline tag and [pipeline_tag] as the only skipped field. (The
    keys of a dictionary are distinct.) *)
Theorem normalize_merged_pid_keeps_pipeline_keys
        (data out : value) (flow_data : dict) :
  get_dict data "complete_pipeline_flows" = Some flow_data →
  NoDup flow_data.*1 →
  normalize_merged_pid data = Some out →
  ∃ normalized_flows,
    get_dict out "complete_pipeline_flows" = Some normalized_flows ∧
    normalized_flows.*1 = flow_data.*1 ∧
    ∀ pipe_tag pipe_info,
      dict_lookup flow_data pipe_tag = Some pipe_info →
      dict_lookup normalized_flows pipe_tag
      = Some (recursive_normalize flow_data.*1 ["pipeline_tag"] pipe_info).
Proof. apply normalize_merged_pid_flows. Qed.

Lemma normalize_merged_pid_keeps_pipeline_keys_witness :
  ∃ out flow_data,
    get_dict example_document "complete_pipeline_flows" = Some flow_data ∧
    NoDup flow_data.*1 ∧
    normalize_merged_pid example_document = Some out ∧
    ∃ normalized_flows,
      get_dict out "complete_pipeline_flows" = Some normalized_flows ∧
      normalized_flows.*1 = flow_data.*1 ∧
      ∀ pipe_tag pipe_info,
        dict_lookup flow_data pipe_tag = Some pipe_info →
        dict_lookup normalized_flows pipe_tag
        = Some (recursive_normalize flow_data.*1 ["pipeline_tag"] pipe_info).
Proof.
  eexists _, _.
  refine (let Hflows := eq_refl in
          let Hnodup := _ in
          let Hrun := eq_refl in
          conj Hflows (conj Hnodup (conj Hrun
            (normalize_merged_pid_keeps_pipeline_keys example_document _ _
               Hflows Hnodup Hrun)))).
  apply NoDup_singleton.
Defined.

(** * The classifier, node by node *)

Section ClassifierNodes.

Variable all_pipeline_tags : list string.
Variables equipment_tags instrument_tags handvalve_tags : dict.
Variable threshold : Q.

#[local] Abbreviation resolve :=
  (find_best_match all_pipeline_tags equipment_tags instrument_tags
                   handvalve_tags threshold).
#[local] Abbreviation classify :=
  (classify_tag all_pipeline_tags equipment_tags instrument_tags
                handvalve_tags threshold).
#[local] Abbreviation enrich :=
  (enrich_pipe all_pipeline_tags equipment_tags instrument_tags
               handvalve_tags threshold).

Lemma classify_tag_Some (tag classified_tag : value) :
  classify tag = Some classified_tag ↔
  ∃ m, resolve tag = Some m ∧ classified_tag = classified tag m.
Proof.
  unfold classify_tag. split.
  - intros (m & Hm & [= <-])%bind_Some. by exists m.
  - intros (m & -> & ->). done.
Qed.

Lemma classify_flow_exact (labels enriched : list value) i (label : value) :
  mapM classify labels = Some enriched →
  labels !! i = Some label →
  ∃ m, resolve label = Some m ∧ enriched !! i = Some (classified label m).
Proof.
  intros Hrun%mapM_Some Hi.
  destruct (Forall2_lookup_l _ _ _ _ _ Hrun Hi) as (node & Hnode & Hclass).
  apply classify_tag_Some in Hclass as (m & Hm & ->). by exists m.
Qed.

(** The flow of an enriched pipeline holds the resolver's verdict on each
    label of the original flow. *)
Lemma enrich_pipe_flow_exact (d : dict) (labels : list value) (new_pipe : value) :
  dict_lookup d "complete_flow" = Some (VList labels) →
  enrich (VDict d) = Some new_pipe →
  ∃ d' enriched,
    new_pipe = VDict d' ∧
    dict_lookup d' "complete_flow" = Some (VList enriched) ∧
    ∀ i label, labels !! i = Some label →
      ∃ m, resolve label = Some m ∧ enriched !! i = Some (classified label m).
Proof.
  intros Hflow. unfold enrich_pipe.
  intros (p1 & H1 & Hrun)%bind_Some.
  apply enrich_key_dict in H1 as (d1 & -> & _ & Hd1).
  apply bind_Some in Hrun as (p2 & H2 & Hrun).
  apply enrich_key_dict in H2 as (d2 & -> & _ & Hd2).
  apply bind_Some in Hrun as (p3 & H3 & H4).
  assert (dict_lookup d2 "complete_flow" = Some (VList labels)) as Hflow2.
  { rewrite Hd2, Hd1 by done. done. }
  apply (enrich_complete_flow_dict _ _ _ _ _ _ labels) in H3
    as (enriched & Hrun & ->); [|done].
  apply enrich_all_connections_dict in H4 as (d4 & -> & _ & Hd4).
  exists d4, enriched. split; [done|]. split.
  - rewrite Hd4 by done. apply dict_lookup_set_eq.
  - intros i label Hi. by eapply classify_flow_exact.
Qed.

End ClassifierNodes.

(** A node of the classified document is the resolver's verdict on the
    label at its place, with the keys of the flows mapping as pipeline
    tags and the three tables of the document as references. *)
Lemma classify_document_node
      (container_repr : value → string) (set_order : list string → list string)
      (threshold : Q) (data out : value) (flow_data pipe_info : dict)
      (pipe_tag : string) (labels : list value) (i : nat) (label : value) :
  classify_tags_preserve_flow container_repr set_order threshold data = Some out →
  get_dict data "complete_pipeline_flows" = Some flow_data →
  NoDup flow_data.*1 →
  dict_lookup flow_data pipe_tag = Some (VDict pipe_info) →
  dict_lookup pipe_info "complete_flow" = Some (VList labels) →
  labels !! i = Some label →
  ∃ process_data equipment_tags instrument_tags handvalve_tags m
    classified_flows new_pipe enriched,
    get_dict data "process_data" = Some process_data ∧
    reference_tags container_repr process_data "Equipment" = Some equipment_tags ∧
    reference_tags container_repr process_data "Instrumentation"
    = Some instrument_tags ∧
    reference_tags container_repr process_data "HandValves" = Some handvalve_tags ∧
    find_best_match (set_order flow_data.*1) equipment_tags instrument_tags
                    handvalve_tags threshold label = Some m ∧
    getitem out "complete_pipeline_flows" = Some (VDict classified_flows) ∧
    dict_lookup classified_flows pipe_tag = Some (VDict new_pipe) ∧
    dict_lookup new_pipe "complete_flow" = Some (VList enriched) ∧
    enriched !! i = Some (classified label m).
Proof.
  intros Hrun Hdata Hnodup Hpipe Hflow Hi.
  unfold classify_tags_preserve_flow in Hrun. rewrite Hdata in Hrun.
  cbn [mbind option_bind] in Hrun.
  apply bind_Some in Hrun as (process_data & Hproc & Hrun).
  apply bind_Some in Hrun as (equipment_tags & Heq & Hrun).
  apply bind_Some in Hrun as (instrument_tags & Hin & Hrun).
  apply bind_Some in Hrun as (handvalve_tags & Hhv & Hrun).
  apply bind_Some in Hrun as (classified_flows & Hflows & Hrun).
  injection Hrun as <-.
  destruct (enrich_flows_spec _ _ _ _ _ _ _ _ Hflows) as (_ & _ & Hitems); [done|].
  destruct (Hitems pipe_tag (VDict pipe_info)) as (new_pipe & Henrich & Hlook).
  { by apply dict_lookup_Some_elem. }
  destruct (enrich_pipe_flow_exact _ _ _ _ _ _ _ _ Hflow Henrich)
    as (d' & enriched & -> & Hcf & Hall).
  destruct (Hall i label Hi) as (m & Hm & Hnode).
  exists process_data, equipment_tags, instrument_tags, handvalve_tags, m,
    classified_flows, d', enriched.
  done.
Qed.

Lemma find_best_match_pipeline (all_pipeline_tags : list string)
      (equipment_tags instrument_tags handvalve_tags : dict) (threshold : Q)
      (tag : string) :
  tag ∈ all_pipeline_tags → strip tag ≠ "" →
  find_best_match all_pipeline_tags equipment_tags instrument_tags handvalve_tags
                  threshold (VStr tag)
  = Some (mkMatch Pipeline VNone 1).
Proof.
  intros Hin Hblank. simpl. rewrite bool_decide_eq_false_2 by done.
  by rewrite (proj2 (matches_pipeline_tag_spec tag all_pipeline_tags) Hin).
Qed.

(** ** From the classified document back to the resolver *)

(** X17. Every node of a classified flow is the resolver's verdict on the
    label at its place: the dictionary [{tag, category, details}] with the
    label itself and with the category and the details that
    [find_best_match] returns for it, where the pipeline tags are the keys
    of the flows mapping and the reference dictionaries are built from the
    three tables of the same document. *)
Theorem classifier_nodes_are_resolved
        (container_repr : value → string) (set_order : list string → list string)
        (threshold : Q) (data out : value) (flow_data pipe_info : dict)
        (pipe_tag : string) (labels : list value) (i : nat) (label : value) :
  classify_tags_preserve_flow container_repr set_order threshold data = Some out →
  get_dict data "complete_pipeline_flows" = Some flow_data →
  NoDup flow_data.*1 →
  dict_lookup flow_data pipe_tag = Some (VDict pipe_info) →
  dict_lookup pipe_info "complete_flow" = Some (VList labels) →
  labels !! i = Some label →
  ∃ process_data equipment_tags instrument_tags handvalve_tags m
    classified_flows new_pipe enriched,
    get_dict data "process_data" = Some process_data ∧
    reference_tags container_repr process_data "Equipment" = Some equipment_tags ∧
    reference_tags container_repr process_data "Instrumentation"
    = Some instrument_tags ∧
    reference_tags container_repr process_data "HandValves" = Some handvalve_tags ∧
    find_best_match (set_order flow_data.*1) equipment_tags instrument_tags
                    handvalve_tags threshold label = Some m ∧
    getitem out "complete_pipeline_flows" = Some (VDict classified_flows) ∧
    dict_lookup classified_flows pipe_tag = Some (VDict new_pipe) ∧
    dict_lookup new_pipe "complete_flow" = Some (VList enriched) ∧
    enriched !! i = Some (classified label m).
Proof. apply classify_document_node. Qed.

Lemma classifier_nodes_are_resolved_witness :
  ∃ flow_data pipe_info labels,
    classify_tags_preserve_flow (λ _, "") id default_threshold example_document
    = Some example_output ∧
    get_dict example_document "complete_pipeline_flows" = Some flow_data ∧
    NoDup flow_data.*1 ∧
    dict_lookup flow_data "P-100" = Some (VDict pipe_info) ∧
    dict_lookup pipe_info "complete_flow" = Some (VList labels) ∧
    labels !! 1 = Some (VStr "PU-01") ∧
    ∃ process_data equipment_tags instrument_tags handvalve_tags m
      classified_flows new_pipe enriched,
      get_dict example_document "process_data" = Some process_data ∧
      reference_tags (λ _, "") process_data "Equipment" = Some equipment_tags ∧
      reference_tags (λ _, "") process_data "Instrumentation" = Some instrument_tags ∧
      reference_tags (λ _, "") process_data "HandValves" = Some handvalve_tags ∧
      find_best_match (id flow_data.*1) equipment_tags instrument_tags
                      handvalve_tags default_threshold (VStr "PU-01") = Some m ∧
      getitem example_output "complete_pipeline_flows" = Some (VDict classified_flows) ∧
      dict_lookup classified_flows "P-100" = Some (VDict new_pipe) ∧
      dict_lookup new_pipe "complete_flow" = Some (VList enriched) ∧
      enriched !! 1 = Some (classified (VStr "PU-01") m).
Proof.
  assert (Hrun : classify_tags_preserve_flow (λ _, "") id default_threshold
                   example_document = Some example_output)
    by (vm_compute; reflexivity).
  assert (Hnodup : NoDup ["P-100"]) by apply NoDup_singleton.
  eexists _, _, _.
  exact (conj Hrun (conj eq_refl (conj Hnodup (conj eq_refl (conj eq_refl
           (conj eq_refl
              (classifier_nodes_are_resolved (λ _, "") id default_threshold
                 example_document example_output _ _ "P-100" _ 1 (VStr "PU-01")
                 Hrun eq_refl Hnodup eq_refl eq_refl eq_refl))))))).
Defined.

(** * The resolver as a search for the first best candidate *)

Section FirstBest.

Implicit Types (tag_lower ref_tag : string) (cands : list candidate)
  (best : match_result) (items : dict).

Lemma similarity_spec (a b : string) :
  ∃ q, similarity a b = Some q ∧ (0 <= q)%Q ∧ (q <= 1)%Q ∧ ((q == 1)%Q ↔ a = b).
Proof.
  destruct (similarity_total a b) as (q & Hq & H0 & H1).
  exists q. split; [done|]. split; [done|]. split; [done|].
  unfold similarity in Hq. split.
  - intros Hone. pose proof (ratio_one_eq _ _ _ Hq Hone) as Heq.
    unfold chars in Heq.
    rewrite <- (string_of_list_ascii_of_string a), <- (string_of_list_ascii_of_string b).
    by rewrite Heq.
  - intros <-. destruct (ratio_identical (chars a)) as (q' & Hq' & Hone).
    rewrite Hq in Hq'. by injection Hq' as <-.
Qed.

Lemma scan_tag_dict_candidates tag_lower cat_name items : ∀ best,
  scan_tag_dict tag_lower cat_name items best
  = scan_candidates tag_lower ((λ item, (cat_name, item.1, item.2)) <$> items) best.
Proof.
  induction items as [|[ref_tag details] items IH]; intros best; [done|].
  rewrite fmap_cons. simpl.
  destruct (similarity tag_lower ref_tag) as [score|]; [|done]. simpl. apply IH.
Qed.

Lemma scan_candidates_app tag_lower cands1 cands2 : ∀ best,
  scan_candidates tag_lower (cands1 ++ cands2) best
  = best1 ← scan_candidates tag_lower cands1 best;
    scan_candidates tag_lower cands2 best1.
Proof.
  induction cands1 as [|[[c r] d] cands1 IH]; intros best; [done|].
  simpl. destruct (similarity tag_lower r) as [score|]; [|done]. simpl. apply IH.
Qed.

(** The loop keeps the first of the best candidates seen so far. *)
Lemma scan_candidates_first_best tag_lower cands2 : ∀ cands1 best,
  (0 <= match_score best)%Q →
  first_best tag_lower cands1 best →
  ∃ best',
    scan_candidates tag_lower cands2 best = Some best' ∧
    (0 <= match_score best')%Q ∧
    first_best tag_lower (cands1 ++ cands2) best'.
Proof.
  induction cands2 as [|[[c r] d] cands2 IH]; intros cands1 best Hpos Hbest.
  { exists best. rewrite app_nil_r. done. }
  simpl. destruct (similarity_total tag_lower r) as (score & Hscore & Hscore0 & _).
  rewrite Hscore. cbn [mbind option_bind].
  destruct Hbest as [Hmax Hfirst].
  assert (Hstep : ∀ best1,
    (0 <= match_score best1)%Q →
    first_best tag_lower (cands1 ++ [(c, r, d)]) best1 →
    ∃ best',
      scan_candidates tag_lower cands2 best1 = Some best' ∧
      (0 <= match_score best')%Q ∧
      first_best tag_lower (cands1 ++ (c, r, d) :: cands2) best').
  { intros best1 Hpos1 Hbest1.
    destruct (IH _ _ Hpos1 Hbest1) as (best' & Hrun & Hpos' & Hfb).
    exists best'. rewrite <- app_assoc in Hfb. done. }
  destruct (Qlt_le_dec (match_score best) score) as [Hlt|Hle].
  - apply Hstep; [done|]. split.
    + intros c' r' d' [Hin|Hin]%elem_of_app.
      * destruct (Hmax _ _ _ Hin) as (q & Hq & Hle). exists q. split; [done|].
        simpl. apply Qlt_le_weak. exact (Qle_lt_trans _ _ _ Hle Hlt).
      * apply list_elem_of_singleton in Hin as [= -> -> ->].
        exists score. split; [done|]. simpl. apply Qle_refl.
    + right. exists (length cands1), c, r, d. simpl.
      split; [by rewrite lookup_app_r, Nat.sub_diag|].
      split; [done|]. split; [done|].
      split; [exact (Qle_lt_trans _ _ _ Hpos Hlt)|].
      intros j c' r' d' Hj Hlook. rewrite lookup_app_l in Hlook by done.
      apply list_elem_of_lookup_2 in Hlook.
      destruct (Hmax _ _ _ Hlook) as (q & Hq & Hle). exists q. split; [done|].
      exact (Qle_lt_trans _ _ _ Hle Hlt).
  - apply Hstep; [done|]. split.
    + intros c' r' d' [Hin|Hin]%elem_of_app; [by eapply Hmax|].
      apply list_elem_of_singleton in Hin as [= -> -> ->].
      exists score. done.
    + destruct Hfirst as [->|(i & c' & r' & d' & Hi & Hq & Hb & Hpos' & Hbefore)];
        [by left|].
      right. exists i, c', r', d'.
      split; [by apply lookup_app_l_Some|]. split; [done|]. split; [done|].
      split; [done|].
      intros j c'' r'' d'' Hj Hlook. apply (Hbefore j c'' r'' d'' Hj).
      apply lookup_lt_Some in Hi.
      by rewrite lookup_app_l in Hlook by lia.
Qed.

Lemma scan_tables_first_best tag_lower
      (equipment_tags instrument_tags handvalve_tags : dict) :
  ∃ best1 best2 best,
    scan_tag_dict tag_lower Equipment equipment_tags (mkMatch Node VNone 0)
    = Some best1 ∧
    scan_tag_dict tag_lower Instrumentation instrument_tags best1 = Some best2 ∧
    scan_tag_dict tag_lower Handvalve handvalve_tags best2 = Some best ∧
    first_best tag_lower (candidates equipment_tags instrument_tags handvalve_tags)
               best.
Proof.
  rewrite scan_tag_dict_candidates.
  destruct (scan_candidates_first_best tag_lower
              ((λ item, (Equipment, item.1, item.2)) <$> equipment_tags)
              [] (mkMatch Node VNone 0))
    as (best1 & Hrun1 & Hpos1 & Hbest1).
  { simpl. apply Qle_refl. }
  { split; [by intros ??? ?%elem_of_nil|by left]. }
  destruct (scan_candidates_first_best tag_lower
              ((λ item, (Instrumentation, item.1, item.2)) <$> instrument_tags)
              _ best1 Hpos1 Hbest1)
    as (best2 & Hrun2 & Hpos2 & Hbest2).
  destruct (scan_candidates_first_best tag_lower
              ((λ item, (Handvalve, item.1, item.2)) <$> handvalve_tags)
              _ best2 Hpos2 Hbest2)
    as (best & Hrun & Hpos & Hbest).
  exists best1, best2, best. rewrite !scan_tag_dict_candidates.
  split; [done|]. split; [done|]. split; [done|].
  unfold candidates. rewrite app_nil_l, <- app_assoc in Hbest. done.
Qed.

Lemma find_best_match_scan (all_pipeline_tags : list string)
      (equipment_tags instrument_tags handvalve_tags : dict) (threshold : Q)
      (tag : string) :
  strip tag ≠ "" →
  tag ∉ all_pipeline_tags →
  ∃ best,
    first_best (strip (lower tag))
               (candidates equipment_tags instrument_tags handvalve_tags) best ∧
    find_best_match all_pipeline_tags equipment_tags instrument_tags handvalve_tags
                    threshold (VStr tag)
    = Some (if Qlt_le_dec (match_score best) threshold
            then mkMatch Node VNone (match_score best)
            else best).
Proof.
  intros Hblank Hpipe. simpl.
  rewrite bool_decide_eq_false_2 by done.
  destruct (matches_pipeline_tag tag all_pipeline_tags) eqn:Hmatch.
  { by apply matches_pipeline_tag_spec in Hmatch. }
  destruct (scan_tables_first_best (strip (lower tag)) equipment_tags
              instrument_tags handvalve_tags)
    as (best1 & best2 & best & H1 & H2 & H3 & Hbest).
  rewrite H1. cbn [mbind option_bind]. rewrite H2. cbn [mbind option_bind].
  rewrite H3. cbn [mbind option_bind].
  exists best. split; [done|].
  by destruct (Qlt_le_dec (match_score best) threshold).
Qed.

End FirstBest.

(** ** Which candidate wins *)

(** X18. For a tag that is not blank and is no pipeline tag, the resolver
    settles on the first candidate with the highest similarity to the
    stripped, lower-cased tag, the candidates being taken in the order
    equipment, instrumentation, hand valves and in the order of each
    table; a later candidate with the same score does not replace it. It
    answers with that candidate when its score reaches the threshold and
    with [node], no details and that score otherwise. When no candidate
    scores above 0 the answer is [node] with score 0. *)
Theorem resolver_returns_first_best
        (all_pipeline_tags : list string)
        (equipment_tags instrument_tags handvalve_tags : dict) (threshold : Q)
        (tag : string) :
  strip tag ≠ "" →
  tag ∉ all_pipeline_tags →
  ∃ best,
    first_best (strip (lower tag))
               (candidates equipment_tags instrument_tags handvalve_tags) best ∧
    find_best_match all_pipeline_tags equipment_tags instrument_tags handvalve_tags
                    threshold (VStr tag)
    = Some (if Qlt_le_dec (match_score best) threshold
            then mkMatch Node VNone (match_score best)
            else best).
Proof. apply find_best_match_scan. Qed.

Lemma resolver_returns_first_best_witness :
  let equipment_tags : dict := [("tk01", VDict [("Tag", VStr "TK01")])] in
  let instrument_tags : dict := [("tk01", VDict [("Tag", VStr "tk01")])] in
  strip "TK01" ≠ "" ∧ ("TK01" ∉ ["P-100"]) ∧
  ∃ best,
    first_best (strip (lower "TK01")) (candidates equipment_tags instrument_tags [])
               best ∧
    find_best_match ["P-100"] equipment_tags instrument_tags [] default_threshold
                    (VStr "TK01")
    = Some (if Qlt_le_dec (match_score best) default_threshold
            then mkMatch Node VNone (match_score best)
            else best).
Proof.
  assert (Hblank : strip "TK01" ≠ "") by done.
  assert (Hpipe : "TK01" ∉ ["P-100"]).
  { intros Hin. apply list_elem_of_singleton in Hin. done. }
  exact (conj Hblank (conj Hpipe
           (resolver_returns_first_best ["P-100"] _ _ [] default_threshold "TK01"
              Hblank Hpipe))).
Defined.

Section ExactMatch.

Implicit Types (tag_lower ref_tag : string) (cands : list candidate)
  (best : match_result) (items : dict).

(** A candidate whose key is the tag itself is the best there is; the
    first such candidate is the one that [first_best] singles out. *)
Lemma first_best_exact tag_lower cands best i cat_name details :
  first_best tag_lower cands best →
  cands !! i = Some (cat_name, tag_lower, details) →
  (∀ j cat_name' ref_tag' details', j < i →
     cands !! j = Some (cat_name', ref_tag', details') → ref_tag' ≠ tag_lower) →
  (match_score best == 1)%Q ∧ best = mkMatch cat_name details (match_score best).
Proof.
  intros [Hmax Hfirst] Hi Hbefore.
  destruct (similarity_spec tag_lower tag_lower) as (q1 & Hq1 & _ & _ & Hone).
  assert (Hq1one : (q1 == 1)%Q) by (by apply Hone).
  destruct (Hmax _ _ _ (list_elem_of_lookup_2 _ _ _ Hi)) as (q & Hq & Hle).
  rewrite Hq1 in Hq. injection Hq as <-.
  destruct Hfirst as [->|(i0 & c0 & r0 & d0 & Hi0 & Hq0 & Hb & Hpos & Hlt)].
  { simpl in Hle. rewrite Hq1one in Hle. by apply Qle_not_lt in Hle. }
  destruct (similarity_spec tag_lower r0) as (q0 & Hq0' & _ & Hq0le & Hq0one).
  rewrite Hq0 in Hq0'. injection Hq0' as <-.
  assert (Hbest1 : (match_score best == 1)%Q).
  { apply Qle_antisym; [done|]. by rewrite <- Hq1one. }
  split; [done|].
  assert (r0 = tag_lower) as -> by (symmetry; by apply Hq0one).
  destruct (Nat.lt_trichotomy i0 i) as [Hlt'|[->|Hgt]].
  - by destruct (Hbefore _ _ _ _ Hlt' Hi0).
  - rewrite Hi in Hi0. by injection Hi0 as <- <-.
  - destruct (Hlt _ _ _ _ Hgt Hi) as (q & Hq & Hq').
    rewrite Hq1 in Hq. injection Hq as <-.
    rewrite Hq1one, Hbest1 in Hq'. by apply Qlt_irrefl in Hq'.
Qed.

Lemma dict_lookup_first items k (v : value) :
  dict_lookup items k = Some v →
  ∃ i, items !! i = Some (k, v) ∧
       ∀ j k' v', j < i → items !! j = Some (k', v') → k' ≠ k.
Proof.
  induction items as [|[k0 v0] items IH]; [done|]. simpl.
  destruct (decide (k0 = k)) as [->|Hne].
  - intros [= ->]. exists 0. split; [done|]. intros j k' v' Hj. lia.
  - intros (i & Hi & Hbefore)%IH. exists (S i). split; [done|].
    intros [|j] k' v' Hj; simpl.
    + by intros [= <- <-].
    + apply Hbefore. lia.
Qed.

Lemma candidates_lookup_equipment
      (equipment_tags instrument_tags handvalve_tags : dict) k (v : value) :
  dict_lookup equipment_tags k = Some v →
  ∃ i, candidates equipment_tags instrument_tags handvalve_tags !! i
       = Some (Equipment, k, v) ∧
       ∀ j cat_name' ref_tag' details', j < i →
         candidates equipment_tags instrument_tags handvalve_tags !! j
         = Some (cat_name', ref_tag', details') → ref_tag' ≠ k.
Proof.
  intros (i & Hi & Hbefore)%dict_lookup_first. exists i.
  pose proof (lookup_lt_Some _ _ _ Hi) as Hlen.
  unfold candidates, dict in *. split.
  - rewrite lookup_app_l by (by rewrite length_fmap).
    by rewrite list_lookup_fmap, Hi.
  - intros j c r d Hj. rewrite lookup_app_l by (rewrite length_fmap; lia).
    rewrite list_lookup_fmap.
    destruct (equipment_tags !! j) as [[k' v']|] eqn:Hj'; [|done].
    intros [= <- <- <-]. by eapply Hbefore.
Qed.

Lemma candidates_lookup_instrument
      (equipment_tags instrument_tags handvalve_tags : dict) k (v : value) :
  dict_lookup equipment_tags k = None →
  dict_lookup instrument_tags k = Some v →
  ∃ i, candidates equipment_tags instrument_tags handvalve_tags !! i
       = Some (Instrumentation, k, v) ∧
       ∀ j cat_name' ref_tag' details', j < i →
         candidates equipment_tags instrument_tags handvalve_tags !! j
         = Some (cat_name', ref_tag', details') → ref_tag' ≠ k.
Proof.
  intros Hnone (i & Hi & Hbefore)%dict_lookup_first.
  exists (length equipment_tags + i).
  pose proof (lookup_lt_Some _ _ _ Hi) as Hlen.
  unfold candidates, dict in *. split.
  - rewrite lookup_app_r by (rewrite length_fmap; lia).
    rewrite length_fmap, Nat.add_comm, Nat.add_sub.
    rewrite lookup_app_l by (by rewrite length_fmap).
    by rewrite list_lookup_fmap, Hi.
  - intros j c r d Hj.
    destruct (decide (j < length equipment_tags)) as [Hlt|Hge].
    + rewrite lookup_app_l by (by rewrite length_fmap).
      rewrite list_lookup_fmap.
      destruct (equipment_tags !! j) as [[k' v']|] eqn:Hj'; [|done].
      intros [= <- <- <-] ->. apply dict_lookup_None in Hnone. apply Hnone.
      apply list_elem_of_fmap. exists (k, v'). split; [done|].
      by eapply list_elem_of_lookup_2.
    + rewrite lookup_app_r by (rewrite length_fmap; lia).
      rewrite length_fmap.
      rewrite lookup_app_l by (rewrite length_fmap; lia).
      rewrite list_lookup_fmap.
      destruct (instrument_tags !! (j - length equipment_tags))
        as [[k' v']|] eqn:Hj'; [|done].
      intros [= <- <- <-]. eapply Hbefore; [|done]. lia.
Qed.

Lemma candidates_lookup_handvalve
      (equipment_tags instrument_tags handvalve_tags : dict) k (v : value) :
  dict_lookup equipment_tags k = None →
  dict_lookup instrument_tags k = None →
  dict_lookup handvalve_tags k = Some v →
  ∃ i, candidates equipment_tags instrument_tags handvalve_tags !! i
       = Some (Handvalve, k, v) ∧
       ∀ j cat_name' ref_tag' details', j < i →
         candidates equipment_tags instrument_tags handvalve_tags !! j
         = Some (cat_name', ref_tag', details') → ref_tag' ≠ k.
Proof.
  intros Hnone1 Hnone2 (i & Hi & Hbefore)%dict_lookup_first.
  exists (length equipment_tags + (length instrument_tags + i)).
  pose proof (lookup_lt_Some _ _ _ Hi) as Hlen.
  unfold candidates, dict in *. split.
  - rewrite lookup_app_r by (rewrite length_fmap; lia).
    rewrite length_fmap, Nat.add_comm, Nat.add_sub.
    rewrite lookup_app_r by (rewrite length_fmap; lia).
    rewrite length_fmap, Nat.add_comm, Nat.add_sub.
    by rewrite list_lookup_fmap, Hi.
  - intros j c r d Hj.
    destruct (decide (j < length equipment_tags)) as [Hlt|Hge].
    { rewrite lookup_app_l by (by rewrite length_fmap).
      rewrite list_lookup_fmap.
      destruct (equipment_tags !! j) as [[k' v']|] eqn:Hj'; [|done].
      intros [= <- <- <-] ->. apply dict_lookup_None in Hnone1. apply Hnone1.
      apply list_elem_of_fmap. exists (k, v'). split; [done|].
      by eapply list_elem_of_lookup_2. }
    rewrite lookup_app_r by (rewrite length_fmap; lia). rewrite length_fmap.
    destruct (decide (j - length equipment_tags < length instrument_tags))
      as [Hlt|Hge'].
    { rewrite lookup_app_l by (by rewrite length_fmap).
      rewrite list_lookup_fmap.
      destruct (instrument_tags !! (j - length equipment_tags))
        as [[k' v']|] eqn:Hj'; [|done].
      intros [= <- <- <-] ->. apply dict_lookup_None in Hnone2. apply Hnone2.
      apply list_elem_of_fmap. exists (k, v'). split; [done|].
      by eapply list_elem_of_lookup_2. }
    rewrite lookup_app_r by (rewrite length_fmap; lia). rewrite length_fmap.
    rewrite list_lookup_fmap.
    destruct (handvalve_tags !! (j - length equipment_tags - length instrument_tags))
      as [[k' v']|] eqn:Hj'; [|done].
    intros [= <- <- <-]. eapply Hbefore; [|done]. lia.
Qed.

(** A tag whose stripped lower-case form is the key of a candidate
    resolves to the first such candidate, with score 1. *)
Lemma find_best_match_exact (all_pipeline_tags : list string)
      (equipment_tags instrument_tags handvalve_tags : dict) (threshold : Q)
      (tag : string) i cat_name details :
  strip tag ≠ "" →
  tag ∉ all_pipeline_tags →
  (threshold <= 1)%Q →
  candidates equipment_tags instrument_tags handvalve_tags !! i
  = Some (cat_name, strip (lower tag), details) →
  (∀ j cat_name' ref_tag' details', j < i →
     candidates equipment_tags instrument_tags handvalve_tags !! j
     = Some (cat_name', ref_tag', details') → ref_tag' ≠ strip (lower tag)) →
  ∃ q, (q == 1)%Q ∧
       find_best_match all_pipeline_tags equipment_tags instrument_tags
                       handvalve_tags threshold (VStr tag)
       = Some (mkMatch cat_name details q).
Proof.
  intros Hblank Hpipe Hthreshold Hi Hbefore.
  destruct (find_best_match_scan all_pipeline_tags equipment_tags instrument_tags
              handvalve_tags threshold tag Hblank Hpipe) as (best & Hbest & ->).
  destruct (first_best_exact _ _ _ _ _ _ Hbest Hi Hbefore) as [Hone Heq].
  exists (match_score best). split; [done|].
  destruct (Qlt_le_dec (match_score best) threshold) as [Hlt|_]; [|by rewrite <- Heq].
  rewrite Hone in Hlt. by apply Qlt_not_le in Hlt.
Qed.

End ExactMatch.

(** X19. A tag that is not blank and is no pipeline tag, and whose
    stripped lower-case form is a key of a reference table, resolves to
    the record under that key with score 1, for every threshold up to 1:
    to the equipment record when there is one, else to the instrument
    record, else to the hand-valve record. No other reference tag, however
    similar, comes before it. *)
Theorem exact_reference_match
        (all_pipeline_tags : list string)
        (equipment_tags instrument_tags handvalve_tags : dict) (threshold : Q)
        (tag : string) (details : value) :
  strip tag ≠ "" →
  tag ∉ all_pipeline_tags →
  (threshold <= 1)%Q →
  (dict_lookup equipment_tags (strip (lower tag)) = Some details →
   ∃ q, (q == 1)%Q ∧
        find_best_match all_pipeline_tags equipment_tags instrument_tags
                        handvalve_tags threshold (VStr tag)
        = Some (mkMatch Equipment details q)) ∧
  (dict_lookup equipment_tags (strip (lower tag)) = None →
   dict_lookup instrument_tags (strip (lower tag)) = Some details →
   ∃ q, (q == 1)%Q ∧
        find_best_match all_pipeline_tags equipment_tags instrument_tags
                        handvalve_tags threshold (VStr tag)
        = Some (mkMatch Instrumentation details q)) ∧
  (dict_lookup equipment_tags (strip (lower tag)) = None →
   dict_lookup instrument_tags (strip (lower tag)) = None →
   dict_lookup handvalve_tags (strip (lower tag)) = Some details →
   ∃ q, (q == 1)%Q ∧
        find_best_match all_pipeline_tags equipment_tags instrument_tags
                        handvalve_tags threshold (VStr tag)
        = Some (mkMatch Handvalve details q)).
Proof.
  intros Hblank Hpipe Hthreshold. split; [|split].
  - intros (i & Hi & Hbefore)%(candidates_lookup_equipment _ instrument_tags
                                 handvalve_tags).
    by eapply find_best_match_exact.
  - intros Hnone (i & Hi & Hbefore)%(candidates_lookup_instrument equipment_tags _
                                       handvalve_tags); [|done].
    by eapply find_best_match_exact.
  - intros Hnone1 Hnone2
      (i & Hi & Hbefore)%(candidates_lookup_handvalve equipment_tags instrument_tags);
      [|done..].
    by eapply find_best_match_exact.
Qed.

Lemma exact_reference_match_witness :
  let equipment_tags : dict :=
    [("tk-010", VDict [("Tag", VStr "TK-010")]); ("tk-01", VDict [("Tag", VStr "TK-01")])] in
  strip " TK-01 " ≠ "" ∧ (" TK-01 " ∉ ["P-100"]) ∧ (default_threshold <= 1)%Q ∧
  dict_lookup equipment_tags (strip (lower " TK-01 "))
  = Some (VDict [("Tag", VStr "TK-01")]) ∧
  ∃ q, (q == 1)%Q ∧
       find_best_match ["P-100"] equipment_tags [] [] default_threshold (VStr " TK-01 ")
       = Some (mkMatch Equipment (VDict [("Tag", VStr "TK-01")]) q).
Proof.
  assert (Hblank : strip " TK-01 " ≠ "") by done.
  assert (Hpipe : " TK-01 " ∉ ["P-100"]).
  { intros Hin. apply list_elem_of_singleton in Hin. done. }
  assert (Hthreshold : (default_threshold <= 1)%Q) by done.
  split; [done|]. split; [done|]. split; [done|]. split; [done|].
  exact (proj1 (exact_reference_match ["P-100"]
                  [("tk-010", VDict [("Tag", VStr "TK-010")]);
                   ("tk-01", VDict [("Tag", VStr "TK-01")])]
                  [] [] default_threshold " TK-01 "
                  (VDict [("Tag", VStr "TK-01")]) Hblank Hpipe Hthreshold) eq_refl).
Defined.

(** * Normalization followed by classification *)

(** The labels of a normalized flow. *)
Lemma normalized_flow_label (flow_data pipe_info : dict) (pipe_tag : string)
      (labels : list value) (i : nat) (label : value) (data out : value) :
  get_dict data "complete_pipeline_flows" = Some flow_data →
  NoDup flow_data.*1 →
  normalize_merged_pid data = Some out →
  dict_lookup flow_data pipe_tag = Some (VDict pipe_info) →
  dict_lookup pipe_info "complete_flow" = Some (VList labels) →
  labels !! i = Some label →
  ∃ normalized_flows pipe_info' labels',
    get_dict out "complete_pipeline_flows" = Some normalized_flows ∧
    normalized_flows.*1 = flow_data.*1 ∧
    dict_lookup normalized_flows pipe_tag = Some (VDict pipe_info') ∧
    dict_lookup pipe_info' "complete_flow" = Some (VList labels') ∧
    labels' !! i = Some (normalize_held flow_data.*1 ["pipeline_tag"] label).
Proof.
  intros Hdata Hnodup Hrun Hpipe Hflow Hi.
  destruct (normalize_merged_pid_flows _ _ _ Hdata Hnodup Hrun)
    as (normalized_flows & Hout & Hkeys & Hlook).
  specialize (Hlook _ _ Hpipe). rewrite recursive_normalize_dict in Hlook.
  eexists normalized_flows, _,
    (normalize_held flow_data.*1 ["pipeline_tag"] <$> labels).
  split; [done|]. split; [done|].
  split; [exact Hlook|]. split.
  - rewrite dict_lookup_field, Hflow. cbn [fmap option_fmap option_map].
    destruct (decide ("complete_flow" ∈ ["pipeline_tag"])) as [Hin|_];
      [by apply list_elem_of_singleton in Hin|].
    change (normalize_held flow_data.*1 ["pipeline_tag"] (VList labels))
      with (recursive_normalize flow_data.*1 ["pipeline_tag"] (VList labels)).
    by rewrite recursive_normalize_list.
  - by rewrite list_lookup_fmap, Hi.
Qed.

(** X20. A label of a flow that is a pipeline tag, that is a key of the
    flows mapping, and is not blank, passes the normalization stage
    unchanged and comes out of the classifier as the node
    [{tag, "pipeline", None}] with the label as it was in the input. *)
Theorem pipeline_labels_stay_pipeline
        (container_repr : value → string) (set_order : list string → list string)
        (threshold : Q) (data normalized out : value) (flow_data pipe_info : dict)
        (pipe_tag : string) (labels : list value) (i : nat) (tag : string) :
  iterates_elements set_order →
  get_dict data "complete_pipeline_flows" = Some flow_data →
  NoDup flow_data.*1 →
  normalize_merged_pid data = Some normalized →
  classify_tags_preserve_flow container_repr set_order threshold normalized
  = Some out →
  dict_lookup flow_data pipe_tag = Some (VDict pipe_info) →
  dict_lookup pipe_info "complete_flow" = Some (VList labels) →
  labels !! i = Some (VStr tag) →
  tag ∈ flow_data.*1 →
  strip tag ≠ "" →
  ∃ classified_flows new_pipe enriched,
    getitem out "complete_pipeline_flows" = Some (VDict classified_flows) ∧
    dict_lookup classified_flows pipe_tag = Some (VDict new_pipe) ∧
    dict_lookup new_pipe "complete_flow" = Some (VList enriched) ∧
    enriched !! i
    = Some (VDict [("tag", VStr tag); ("category", VStr "pipeline");
                   ("details", VNone)]).
Proof.
  intros Horder Hdata Hnodup Hnorm Hrun Hpipe Hflow Hi Htag Hblank.
  destruct (normalized_flow_label _ _ _ _ _ _ _ _ Hdata Hnodup Hnorm Hpipe Hflow Hi)
    as (normalized_flows & pipe_info' & labels' & Hdata' & Hkeys & Hpipe' & Hflow' & Hi').
  simpl in Hi'. unfold normalize_unless_pipeline in Hi'.
  rewrite decide_True in Hi' by done.
  destruct (classify_document_node _ _ _ _ _ _ _ _ _ _ _ Hrun Hdata'
              ltac:(by rewrite Hkeys) Hpipe' Hflow' Hi')
    as (process_data & equipment_tags & instrument_tags & handvalve_tags & m
        & classified_flows & new_pipe & enriched & _ & _ & _ & _ & Hm & Hout
        & Hnew & Henriched & Hnode).
  rewrite find_best_match_pipeline in Hm; [|by apply (proj2 (Horder _ _)); rewrite Hkeys|done].
  injection Hm as <-.
  by exists classified_flows, new_pipe, enriched.
Qed.

Lemma pipeline_labels_stay_pipeline_witness :
  let data :=
    VDict [("complete_pipeline_flows",
            VDict [("P-100", VDict [("complete_flow", VList [VStr "TK-01"; VStr "P-200"])]);
                   ("P-200", VDict [("complete_flow", VList [VStr "P-100"; VStr "V-1"])])]);
           ("process_data", VDict [])] in
  ∃ normalized out flow_data pipe_info labels,
    iterates_elements reverse ∧
    get_dict data "complete_pipeline_flows" = Some flow_data ∧
    NoDup flow_data.*1 ∧
    normalize_merged_pid data = Some normalized ∧
    classify_tags_preserve_flow (λ _, "") reverse default_threshold normalized
    = Some out ∧
    dict_lookup flow_data "P-100" = Some (VDict pipe_info) ∧
    dict_lookup pipe_info "complete_flow" = Some (VList labels) ∧
    labels !! 1 = Some (VStr "P-200") ∧
    "P-200" ∈ flow_data.*1 ∧
    strip "P-200" ≠ "" ∧
    ∃ classified_flows new_pipe enriched,
      getitem out "complete_pipeline_flows" = Some (VDict classified_flows) ∧
      dict_lookup classified_flows "P-100" = Some (VDict new_pipe) ∧
      dict_lookup new_pipe "complete_flow" = Some (VList enriched) ∧
      enriched !! 1
      = Some (VDict [("tag", VStr "P-200"); ("category", VStr "pipeline");
                     ("details", VNone)]).
Proof.
  intros data.
  assert (Horder : iterates_elements reverse).
  { intros keys x. apply elem_of_reverse. }
  assert (Hnodup : NoDup ["P-100"; "P-200"]).
  { apply NoDup_cons. split; [|apply NoDup_singleton].
    intros Hin. apply list_elem_of_singleton in Hin. done. }
  assert (Htag : "P-200" ∈ ["P-100"; "P-200"]) by (right; left).
  assert (Hblank : strip "P-200" ≠ "") by done.
  destruct (normalize_merged_pid data) as [normalized|] eqn:Hnorm;
    [|by vm_compute in Hnorm].
  destruct (classify_tags_preserve_flow (λ _, "") reverse default_threshold normalized)
    as [out|] eqn:Hrun;
    [|vm_compute in Hnorm; injection Hnorm as <-; by vm_compute in Hrun].
  eexists normalized, out, _, _, _.
  exact (conj Horder (conj eq_refl (conj Hnodup (conj eq_refl (conj Hrun
           (conj eq_refl (conj eq_refl (conj eq_refl (conj Htag (conj Hblank
              (pipeline_labels_stay_pipeline (λ _, "") reverse default_threshold
                 data normalized out _ _ "P-100" _ 1 "P-200"
                 Horder eq_refl Hnodup Hnorm Hrun eq_refl eq_refl eq_refl
                 Htag Hblank))))))))))).
Defined.

(** * The reference dictionaries *)

Section ReferenceTags.

Variable container_repr : value → string.

Implicit Types (e : value) (recs records : list value) (acc td : dict)
  (k key : string).

Lemma tag_dict_from_lookup recs : ∀ acc td k,
  tag_dict_from container_repr recs acc = Some td →
  dict_lookup td k
  = match last_with_key container_repr k recs with
    | Some e => Some e
    | None => dict_lookup acc k
    end.
Proof.
  induction recs as [|e recs IH]; intros acc td k; simpl.
  { by intros [= <-]. }
  intros (tag & Htag & Hrun)%bind_Some.
  rewrite (IH _ _ k Hrun).
  destruct (last_with_key container_repr k recs) as [e'|]; [done|].
  unfold record_key. rewrite Htag. cbn [mbind option_bind].
  destruct (decide (lower (py_str container_repr tag) = k)) as [->|Hne].
  - rewrite decide_True by done. apply dict_lookup_set_eq.
  - rewrite decide_False by congruence. by apply dict_lookup_set_ne.
Qed.

Lemma last_with_key_is_Some recs k i e :
  recs !! i = Some e → record_key container_repr e = Some k →
  is_Some (last_with_key container_repr k recs).
Proof.
  revert i. induction recs as [|e1 recs IH]; intros i Hi Hkey; [done|]. simpl.
  destruct (last_with_key container_repr k recs) eqn:Hrec; [by eexists|].
  destruct i as [|i]; simpl in Hi.
  - injection Hi as ->. rewrite decide_True by done. by eexists.
  - destruct (IH i Hi Hkey) as [? ?]. done.
Qed.

Lemma last_with_key_Some recs k e :
  last_with_key container_repr k recs = Some e ↔
  ∃ i, recs !! i = Some e ∧ record_key container_repr e = Some k ∧
       ∀ j e', i < j → recs !! j = Some e' → record_key container_repr e' ≠ Some k.
Proof.
  revert e. induction recs as [|e0 recs IH]; intros e; simpl.
  { split; [done|]. by intros (i & Hi & _). }
  destruct (last_with_key container_repr k recs) as [e1|] eqn:Hlast.
  - split.
    + intros [= <-]. destruct (proj1 (IH e1) eq_refl) as (i & Hi & Hkey & Hafter).
      exists (S i). split; [done|]. split; [done|].
      intros [|j] e' Hj; [lia|]. simpl. apply Hafter. lia.
    + intros ([|i] & Hi & Hkey & Hafter); simpl in Hi.
      * injection Hi as ->.
        destruct (proj1 (IH e1) eq_refl) as (i1 & Hi1 & Hkey1 & _).
        destruct (Hafter (S i1) e1); [lia|done|done].
      * apply (proj2 (IH e)). exists i. split; [done|].
        split; [done|]. intros j e' Hj. apply (Hafter (S j)). lia.
  - split.
    + destruct (decide (record_key container_repr e0 = Some k)) as [Hkey|]; [|done].
      intros [= <-]. exists 0. split; [done|]. split; [done|].
      intros [|j] e' Hj Hlook; [lia|]. simpl in Hlook. intros Hkey'.
      destruct (last_with_key_is_Some _ _ _ _ Hlook Hkey') as [? Hsome].
      congruence.
    + intros ([|i] & Hi & Hkey & Hafter); simpl in Hi.
      * injection Hi as ->. by rewrite decide_True.
      * assert (None = Some e) as Hcontra; [|done].
        apply IH. exists i. split; [done|]. split; [done|].
        intros j e' Hj. apply (Hafter (S j)). lia.
Qed.

End ReferenceTags.

(** X21. The reference dictionary files each record of a table under its
    tag, rendered as a string and lower-cased; when several records have
    the same key the last of them is the one the dictionary holds. *)
Theorem tag_dict_keeps_last_record
        (container_repr : value → string) (recs : list value) (td : dict)
        (key : string) (e : value) :
  tag_dict container_repr (VList recs) = Some td →
  dict_lookup td key = Some e ↔
  ∃ i, recs !! i = Some e ∧ record_key container_repr e = Some key ∧
       ∀ j e', i < j → recs !! j = Some e' →
               record_key container_repr e' ≠ Some key.
Proof.
  unfold tag_dict. simpl. intros Hrun.
  rewrite (tag_dict_from_lookup _ _ _ _ key Hrun). simpl.
  rewrite <- last_with_key_Some.
  by destruct (last_with_key container_repr key recs).
Qed.

Lemma tag_dict_keeps_last_record_witness :
  let recs := [VDict [("Tag", VStr "TK-01"); ("Area", VStr "north")];
               VDict [("Tag", VStr "tk-01"); ("Area", VStr "south")]] in
  let td : dict := [("tk-01", VDict [("Tag", VStr "tk-01"); ("Area", VStr "south")])] in
  tag_dict (λ _, "") (VList recs) = Some td ∧
  (dict_lookup td "tk-01" = Some (VDict [("Tag", VStr "tk-01"); ("Area", VStr "south")]) ↔
   ∃ i, recs !! i = Some (VDict [("Tag", VStr "tk-01"); ("Area", VStr "south")]) ∧
        record_key (λ _, "")
                   (VDict [("Tag", VStr "tk-01"); ("Area", VStr "south")])
        = Some "tk-01" ∧
        ∀ j e', i < j → recs !! j = Some e' →
                record_key (λ _, "") e' ≠ Some "tk-01").
Proof.
  exact (conj eq_refl
           (tag_dict_keeps_last_record (λ _, "")
              [VDict [("Tag", VStr "TK-01"); ("Area", VStr "north")];
               VDict [("Tag", VStr "tk-01"); ("Area", VStr "south")]]
              [("tk-01", VDict [("Tag", VStr "tk-01"); ("Area", VStr "south")])]
              "tk-01" (VDict [("Tag", VStr "tk-01"); ("Area", VStr "south")])
              eq_refl)).
Defined.

(** * What the normalization stage is for *)

Section NormalizedKeys.

Implicit Types (s : string) (c : ascii).

Lemma rstrip_no_space s :
  Forall (λ c, is_space c = false) (chars s) → rstrip s = s.
Proof.
  unfold chars. induction s as [|c s IH]; [done|]. simpl.
  intros [Hc Hs]%Forall_cons. rewrite (IH Hs).
  destruct s; [by rewrite Hc|done].
Qed.

Lemma strip_no_space s :
  Forall (λ c, is_space c = false) (chars s) → strip s = s.
Proof.
  intros Hs. unfold strip.
  assert (lstrip s = s) as ->; [|by apply rstrip_no_space].
  destruct s as [|c s]; [done|]. simpl.
  apply Forall_cons in Hs as [-> _]. done.
Qed.

Lemma lower_alnum_no_space s :
  lower_alnum s → Forall (λ c, is_space c = false) (chars s).
Proof.
  intros Hs. eapply Forall_impl; [exact Hs|]. intros c.
  destruct c as [[] [] [] [] [] [] [] []]; vm_compute; intros H;
    (discriminate H || reflexivity).
Qed.

(** A normalized tag is its own stripped lower-case form. *)
Lemma normalized_strip_lower s :
  strip (lower (lower (re_sub_non_alnum s))) = lower (re_sub_non_alnum s).
Proof.
  rewrite lower_idem. apply strip_no_space, lower_alnum_no_space,
    lower_alnum_normalized.
Qed.

End NormalizedKeys.

Section NormalizedTables.

Variable all_pipeline_tags : list string.

Lemma normalize_table_other (table : string) (pd : dict) (v : value) :
  normalize_table all_pipeline_tags table (VDict pd) = Some v →
  ∃ pd', v = VDict pd' ∧ ∀ k, k ≠ table → dict_lookup pd' k = dict_lookup pd k.
Proof.
  unfold normalize_table. cbn [py_in getitem setitem].
  case_bool_decide as Hin; [|intros [= <-]; by exists pd].
  destruct Hin as [records Hrecords]. rewrite Hrecords. cbn [mbind option_bind].
  intros (new_records & _ & [= <-])%bind_Some.
  eexists. split; [done|]. intros k Hk. by apply dict_lookup_set_ne.
Qed.

Lemma normalize_table_records (table : string) (pd : dict) (recs : list value)
      (v : value) :
  dict_lookup pd table = Some (VList recs) →
  normalize_table all_pipeline_tags table (VDict pd) = Some v →
  ∃ pd' recs',
    v = VDict pd' ∧
    dict_lookup pd' table = Some (VList recs') ∧
    mapM (normalize_record all_pipeline_tags "Tag") recs = Some recs'.
Proof.
  intros Hrecs. unfold normalize_table. cbn [py_in getitem setitem].
  rewrite bool_decide_eq_true_2 by (by rewrite Hrecs).
  rewrite Hrecs. cbn [mbind option_bind].
  unfold normalize_tag_in_records. simpl.
  intros (new_records & (recs' & Hrecs' & [= <-])%bind_Some & [= <-])%bind_Some.
  eexists _, recs'. split; [done|]. split; [|done]. apply dict_lookup_set_eq.
Qed.

Lemma normalize_record_tag (d : dict) (s : string) (rec' : value) :
  dict_lookup d "Tag" = Some (VStr s) →
  s ∉ all_pipeline_tags →
  normalize_record all_pipeline_tags "Tag" (VDict d) = Some rec' →
  ∃ d', rec' = VDict d' ∧
        dict_lookup d' "Tag" = Some (VStr (lower (re_sub_non_alnum s))).
Proof.
  intros Htag Hs. unfold normalize_record. rewrite Htag.
  rewrite decide_False by done. intros [= <-].
  eexists. split; [done|]. apply dict_lookup_set_eq.
Qed.

End NormalizedTables.

(** The equipment table of the normalized document. *)
Lemma normalized_equipment (data out : value) (flow_data process_data : dict)
      (recs : list value) :
  get_dict data "complete_pipeline_flows" = Some flow_data →
  get_dict data "process_data" = Some process_data →
  dict_lookup process_data "Equipment" = Some (VList recs) →
  normalize_merged_pid data = Some out →
  ∃ process_data' recs',
    get_dict out "process_data" = Some process_data' ∧
    dict_lookup process_data' "Equipment" = Some (VList recs') ∧
    mapM (normalize_record flow_data.*1 "Tag") recs = Some recs'.
Proof.
  intros Hflows Hproc Hrecs. unfold normalize_merged_pid.
  rewrite Hflows. cbn [mbind option_bind].
  assert (Hget : get data "process_data" (VDict []) = Some (VDict process_data)).
  { unfold get_dict in Hproc. apply bind_Some in Hproc as (v & Hv & Hd).
    rewrite Hv. by destruct v; try done; injection Hd as ->. }
  rewrite Hget. cbn [mbind option_bind].
  intros (v1 & H1 & Hrun)%bind_Some.
  apply (normalize_table_records _ _ _ recs) in H1
    as (pd1 & recs' & -> & Hrecs1 & Hmap); [|done].
  apply bind_Some in Hrun as (v2 & H2 & Hrun).
  apply normalize_table_other in H2 as (pd2 & -> & Hother2).
  apply bind_Some in Hrun as (v3 & H3 & Hrun).
  apply normalize_table_other in H3 as (pd3 & -> & Hother3).
  injection Hrun as <-.
  exists pd3, recs'. split; [done|]. split; [|done].
  rewrite Hother3, Hother2 by done. done.
Qed.

(** X22. What the normalization stage achieves for the classifier. Take a
    label of a flow and the tag of an equipment record that are the same
    up to case and punctuation, that is, have the same normalization [n],
    where [n] is not empty and neither the label, the tag nor [n] is a
    pipeline tag. After normalization and classification, with a threshold
    of at most 1, the node at the label's place reads [n], its category is
    [equipment], and its details are a record of the normalized equipment
    table that is filed under [n]. *)
Theorem normalization_lets_tags_meet
        (container_repr : value → string) (set_order : list string → list string)
        (threshold : Q) (data normalized out : value)
        (flow_data process_data pipe_info rec : dict) (pipe_tag : string)
        (labels recs : list value) (i k : nat) (label tag : string) :
  iterates_elements set_order →
  (threshold <= 1)%Q →
  get_dict data "complete_pipeline_flows" = Some flow_data →
  NoDup flow_data.*1 →
  get_dict data "process_data" = Some process_data →
  normalize_merged_pid data = Some normalized →
  classify_tags_preserve_flow container_repr set_order threshold normalized
  = Some out →
  dict_lookup flow_data pipe_tag = Some (VDict pipe_info) →
  dict_lookup pipe_info "complete_flow" = Some (VList labels) →
  labels !! i = Some (VStr label) →
  dict_lookup process_data "Equipment" = Some (VList recs) →
  recs !! k = Some (VDict rec) →
  dict_lookup rec "Tag" = Some (VStr tag) →
  label ∉ flow_data.*1 →
  tag ∉ flow_data.*1 →
  lower (re_sub_non_alnum tag) = lower (re_sub_non_alnum label) →
  lower (re_sub_non_alnum label) ≠ "" →
  lower (re_sub_non_alnum label) ∉ flow_data.*1 →
  ∃ classified_flows new_pipe enriched details,
    getitem out "complete_pipeline_flows" = Some (VDict classified_flows) ∧
    dict_lookup classified_flows pipe_tag = Some (VDict new_pipe) ∧
    dict_lookup new_pipe "complete_flow" = Some (VList enriched) ∧
    enriched !! i
    = Some (VDict [("tag", VStr (lower (re_sub_non_alnum label)));
                   ("category", VStr "equipment");
                   ("details", details)]) ∧
    record_key container_repr details = Some (lower (re_sub_non_alnum label)).
Proof.
  intros Horder Hthreshold Hdata Hnodup Hproc Hnorm Hrun Hpipe Hflow Hi Hrecs Hk
    Htag Hlabel_pipe Htag_pipe Hsame Hne Hn_pipe.
  set (n := lower (re_sub_non_alnum label)) in *.
  (* the label after normalization *)
  destruct (normalized_flow_label _ _ _ _ _ _ _ _ Hdata Hnodup Hnorm Hpipe Hflow Hi)
    as (normalized_flows & pipe_info' & labels' & Hdata' & Hkeys & Hpipe' & Hflow' & Hi').
  simpl in Hi'. unfold normalize_unless_pipeline in Hi'.
  rewrite decide_False in Hi' by done. simpl in Hi'. fold n in Hi'.
  (* the record after normalization *)
  destruct (normalized_equipment _ _ _ _ _ Hdata Hproc Hrecs Hnorm)
    as (process_data' & recs' & Hproc' & Hrecs' & Hmap).
  apply mapM_Some in Hmap.
  destruct (Forall2_lookup_l _ _ _ _ _ Hmap Hk) as (rec' & Hk' & Hrec').
  apply (normalize_record_tag _ _ tag) in Hrec' as (d' & -> & Htag'); [|done..].
  rewrite Hsame in Htag'. fold n in Htag'.
  (* the node *)
  destruct (classify_document_node _ _ _ _ _ _ _ _ _ _ _ Hrun Hdata'
              ltac:(by rewrite Hkeys) Hpipe' Hflow' Hi')
    as (process_data'' & equipment_tags & instrument_tags & handvalve_tags & m
        & classified_flows & new_pipe & enriched & Hproc'' & Hequipment & _ & _
        & Hm & Hout & Hnew & Henriched & Hnode).
  rewrite Hproc' in Hproc''. injection Hproc'' as <-.
  unfold reference_tags, tag_dict in Hequipment. rewrite Hrecs' in Hequipment.
  simpl in Hequipment.
  pose proof (tag_dict_from_lookup container_repr _ _ _ n Hequipment) as Hlook.
  assert (Hkey : record_key container_repr (VDict d') = Some n).
  { unfold record_key. simpl. rewrite Htag'. simpl. unfold n.
    by rewrite lower_idem. }
  destruct (last_with_key_is_Some container_repr _ _ _ _ Hk' Hkey) as [details Hlast].
  rewrite Hlast in Hlook.
  apply last_with_key_Some in Hlast as (_ & _ & Hdetails & _).
  (* the resolver *)
  assert (Hstrip : strip (lower n) = n) by apply normalized_strip_lower.
  assert (Hstrip' : strip n = n).
  { apply strip_no_space, lower_alnum_no_space, lower_alnum_normalized. }
  destruct (candidates_lookup_equipment equipment_tags instrument_tags
              handvalve_tags _ _ Hlook) as (j & Hj & Hbefore).
  destruct (find_best_match_exact (set_order normalized_flows.*1) equipment_tags
              instrument_tags handvalve_tags threshold n j Equipment details)
    as (q & _ & Hbest).
  - by rewrite Hstrip'.
  - rewrite Hkeys. intros Hin. by apply (proj1 (Horder _ _)) in Hin.
  - done.
  - by rewrite Hstrip.
  - rewrite Hstrip. exact Hbefore.
  - rewrite Hbest in Hm. injection Hm as <-.
    by exists classified_flows, new_pipe, enriched, details.
Qed.

Lemma normalization_lets_tags_meet_witness :
  let data :=
    VDict [("complete_pipeline_flows",
            VDict [("P-100", VDict [("complete_flow", VList [VStr "TK-01"; VStr "V 7"])])]);
           ("process_data",
            VDict [("Equipment", VList [VDict [("Tag", VStr "tk.01"); ("Kind", VStr "Tank")]])])] in
  ∃ normalized out flow_data process_data pipe_info rec labels recs,
    iterates_elements reverse ∧
    (default_threshold <= 1)%Q ∧
    get_dict data "complete_pipeline_flows" = Some flow_data ∧
    NoDup flow_data.*1 ∧
    get_dict data "process_data" = Some process_data ∧
    normalize_merged_pid data = Some normalized ∧
    classify_tags_preserve_flow (λ _, "") reverse default_threshold normalized
    = Some out ∧
    dict_lookup flow_data "P-100" = Some (VDict pipe_info) ∧
    dict_lookup pipe_info "complete_flow" = Some (VList labels) ∧
    labels !! 0 = Some (VStr "TK-01") ∧
    dict_lookup process_data "Equipment" = Some (VList recs) ∧
    recs !! 0 = Some (VDict rec) ∧
    dict_lookup rec "Tag" = Some (VStr "tk.01") ∧
    ("TK-01" ∉ flow_data.*1) ∧
    ("tk.01" ∉ flow_data.*1) ∧
    lower (re_sub_non_alnum "tk.01") = lower (re_sub_non_alnum "TK-01") ∧
    lower (re_sub_non_alnum "TK-01") ≠ "" ∧
    (lower (re_sub_non_alnum "TK-01") ∉ flow_data.*1) ∧
    ∃ classified_flows new_pipe enriched details,
      getitem out "complete_pipeline_flows" = Some (VDict classified_flows) ∧
      dict_lookup classified_flows "P-100" = Some (VDict new_pipe) ∧
      dict_lookup new_pipe "complete_flow" = Some (VList enriched) ∧
      enriched !! 0
      = Some (VDict [("tag", VStr (lower (re_sub_non_alnum "TK-01")));
                     ("category", VStr "equipment");
                     ("details", details)]) ∧
      record_key (λ _, "") details = Some (lower (re_sub_non_alnum "TK-01")).
Proof.
  intros data.
  assert (Horder : iterates_elements reverse).
  { intros keys x. apply elem_of_reverse. }
  assert (Hthreshold : (default_threshold <= 1)%Q) by done.
  assert (Hnodup : NoDup ["P-100"]) by apply NoDup_singleton.
  assert (Hout : ∀ x, x ≠ "P-100" → x ∉ ["P-100"]).
  { intros x Hx Hin. by apply list_elem_of_singleton in Hin. }
  destruct (normalize_merged_pid data) as [normalized|] eqn:Hnorm;
    [|by vm_compute in Hnorm].
  destruct (classify_tags_preserve_flow (λ _, "") reverse default_threshold normalized)
    as [out|] eqn:Hrun;
    [|vm_compute in Hnorm; injection Hnorm as <-; by vm_compute in Hrun].
  pose proof (normalization_lets_tags_meet (λ _, "") reverse default_threshold
                data normalized out _ _ _ _ "P-100" _ _ 0 0 "TK-01" "tk.01"
                Horder Hthreshold eq_refl Hnodup eq_refl Hnorm Hrun eq_refl eq_refl
                eq_refl eq_refl eq_refl eq_refl
                (Hout "TK-01" ltac:(done)) (Hout "tk.01" ltac:(done))
                eq_refl ltac:(done) (Hout "tk01" ltac:(done))) as Hmeet.
  eexists normalized, out, _, _, _, _, _, _.
  split; [exact Horder|]. split; [exact Hthreshold|]. split; [reflexivity|].
  split; [exact Hnodup|]. split; [reflexivity|]. split; [reflexivity|].
  split; [exact Hrun|]. split; [reflexivity|]. split; [reflexivity|].
  split; [reflexivity|]. split; [reflexivity|]. split; [reflexivity|].
  split; [reflexivity|]. split; [exact (Hout "TK-01" ltac:(done))|].
  split; [exact (Hout "tk.01" ltac:(done))|]. split; [reflexivity|].
  split; [done|]. split; [exact (Hout "tk01" ltac:(done))|].
  exact Hmeet.
Defined.

(** * Properties of the retrieval functions *)

Section RetrievalFacts.

Implicit Types (q_raw q_norm tag : string) (threshold : Q)
  (item : value) (items results out picked : list value).

Lemma at_least_spec threshold a b :
  ∃ score, similarity a b = Some score ∧
    ((threshold <= score)%Q ∧ at_least threshold a b = Some true ∨
     ¬ (threshold <= score)%Q ∧ at_least threshold a b = Some false).
Proof.
  destruct (similarity_total a b) as (score & Hscore & _).
  exists score. split; [done|]. unfold at_least. rewrite Hscore. simpl.
  destruct (Qlt_le_dec score threshold) as [Hlt|Hle].
  - right. split; [|done]. by apply Qlt_not_le.
  - by left.
Qed.

(** What one pass of the loop decides for a record with a string tag. *)
Lemma match_items_cons q_raw q_norm threshold item rest results tag :
  get item "Tag" (VStr "") = Some (VStr tag) →
  (selected q_raw q_norm threshold item ∧
   match_items q_raw q_norm threshold (item :: rest) results
   = match_items q_raw q_norm threshold rest (results ++ [item])) ∨
  (¬ selected q_raw q_norm threshold item ∧
   match_items q_raw q_norm threshold (item :: rest) results
   = match_items q_raw q_norm threshold rest results).
Proof.
  intros Htag. cbn [match_items]. rewrite Htag. cbn [mbind option_bind str_lower].
  assert (Hsel : ∀ P : Prop, (direct_hit q_raw tag ∨ fuzzy_hit q_norm threshold tag → P) →
                      selected q_raw q_norm threshold item → P).
  { intros P HP (tag' & Htag' & Hhit). rewrite Htag in Htag'.
    injection Htag' as <-. auto. }
  destruct (negb (bool_decide (lower tag = "")) && is_substring (lower tag) q_raw)
    eqn:Hdirect.
  { left. split; [|done]. exists tag. split; [done|]. left.
    apply andb_true_iff in Hdirect as [Hne Hsub].
    apply negb_true_iff, bool_decide_eq_false in Hne. done. }
  assert (Hnot_direct : ¬ direct_hit q_raw tag).
  { intros [Hne Hsub]. rewrite Hsub, bool_decide_eq_false_2 in Hdirect by done.
    done. }
  simpl Chat.normalize_tag.
  destruct (decide (lower (re_sub_non_alnum tag) = "")) as [Hnorm|Hnorm].
  { rewrite bool_decide_eq_true_2 by done.
    right. split; [|done]. intros Hs. apply (Hsel False); [|exact Hs].
    intros [Hd|[Hne _]]; [by apply Hnot_direct|done]. }
  rewrite bool_decide_eq_false_2 by done.
  destruct (at_least_spec threshold q_norm (lower (re_sub_non_alnum tag)))
    as (score & Hscore & [[Hle ->]|[Hle ->]]).
  - left. split; [|done]. exists tag. split; [done|]. right.
    split; [done|]. by exists score.
  - right. split; [|done]. intros Hs. apply (Hsel False); [|exact Hs].
    intros [Hd|[_ (score' & Hscore' & Hle')]]; [by apply Hnot_direct|].
    rewrite Hscore in Hscore'. by injection Hscore' as <-.
Qed.

Lemma match_items_Some_tag q_raw q_norm threshold item rest results out :
  match_items q_raw q_norm threshold (item :: rest) results = Some out →
  ∃ tag, get item "Tag" (VStr "") = Some (VStr tag).
Proof.
  cbn [match_items]. intros (tag & Htag & Hrun)%bind_Some.
  apply bind_Some in Hrun as (tag_lower & Hlower & _).
  destruct tag; try done. by eexists.
Qed.

(** The loop appends to [results] the records it selects, in order. *)
Lemma match_items_spec q_raw q_norm threshold items : ∀ results out,
  match_items q_raw q_norm threshold items results = Some out →
  ∃ picked,
    out = results ++ picked ∧
    picked `sublist_of` items ∧
    ∀ item, item ∈ picked ↔ item ∈ items ∧ selected q_raw q_norm threshold item.
Proof.
  induction items as [|item items IH]; intros results out Hrun.
  { injection Hrun as <-. exists []. rewrite app_nil_r. split; [done|].
    split; [done|]. intros item. rewrite elem_of_nil. tauto. }
  destruct (match_items_Some_tag _ _ _ _ _ _ _ Hrun) as [tag Htag].
  destruct (match_items_cons q_raw q_norm threshold item items results tag Htag)
    as [[Hsel Heq]|[Hsel Heq]]; rewrite Heq in Hrun;
    apply IH in Hrun as (picked & -> & Hsub & Hpicked).
  - exists (item :: picked). split; [by rewrite <- app_assoc|].
    split; [by apply sublist_skip|].
    intros item'. rewrite !elem_of_cons, Hpicked.
    split; [intros [->|[??]]; auto|]. intros [[->|?] ?]; auto.
  - exists picked. split; [done|]. split; [by apply sublist_cons|].
    intros item'. rewrite elem_of_cons, Hpicked.
    split; [intros [??]; auto|]. intros [[->|?] ?]; [done|auto].
Qed.

Lemma match_items_total q_raw q_norm threshold items : ∀ results,
  Forall tagged_record items →
  ∃ out, match_items q_raw q_norm threshold items results = Some out.
Proof.
  induction items as [|item items IH]; intros results Hall; [by eexists|].
  apply Forall_cons in Hall as [(d & -> & Htag) Hall].
  assert (∃ tag, get (VDict d) "Tag" (VStr "") = Some (VStr tag)) as [tag Hget].
  { simpl. destruct (dict_lookup d "Tag") as [v|] eqn:Hv; [|by eexists].
    specialize (Htag v eq_refl). destruct v; try done. by eexists. }
  destruct (match_items_cons q_raw q_norm threshold (VDict d) items results tag Hget)
    as [[_ ->]|[_ ->]]; by apply IH.
Qed.

(** Whether the loop runs to its end does not depend on the threshold. *)
Lemma match_items_threshold q_raw q_norm threshold threshold' items :
  ∀ results results' out,
  match_items q_raw q_norm threshold items results = Some out →
  ∃ out', match_items q_raw q_norm threshold' items results' = Some out'.
Proof.
  induction items as [|item items IH]; intros results results' out Hrun;
    [by eexists|].
  destruct (match_items_Some_tag _ _ _ _ _ _ _ Hrun) as [tag Htag].
  destruct (match_items_cons q_raw q_norm threshold item items results tag Htag)
    as [[_ Heq]|[_ Heq]]; rewrite Heq in Hrun;
    destruct (match_items_cons q_raw q_norm threshold' item items results' tag Htag)
      as [[_ ->]|[_ ->]]; by eapply IH.
Qed.

Lemma find_best_tag_matches_list query items threshold :
  find_best_tag_matches query (VList items) threshold
  = match_items (lower query) (Chat.normalize_tag (VStr query)) threshold items [].
Proof. by destruct items. Qed.

Lemma fuzzy_hit_mono q_norm threshold threshold' tag :
  (threshold' <= threshold)%Q →
  fuzzy_hit q_norm threshold tag → fuzzy_hit q_norm threshold' tag.
Proof.
  intros Hle (Hne & score & Hscore & Hth). split; [done|].
  exists score. split; [done|]. by eapply Qle_trans.
Qed.

(** The loop of [find_pipeline_matches] keeps the selected pipelines, in
    order. *)
Lemma match_pipelines_spec q_raw q_norm threshold (items : dict) :
  ∀ matches : dict,
  NoDup (matches.*1 ++ items.*1) →
  ∃ picked : dict,
    match_pipelines q_raw q_norm threshold items matches = Some (matches ++ picked) ∧
    picked `sublist_of` items ∧
    ∀ k v, (k, v) ∈ picked ↔
           (k, v) ∈ items ∧ pipeline_selected q_raw q_norm threshold k.
Proof.
  induction items as [|[k0 v0] items IH]; intros matches Hnodup.
  { exists []. rewrite app_nil_r. split; [done|]. split; [done|].
    intros k v. rewrite elem_of_nil. tauto. }
  assert (Hfresh : k0 ∉ matches.*1).
  { apply NoDup_app in Hnodup as (_ & Hdisj & _). intros Hin.
    apply (Hdisj _ Hin). left. }
  assert (Hk0 : ∀ v, (k0, v) ∈ items → False).
  { intros v Hin. rewrite fmap_cons in Hnodup.
    apply NoDup_app in Hnodup as (_ & _ & Hitems).
    apply NoDup_cons in Hitems as [Hnot _]. apply Hnot.
    apply list_elem_of_fmap. by exists (k0, v). }
  assert (Hkeep :
    pipeline_selected q_raw q_norm threshold k0 →
    ∃ picked : dict,
      match_pipelines q_raw q_norm threshold items (dict_set matches k0 v0)
      = Some (matches ++ picked) ∧
      picked `sublist_of` (k0, v0) :: items ∧
      ∀ k v, (k, v) ∈ picked ↔
             (k, v) ∈ (k0, v0) :: items ∧ pipeline_selected q_raw q_norm threshold k).
  { intros Hsel. rewrite dict_set_new by done.
    destruct (IH (matches ++ [(k0, v0)])) as (picked & -> & Hsub & Hpicked).
    { rewrite fmap_app, <- app_assoc. done. }
    exists ((k0, v0) :: picked). split; [by rewrite <- app_assoc|].
    split; [by apply sublist_skip|].
    intros k v. rewrite !elem_of_cons, Hpicked.
    split; [intros [[= -> ->]|[??]]; auto|]. intros [[?|?] ?]; auto. }
  assert (Hdrop :
    ¬ pipeline_selected q_raw q_norm threshold k0 →
    ∃ picked : dict,
      match_pipelines q_raw q_norm threshold items matches
      = Some (matches ++ picked) ∧
      picked `sublist_of` (k0, v0) :: items ∧
      ∀ k v, (k, v) ∈ picked ↔
             (k, v) ∈ (k0, v0) :: items ∧ pipeline_selected q_raw q_norm threshold k).
  { intros Hsel.
    destruct (IH matches) as (picked & -> & Hsub & Hpicked).
    { rewrite fmap_cons in Hnodup. apply NoDup_app in Hnodup as (? & Hdisj & Hitems).
      apply NoDup_app. split; [done|]. split.
      - intros x Hx Hin. apply (Hdisj x Hx). by right.
      - by apply NoDup_cons in Hitems as [_ ?]. }
    exists picked. split; [done|]. split; [by apply sublist_cons|].
    intros k v. rewrite elem_of_cons, Hpicked.
    split; [intros [??]; auto|]. intros [[[= -> ->]|?] ?]; [done|auto]. }
  cbn [match_pipelines]. simpl Chat.normalize_tag.
  destruct (is_substring (lower k0) q_raw) eqn:Hsub.
  { apply Hkeep. by left. }
  destruct (at_least_spec threshold q_norm (lower (re_sub_non_alnum k0)))
    as (score & Hscore & [[Hle ->]|[Hle ->]]).
  - apply Hkeep. right. by exists score.
  - apply Hdrop. intros [Hsub'|(score' & Hscore' & Hle')]; [congruence|].
    rewrite Hscore in Hscore'. by injection Hscore' as <-.
Qed.

End RetrievalFacts.

(** ** Which records and pipelines a query retrieves *)

(** X23. [find_best_tag_matches] returns, in the order of the table, the
    records that it selects and no others: a record is selected when its
    lower-cased [Tag] is not empty and occurs in the lower-cased query, or
    when its normalized [Tag] is not empty and its similarity to the
    normalized query reaches the threshold. A record without a [Tag], or
    with an empty one, is never returned. The function returns whenever
    every record is a dictionary whose [Tag] is a string or missing. *)
Theorem find_best_tag_matches_selects
        (query : string) (items : list value) (threshold : Q) :
  (Forall tagged_record items →
   ∃ out, find_best_tag_matches query (VList items) threshold = Some out) ∧
  ∀ out,
    find_best_tag_matches query (VList items) threshold = Some out →
    out `sublist_of` items ∧
    (∀ item, item ∈ out ↔
       item ∈ items ∧
       selected (lower query) (Chat.normalize_tag (VStr query)) threshold item) ∧
    (∀ item, item ∈ out →
       ∃ tag, get item "Tag" (VStr "") = Some (VStr tag) ∧ tag ≠ "").
Proof.
  rewrite find_best_tag_matches_list. split; [apply match_items_total|].
  intros out (picked & -> & Hsub & Hpicked)%match_items_spec.
  rewrite app_nil_l. split; [done|]. split; [done|].
  intros item (_ & tag & Htag & Hhit)%Hpicked.
  exists tag. split; [done|]. intros ->.
  by destruct Hhit as [[Hne _]|[Hne _]].
Qed.

Lemma find_best_tag_matches_selects_witness :
  let items := [VDict [("Tag", VStr "TK-01")]; VDict [("Name", VStr "spare")]] in
  Forall tagged_record items ∧
  ∃ out, find_best_tag_matches "where is tk-01?" (VList items) default_match_threshold
         = Some out.
Proof.
  assert (Hall : Forall tagged_record
                   [VDict [("Tag", VStr "TK-01")]; VDict [("Name", VStr "spare")]]).
  { repeat constructor; eexists; (split; [done|]); cbn; intros v [= <-]; done. }
  exact (conj Hall
           (proj1 (find_best_tag_matches_selects "where is tk-01?" _
                     default_match_threshold) Hall)).
Defined.

(** X24. Lowering the threshold never loses a match: whatever
    [find_best_tag_matches] returns for a threshold it also returns for
    every lower one. *)
Theorem find_best_tag_matches_threshold
        (query : string) (items : list value) (threshold threshold' : Q)
        (out : list value) :
  (threshold' <= threshold)%Q →
  find_best_tag_matches query (VList items) threshold = Some out →
  ∃ out',
    find_best_tag_matches query (VList items) threshold' = Some out' ∧
    ∀ item, item ∈ out → item ∈ out'.
Proof.
  rewrite !find_best_tag_matches_list. intros Hle Hrun.
  destruct (match_items_threshold _ _ _ threshold' _ _ [] _ Hrun) as [out' Hrun'].
  exists out'. split; [done|].
  apply match_items_spec in Hrun as (picked & -> & _ & Hpicked).
  apply match_items_spec in Hrun' as (picked' & -> & _ & Hpicked').
  rewrite !app_nil_l. intros item (Hin & tag & Htag & Hhit)%Hpicked.
  apply Hpicked'. split; [done|]. exists tag. split; [done|].
  destruct Hhit as [?|Hfuzzy]; [by left|]. right. by eapply fuzzy_hit_mono.
Qed.

Lemma find_best_tag_matches_threshold_witness :
  let items := [VDict [("Tag", VStr "TK-01")]; VDict [("Tag", VStr "TK-02")]] in
  (5 # 10 <= 9 # 10)%Q ∧
  find_best_tag_matches "tk01" (VList items) (9 # 10)
  = Some [VDict [("Tag", VStr "TK-01")]] ∧
  ∃ out',
    find_best_tag_matches "tk01" (VList items) (5 # 10) = Some out' ∧
    ∀ item, item ∈ [VDict [("Tag", VStr "TK-01")]] → item ∈ out'.
Proof.
  assert (Hle : (5 # 10 <= 9 # 10)%Q) by done.
  assert (Hrun : find_best_tag_matches "tk01"
                   (VList [VDict [("Tag", VStr "TK-01")]; VDict [("Tag", VStr "TK-02")]])
                   (9 # 10)
                 = Some [VDict [("Tag", VStr "TK-01")]]) by (vm_compute; reflexivity).
  exact (conj Hle (conj Hrun
           (find_best_tag_matches_threshold "tk01" _ (9 # 10) (5 # 10) _ Hle Hrun))).
Defined.

(** X25. A record is found when the query mentions its tag, in any case,
    whatever the threshold; and when the query as a whole is the tag
    written with other case or punctuation, for every threshold up to
    1. *)
Theorem find_best_tag_matches_finds_tag
        (query : string) (items : list value) (threshold : Q)
        (out : list value) (item : value) (tag : string) :
  find_best_tag_matches query (VList items) threshold = Some out →
  item ∈ items →
  get item "Tag" (VStr "") = Some (VStr tag) →
  (tag ≠ "" → is_substring (lower tag) (lower query) = true → item ∈ out) ∧
  (Chat.normalize_tag (VStr tag) ≠ "" →
   Chat.normalize_tag (VStr tag) = Chat.normalize_tag (VStr query) →
   (threshold <= 1)%Q → item ∈ out).
Proof.
  rewrite find_best_tag_matches_list.
  intros (picked & -> & _ & Hpicked)%match_items_spec Hin Htag.
  rewrite app_nil_l. split.
  - intros Hne Hsub. apply Hpicked. split; [done|]. exists tag. split; [done|].
    left. split; [|done]. by destruct tag.
  - simpl. intros Hne Hsame Hthreshold. apply Hpicked. split; [done|].
    exists tag. split; [done|]. right. split; [done|].
    destruct (similarity_spec (lower (re_sub_non_alnum query))
                (lower (re_sub_non_alnum tag))) as (score & Hscore & _ & _ & Hone).
    exists score. split; [done|].
    rewrite (proj2 Hone) by done. done.
Qed.

Lemma find_best_tag_matches_finds_tag_witness :
  let item := VDict [("Tag", VStr "TK-01")] in
  let items := [VDict [("Tag", VStr "PU-02")]; item] in
  find_best_tag_matches "Status of tk-01 please" (VList items) default_match_threshold
  = Some [item] ∧
  item ∈ items ∧
  get item "Tag" (VStr "") = Some (VStr "TK-01") ∧
  "TK-01" ≠ "" ∧
  is_substring (lower "TK-01") (lower "Status of tk-01 please") = true ∧
  item ∈ [item].
Proof.
  assert (Hrun : find_best_tag_matches "Status of tk-01 please"
                   (VList [VDict [("Tag", VStr "PU-02")]; VDict [("Tag", VStr "TK-01")]])
                   default_match_threshold
                 = Some [VDict [("Tag", VStr "TK-01")]]) by (vm_compute; reflexivity).
  assert (Hin : VDict [("Tag", VStr "TK-01")]
                ∈ [VDict [("Tag", VStr "PU-02")]; VDict [("Tag", VStr "TK-01")]])
    by (right; left).
  assert (Hne : "TK-01" ≠ "") by done.
  exact (conj Hrun (conj Hin (conj eq_refl (conj Hne (conj eq_refl
           (proj1 (find_best_tag_matches_finds_tag "Status of tk-01 please" _
                     default_match_threshold _ _ "TK-01" Hrun Hin eq_refl)
                  Hne eq_refl)))))).
Defined.

(** X26. [find_pipeline_matches] returns for every query, and returns the
    pipelines it selects under their own keys, with their own entries and
    in the order of [PIPELINES]: a pipeline is selected when its
    lower-cased tag occurs in the lower-cased query, or when the
    similarity of its normalized tag to the normalized query reaches the
    threshold. (The keys of a dictionary are distinct.) *)
Theorem find_pipeline_matches_selects
        (items : dict) (query : string) (threshold : Q) :
  NoDup items.*1 →
  ∃ matches,
    find_pipeline_matches (VDict items) query threshold = Some matches ∧
    matches `sublist_of` items ∧
    ∀ pipe_tag pipe_info,
      (pipe_tag, pipe_info) ∈ matches ↔
      (pipe_tag, pipe_info) ∈ items ∧
      pipeline_selected (lower query) (Chat.normalize_tag (VStr query)) threshold
                        pipe_tag.
Proof.
  intros Hnodup. unfold find_pipeline_matches.
  destruct (match_pipelines_spec (lower query) (Chat.normalize_tag (VStr query))
              threshold items []) as (picked & -> & Hsub & Hpicked); [done|].
  by exists picked.
Qed.

Lemma find_pipeline_matches_selects_witness :
  let items : dict := [("P-100", VDict []); ("P-200", VDict [])] in
  NoDup items.*1 ∧
  ∃ matches,
    find_pipeline_matches (VDict items) "flow of p-200" default_match_threshold
    = Some matches ∧
    matches `sublist_of` items ∧
    ∀ pipe_tag pipe_info,
      (pipe_tag, pipe_info) ∈ matches ↔
      (pipe_tag, pipe_info) ∈ items ∧
      pipeline_selected (lower "flow of p-200")
                        (Chat.normalize_tag (VStr "flow of p-200"))
                        default_match_threshold pipe_tag.
Proof.
  assert (Hnodup : NoDup ["P-100"; "P-200"]).
  { apply NoDup_cons. split; [|apply NoDup_singleton].
    intros Hin. apply list_elem_of_singleton in Hin. done. }
  exact (conj Hnodup
           (find_pipeline_matches_selects [("P-100", VDict []); ("P-200", VDict [])]
              "flow of p-200" default_match_threshold Hnodup)).
Defined.

(** * The fields of a classified pipeline *)

Section ClassifierFields.

Variable all_pipeline_tags : list string.
Variables equipment_tags instrument_tags handvalve_tags : dict.
Variable threshold : Q.

#[local] Abbreviation resolve :=
  (find_best_match all_pipeline_tags equipment_tags instrument_tags
                   handvalve_tags threshold).
#[local] Abbreviation enrich_field :=
  (enrich_key all_pipeline_tags equipment_tags instrument_tags
              handvalve_tags threshold).
#[local] Abbreviation enrich_flow :=
  (enrich_complete_flow all_pipeline_tags equipment_tags instrument_tags
                        handvalve_tags threshold).
#[local] Abbreviation enrich :=
  (enrich_pipe all_pipeline_tags equipment_tags instrument_tags
               handvalve_tags threshold).

Implicit Types (d : dict) (key k : string) (new_pipe tag : value).

(** What lines 66-74 make of the field [key]. *)
Lemma enrich_key_field key d new_pipe :
  enrich_field key (VDict d) = Some new_pipe →
  ∃ d', new_pipe = VDict d' ∧
        match dict_lookup d key with
        | Some tag =>
            if truthy tag
            then ∃ m, resolve tag = Some m ∧
                      dict_lookup d' key = Some (classified tag m)
            else dict_lookup d' key = Some tag
        | None => dict_lookup d' key = None
        end.
Proof.
  unfold enrich_key. cbn [py_in getitem setitem].
  destruct (dict_lookup d key) as [tag|] eqn:Htag.
  - rewrite bool_decide_eq_true_2 by done. cbn [mbind option_bind].
    destruct (truthy tag).
    + intros (classified_tag & (m & Hm & ->)%classify_tag_Some & [= <-])%bind_Some.
      eexists. split; [done|]. exists m. split; [done|]. apply dict_lookup_set_eq.
    + intros [= <-]. by exists d.
  - rewrite bool_decide_eq_false_2 by (by intros [??]).
    intros [= <-]. by exists d.
Qed.

Lemma enrich_complete_flow_other d new_pipe :
  enrich_flow (VDict d) = Some new_pipe →
  ∃ d', new_pipe = VDict d' ∧ d'.*1 = d.*1 ∧
        ∀ k, k ≠ "complete_flow" → dict_lookup d' k = dict_lookup d k.
Proof.
  unfold enrich_complete_flow. cbn [py_in getitem setitem].
  case_bool_decide as Hin; [|intros [= <-]; eauto].
  destruct Hin as [flow Hflow]. rewrite Hflow. cbn [mbind option_bind].
  destruct flow; try (intros [= <-]; eauto).
  intros (enriched & _ & [= <-])%bind_Some.
  eexists. split; [done|]. split.
  - apply dict_set_keys_old. apply dict_lookup_Some_elem in Hflow.
    apply list_elem_of_fmap. by eexists (_, _).
  - intros k Hk. by apply dict_lookup_set_ne.
Qed.

(** The pass over one pipeline: which fields it leaves alone and what it
    makes of [start] and [end]. *)
Lemma enrich_pipe_fields d new_pipe :
  enrich (VDict d) = Some new_pipe →
  ∃ d', new_pipe = VDict d' ∧
    (∀ k, k ∉ ["start"; "end"; "complete_flow"; "all_connections"] →
          dict_lookup d' k = dict_lookup d k) ∧
    (∀ key, key ∈ ["start"; "end"] →
       match dict_lookup d key with
       | Some tag =>
           if truthy tag
           then ∃ m, resolve tag = Some m ∧
                     dict_lookup d' key = Some (classified tag m)
           else dict_lookup d' key = Some tag
       | None => dict_lookup d' key = None
       end).
Proof.
  unfold enrich_pipe.
  intros (p1 & H1 & Hrun)%bind_Some.
  pose proof (enrich_key_field _ _ _ H1) as (d1 & Heq1 & Hstart).
  apply enrich_key_dict in H1 as (d1' & -> & _ & Hd1).
  injection Heq1 as <-.
  apply bind_Some in Hrun as (p2 & H2 & Hrun).
  pose proof (enrich_key_field _ _ _ H2) as (d2 & Heq2 & Hend).
  apply enrich_key_dict in H2 as (d2' & -> & _ & Hd2).
  injection Heq2 as <-.
  apply bind_Some in Hrun as (p3 & H3 & H4).
  apply enrich_complete_flow_other in H3 as (d3 & -> & _ & Hd3).
  apply enrich_all_connections_dict in H4 as (d4 & -> & _ & Hd4).
  exists d4. split; [done|]. split.
  - intros k Hk. rewrite !not_elem_of_cons in Hk. destruct Hk as (? & ? & ? & ? & _).
    rewrite Hd4, Hd3, Hd2, Hd1 by done. done.
  - intros key Hkey. rewrite !elem_of_cons, elem_of_nil in Hkey.
    destruct Hkey as [->|[->|[]]].
    + rewrite Hd4, Hd3, Hd2 by done. exact Hstart.
    + rewrite Hd4, Hd3 by done. rewrite <- (Hd1 "end") by done. exact Hend.
Qed.

End ClassifierFields.

(** X27. Of a pipeline the classifier rewrites nothing but [start], [end],
    [complete_flow] and [all_connections]: every other field comes out as
    it went in. [start] and [end] are replaced by the resolver's verdict
    [{tag, category, details}] when they are truthy and are left as they
    are when they are missing, [None] or empty. The [process_data] of the
    document is handed on unchanged. *)
Theorem classifier_touches_four_fields
        (container_repr : value → string) (set_order : list string → list string)
        (threshold : Q) (data out : value) (flow_data process_data pipe_info : dict)
        (pipe_tag : string) :
  classify_tags_preserve_flow container_repr set_order threshold data = Some out →
  get_dict data "complete_pipeline_flows" = Some flow_data →
  get_dict data "process_data" = Some process_data →
  NoDup flow_data.*1 →
  dict_lookup flow_data pipe_tag = Some (VDict pipe_info) →
  getitem out "process_data" = Some (VDict process_data) ∧
  ∃ equipment_tags instrument_tags handvalve_tags classified_flows new_pipe,
    reference_tags container_repr process_data "Equipment" = Some equipment_tags ∧
    reference_tags container_repr process_data "Instrumentation"
    = Some instrument_tags ∧
    reference_tags container_repr process_data "HandValves" = Some handvalve_tags ∧
    getitem out "complete_pipeline_flows" = Some (VDict classified_flows) ∧
    dict_lookup classified_flows pipe_tag = Some (VDict new_pipe) ∧
    (∀ k, k ∉ ["start"; "end"; "complete_flow"; "all_connections"] →
          dict_lookup new_pipe k = dict_lookup pipe_info k) ∧
    (∀ key, key ∈ ["start"; "end"] →
       match dict_lookup pipe_info key with
       | Some tag =>
           if truthy tag
           then ∃ m, find_best_match (set_order flow_data.*1) equipment_tags
                       instrument_tags handvalve_tags threshold tag = Some m ∧
                     dict_lookup new_pipe key = Some (classified tag m)
           else dict_lookup new_pipe key = Some tag
       | None => dict_lookup new_pipe key = None
       end).
Proof.
  intros Hrun Hdata Hproc Hnodup Hpipe.
  unfold classify_tags_preserve_flow in Hrun. rewrite Hdata, Hproc in Hrun.
  cbn [mbind option_bind] in Hrun.
  apply bind_Some in Hrun as (equipment_tags & Heq & Hrun).
  apply bind_Some in Hrun as (instrument_tags & Hin & Hrun).
  apply bind_Some in Hrun as (handvalve_tags & Hhv & Hrun).
  apply bind_Some in Hrun as (classified_flows & Hflows & Hrun).
  injection Hrun as <-. split; [done|].
  destruct (enrich_flows_spec _ _ _ _ _ _ _ _ Hflows) as (_ & _ & Hitems); [done|].
  destruct (Hitems pipe_tag (VDict pipe_info)) as (new_pipe & Henrich & Hlook).
  { by apply dict_lookup_Some_elem. }
  apply enrich_pipe_fields in Henrich as (d' & -> & Hother & Hends).
  by exists equipment_tags, instrument_tags, handvalve_tags, classified_flows, d'.
Qed.

Lemma classifier_touches_four_fields_witness :
  ∃ flow_data process_data pipe_info,
    classify_tags_preserve_flow (λ _, "") id default_threshold example_document
    = Some example_output ∧
    get_dict example_document "complete_pipeline_flows" = Some flow_data ∧
    get_dict example_document "process_data" = Some process_data ∧
    NoDup flow_data.*1 ∧
    dict_lookup flow_data "P-100" = Some (VDict pipe_info) ∧
    getitem example_output "process_data" = Some (VDict process_data) ∧
    ∃ equipment_tags instrument_tags handvalve_tags classified_flows new_pipe,
      reference_tags (λ _, "") process_data "Equipment" = Some equipment_tags ∧
      reference_tags (λ _, "") process_data "Instrumentation" = Some instrument_tags ∧
      reference_tags (λ _, "") process_data "HandValves" = Some handvalve_tags ∧
      getitem example_output "complete_pipeline_flows" = Some (VDict classified_flows) ∧
      dict_lookup classified_flows "P-100" = Some (VDict new_pipe) ∧
      (∀ k, k ∉ ["start"; "end"; "complete_flow"; "all_connections"] →
            dict_lookup new_pipe k = dict_lookup pipe_info k) ∧
      (∀ key, key ∈ ["start"; "end"] →
         match dict_lookup pipe_info key with
         | Some tag =>
             if truthy tag
             then ∃ m, find_best_match (id flow_data.*1) equipment_tags
                         instrument_tags handvalve_tags default_threshold tag
                       = Some m ∧
                       dict_lookup new_pipe key = Some (classified tag m)
             else dict_lookup new_pipe key = Some tag
         | None => dict_lookup new_pipe key = None
         end).
Proof.
  assert (Hrun : classify_tags_preserve_flow (λ _, "") id default_threshold
                   example_document = Some example_output)
    by (vm_compute; reflexivity).
  assert (Hnodup : NoDup ["P-100"]) by apply NoDup_singleton.
  eexists _, _, _.
  exact (conj Hrun (conj eq_refl (conj eq_refl (conj Hnodup (conj eq_refl
           (classifier_touches_four_fields (λ _, "") id default_threshold
              example_document example_output _ _ _ "P-100"
              Hrun eq_refl eq_refl Hnodup eq_refl)))))).
Defined.

(** * Properties of [clean_text] *)

Section CleanText.

Implicit Types (s text : string) (c x : ascii) (l : list ascii).






Lemma chars_String c s : chars (String c s) = c :: chars s.
Proof. done. Qed.













Lemma filter_ext_in l (f g : ascii → bool) :
  (∀ c, f c = g c) → List.filter f l = List.filter g l.
Proof. intros Hfg. induction l as [|c l IH]; [done|]. simpl. by rewrite Hfg, IH. Qed.


End CleanText.



Example clean_text_example :
  clean_text "  TK-01   B " = "TK-01 B" ∧
  clean_text (String A_circumflex (String degree "C")) = "C" ∧
  clean_text "nan" = "".
Proof. by vm_compute. Qed.

(** * The reverse index *)

Section TagIndex.

Implicit Types (index idx : tag_index) (pipe_tag p q n norm : string)
  (t step pipe_info : value) (steps : list value) (items : dict).

Lemma indexed_empty n p : ¬ indexed ∅ n p.
Proof. intros (ids & Hids & _). by rewrite lookup_empty in Hids. Qed.

Lemma index_tag_indexed pipe_tag idx t n q :
  indexed (index_tag pipe_tag idx t) n q ↔
  indexed idx n q ∨ (truthy t = true ∧ Chat.normalize_tag t = n ∧ q = pipe_tag).
Proof.
  unfold index_tag. destruct (truthy t); [|split; [by left|by intros [?|[? _]]]].
  unfold indexed. destruct (decide (Chat.normalize_tag t = n)) as [<-|Hne].
  - rewrite lookup_insert_eq. split.
    + intros (ids & [= <-] & [Hq|Hq%elem_of_singleton]%elem_of_union); [|by right].
      left. destruct (idx !! Chat.normalize_tag t) as [ids|]; [by exists ids|].
      by apply elem_of_empty in Hq.
    + intros [(ids & Hids & Hq)|(_ & _ & ->)]; eexists; (split; [done|]).
      * rewrite Hids. simpl. apply elem_of_union. by left.
      * apply elem_of_union. right. by apply elem_of_singleton.
  - rewrite lookup_insert_ne by done. split; [by left|].
    by intros [?|(_ & ? & _)].
Qed.

Lemma index_step_indexed pipe_tag idx step idx' :
  index_step pipe_tag idx step = Some idx' →
  ∀ n q, indexed idx' n q ↔
         indexed idx n q ∨
         (q = pipe_tag ∧ ∃ t, step_carries step t ∧ Chat.normalize_tag t = n).
Proof.
  unfold index_step.
  intros (step_tag & Hstep & Hrun)%bind_Some.
  apply bind_Some in Hrun as (details & Hdetails & Hrun).
  apply bind_Some in Hrun as (detail_tag & Hdetail & Hrun).
  destruct (hashable step_tag && hashable detail_tag); [|done].
  injection Hrun as <-. intros n q. rewrite !index_tag_indexed. split.
  - intros [[?|(Ht & Hn & ->)]|(Ht & Hn & ->)]; [by left|right..];
      (split; [done|]).
    + exists step_tag. split; [|done]. split; [done|by left].
    + exists detail_tag. split; [|done]. split; [done|]. right. by exists details.
  - intros [?|(-> & t & [Ht [Hget|(details' & Hd' & Hget)]] & Hn)]; [by left; left|..].
    + rewrite Hstep in Hget. injection Hget as <-. left. right. done.
    + rewrite Hdetails in Hd'. injection Hd' as <-.
      rewrite Hdetail in Hget. injection Hget as <-. right. done.
Qed.

Lemma index_steps_indexed pipe_tag steps : ∀ idx idx',
  index_steps pipe_tag idx steps = Some idx' →
  ∀ n q, indexed idx' n q ↔
         indexed idx n q ∨
         (q = pipe_tag ∧
          ∃ step t, step ∈ steps ∧ step_carries step t ∧ Chat.normalize_tag t = n).
Proof.
  induction steps as [|step steps IH]; intros idx idx'; simpl.
  { intros [= <-] n q. split; [by left|].
    intros [?|(_ & step & t & Hin & _)]; [done|]. by apply elem_of_nil in Hin. }
  intros (idx1 & Hstep & Hrun)%bind_Some n q.
  rewrite (IH _ _ Hrun), (index_step_indexed _ _ _ _ Hstep). split.
  - intros [[?|(-> & t & Ht & Hn)]|(-> & step' & t & Hin & Ht & Hn)]; [by left|right..];
      (split; [done|]).
    + exists step, t. split; [left|done].
    + exists step', t. split; [by right|done].
  - intros [?|(-> & step' & t & [->|Hin]%elem_of_cons & Ht & Hn)]; [by left; left|..].
    + left. right. split; [done|]. by exists t.
    + right. split; [done|]. by exists step', t.
Qed.

Lemma index_pipelines_indexed items : ∀ idx idx',
  index_pipelines items idx = Some idx' →
  ∀ n q, indexed idx' n q ↔
         indexed idx n q ∨
         ∃ pipe_info t, (q, pipe_info) ∈ items ∧ carries_tag pipe_info t ∧
                        Chat.normalize_tag t = n.
Proof.
  induction items as [|[pipe_tag pipe_info] items IH]; intros idx idx'; simpl.
  { intros [= <-] n q. split; [by left|].
    intros [?|(info & t & Hin & _)]; [done|]. by apply elem_of_nil in Hin. }
  intros (flow & Hflow & Hrun)%bind_Some.
  apply bind_Some in Hrun as (steps & Hsteps & Hrun).
  apply bind_Some in Hrun as (idx1 & Hidx1 & Hrun). intros n q.
  rewrite (IH _ _ Hrun), (index_steps_indexed _ _ _ _ Hidx1). split.
  - intros [[?|(-> & step & t & Hin & Hcarries & Hn)]|(info & t & Hin & Hc & Hn)];
      [by left|right..].
    + exists pipe_info, t. split; [left|]. split; [|done].
      by exists flow, steps, step.
    + exists info, t. split; [by right|done].
  - intros [?|(info & t & [[= -> ->]|Hin]%elem_of_cons & Hc & Hn)]; [by left; left|..].
    + destruct Hc as (flow' & steps' & step & Hflow' & Hsteps' & Hin & Hcarries).
      rewrite Hflow in Hflow'. injection Hflow' as <-.
      rewrite Hsteps in Hsteps'. injection Hsteps' as <-.
      left. right. split; [done|]. exists step, t. done.
    + right. by exists info, t.
Qed.

Lemma is_substring_refl (s : string) : is_substring s s = true.
Proof.
  assert (Hprefix : String.prefix s s = true).
  { induction s as [|c s IH]; [done|]. simpl.
    destruct (ascii_dec c c); [done|congruence]. }
  destruct s; simpl in *; by rewrite ?Hprefix.
Qed.

Lemma tag_matches_spec threshold q (k : string) :
  (tag_matches threshold q k = Some true ∧ tag_hit threshold q k) ∨
  (tag_matches threshold q k = Some false ∧ ¬ tag_hit threshold q k).
Proof.
  unfold tag_matches, tag_hit.
  destruct (is_substring k q) eqn:H1; [left; by auto|].
  destruct (is_substring q k) eqn:H2; [left; by auto|]. simpl.
  destruct (at_least_spec threshold q k) as (score & Hscore & [[Hle ->]|[Hle ->]]).
  - left. split; [done|]. right. right. by exists score.
  - right. split; [done|]. intros [?|[?|(score' & Hscore' & Hle')]]; [done..|].
    rewrite Hscore in Hscore'. by injection Hscore' as <-.
Qed.

Section Results.

Variable PIPELINES : dict.

Lemma holds_ext results (S S' : string → Prop) :
  (∀ p, S p ↔ S' p) → holds PIPELINES results S → holds PIPELINES results S'.
Proof. intros Hext Hr p v. by rewrite (Hr p v), (Hext p). Qed.

Lemma add_pipelines_holds (pipe_ids : gset string) results (S : string → Prop) :
  holds PIPELINES results S →
  holds PIPELINES (add_pipelines PIPELINES pipe_ids results)
        (λ p, S p ∨ p ∈ pipe_ids).
Proof.
  intros Hr. unfold add_pipelines.
  apply (set_fold_ind_L (λ r (X : gset string),
           holds PIPELINES r (λ p, S p ∨ p ∈ X))).
  - eapply holds_ext; [|exact Hr]. intros p. rewrite elem_of_empty. tauto.
  - intros x X r Hx HX p v.
    destruct (dict_lookup PIPELINES x) as [info|] eqn:Hinfo.
    + destruct (decide (x = p)) as [->|Hne].
      * rewrite lookup_insert_eq, Hinfo. split.
        -- intros [= <-]. split; [done|]. right. apply elem_of_union. left.
           by apply elem_of_singleton.
        -- by intros [[= <-] _].
      * rewrite lookup_insert_ne by done. rewrite (HX p v).
        rewrite elem_of_union, elem_of_singleton. split; [tauto|].
        intros [? [?|[?|?]]]; [tauto|congruence|tauto].
    + rewrite (HX p v). rewrite elem_of_union, elem_of_singleton.
      split; [tauto|]. intros [Hp [?|[->|?]]]; [tauto|congruence|tauto].
Qed.

End Results.

End TagIndex.

(** ** Which pipelines a tag retrieves *)

(** X29. The reverse index files a pipeline under a normalized tag exactly
    when a step of the pipeline's flow carries a truthy tag, as its [tag]
    or as the [Tag] of its [details], with that normalization. *)
Theorem build_tag_index_files_carried_tags
        (items : dict) (index : tag_index) (norm pipe_tag : string) :
  build_tag_index (VDict items) = Some index →
  indexed index norm pipe_tag ↔
  ∃ pipe_info t,
    (pipe_tag, pipe_info) ∈ items ∧ carries_tag pipe_info t ∧
    Chat.normalize_tag t = norm.
Proof.
  simpl. intros Hrun. rewrite (index_pipelines_indexed _ _ _ Hrun). split.
  - intros [Hempty|?]; [|done]. by apply indexed_empty in Hempty.
  - by right.
Qed.

Lemma build_tag_index_files_carried_tags_witness :
  let items : dict :=
    [("P-100",
      VDict [("complete_flow",
              VList [VDict [("tag", VStr "TK-01"); ("category", VStr "equipment");
                            ("details", VDict [("Tag", VStr "TK01")])]])])] in
  ∃ index,
    build_tag_index (VDict items) = Some index ∧
    (indexed index "tk01" "P-100" ↔
     ∃ pipe_info t,
       ("P-100", pipe_info) ∈ items ∧ carries_tag pipe_info t ∧
       Chat.normalize_tag t = "tk01").
Proof.
  intros items.
  destruct (build_tag_index (VDict items)) as [index|] eqn:Hrun;
    [|by vm_compute in Hrun].
  exists index. split; [done|].
  exact (build_tag_index_files_carried_tags items index "tk01" "P-100" Hrun).
Defined.

(** X30. [find_pipelines_for_tag] returns for every query. For an empty
    query, or one without a letter or digit, it returns nothing. Otherwise
    it returns the entries of [PIPELINES], each under its own key, for
    exactly the pipelines that the index files under some normalized tag
    that is part of the normalized query, or has the normalized query as a
    part, or is similar to it up to the threshold. *)
Theorem find_pipelines_for_tag_selects
        (TAG_TO_PIPELINES : tag_index) (PIPELINES : dict) (tag_query : string)
        (threshold : Q) :
  ∃ results,
    find_pipelines_for_tag TAG_TO_PIPELINES PIPELINES tag_query threshold
    = Some results ∧
    ∀ pipe_tag pipe_info,
      results !! pipe_tag = Some pipe_info ↔
      dict_lookup PIPELINES pipe_tag = Some pipe_info ∧
      tag_query ≠ "" ∧
      Chat.normalize_tag (VStr tag_query) ≠ "" ∧
      ∃ t_norm,
        indexed TAG_TO_PIPELINES t_norm pipe_tag ∧
        tag_hit threshold (Chat.normalize_tag (VStr tag_query)) t_norm.
Proof.
  unfold find_pipelines_for_tag.
  case_bool_decide as Hquery.
  { exists ∅. split; [done|]. intros p v. rewrite lookup_empty. split; [done|].
    by intros (_ & ? & _). }
  set (q_norm := Chat.normalize_tag (VStr tag_query)).
  case_bool_decide as Hnorm.
  { exists ∅. split; [done|]. intros p v. rewrite lookup_empty. split; [done|].
    by intros (_ & _ & ? & _). }
  set (direct := default ∅ (TAG_TO_PIPELINES !! q_norm)).
  assert (Hfold : ∃ results,
    map_fold (λ t_norm pipe_ids (results : option (gmap string value)),
                results ← results;
                match tag_matches threshold q_norm t_norm with
                | Some true => Some (add_pipelines PIPELINES pipe_ids results)
                | Some false => Some results
                | None => None
                end)
             (Some (add_pipelines PIPELINES direct ∅)) TAG_TO_PIPELINES
    = Some results ∧
    holds PIPELINES results
          (λ p, p ∈ direct ∨
                ∃ t_norm pipe_ids,
                  TAG_TO_PIPELINES !! t_norm = Some pipe_ids ∧ p ∈ pipe_ids ∧
                  tag_hit threshold q_norm t_norm)).
  { apply (map_fold_weak_ind
             (λ acc (m : tag_index),
                ∃ results, acc = Some results ∧
                  holds PIPELINES results
                        (λ p, p ∈ direct ∨
                              ∃ t_norm pipe_ids,
                                m !! t_norm = Some pipe_ids ∧ p ∈ pipe_ids ∧
                                tag_hit threshold q_norm t_norm))).
    - eexists. split; [done|].
      eapply holds_ext; [|apply (add_pipelines_holds PIPELINES direct ∅ (λ _, False))].
      + intros p. split; [intros [[]|?]; by left|].
        intros [?|(t & ids & Hlook & _)]; [by right|].
        by rewrite lookup_empty in Hlook.
      + intros p v. rewrite lookup_empty. split; [done|by intros [_ []]].
    - intros t_norm pipe_ids m acc Hfresh (results & -> & Hresults).
      cbn [mbind option_bind].
      destruct (tag_matches_spec threshold q_norm t_norm) as [[-> Hhit]|[-> Hhit]].
      + eexists. split; [done|].
        eapply holds_ext; [|apply add_pipelines_holds, Hresults].
        intros p. split.
        * intros [[?|(t & ids & Hlook & Hp & Ht)]|Hp]; [by left|right..].
          -- exists t, ids. split; [|done]. rewrite lookup_insert_ne; [done|].
             intros <-. by rewrite Hfresh in Hlook.
          -- exists t_norm, pipe_ids. by rewrite lookup_insert_eq.
        * intros [?|(t & ids & Hlook & Hp & Ht)]; [by left; left|].
          apply lookup_insert_Some in Hlook as [[<- <-]|[Hne Hlook]]; [by right|].
          left. right. by exists t, ids.
      + exists results. split; [done|].
        eapply holds_ext; [|exact Hresults].
        intros p. split.
        * intros [?|(t & ids & Hlook & Hp & Ht)]; [by left|right].
          exists t, ids. split; [|done]. rewrite lookup_insert_ne; [done|].
          intros <-. by rewrite Hfresh in Hlook.
        * intros [?|(t & ids & Hlook & Hp & Ht)]; [by left|].
          apply lookup_insert_Some in Hlook as [[<- <-]|[Hne Hlook]]; [done|].
          right. by exists t, ids. }
  destruct Hfold as (results & Hrun & Hresults).
  exists results. split; [exact Hrun|]. intros p v. rewrite (Hresults p v).
  split.
  - intros [Hp Hhit]. split; [done|]. split; [done|]. split; [done|].
    destruct Hhit as [Hdirect|(t & ids & Hlook & Hin & Ht)].
    + exists q_norm. split.
      * unfold direct in Hdirect.
        destruct (TAG_TO_PIPELINES !! q_norm) as [ids|] eqn:Hids;
          [by exists ids|by apply elem_of_empty in Hdirect].
      * left. apply is_substring_refl.
    + exists t. split; [by exists ids|done].
  - intros (Hp & _ & _ & t & (ids & Hlook & Hin) & Ht). split; [done|].
    right. by exists t, ids.
Qed.

Example find_pipelines_for_tag_example :
  let PIPELINES : dict :=
    [("P-100",
      VDict [("complete_flow",
              VList [VDict [("tag", VStr "TK-01"); ("details", VNone)]])]);
     ("P-200",
      VDict [("complete_flow",
              VList [VDict [("tag", VStr "HV-7"); ("details", VNone)]])])] in
  ∃ index results,
    build_tag_index (VDict PIPELINES) = Some index ∧
    find_pipelines_for_tag index PIPELINES "tk 01" default_tag_threshold
    = Some results ∧
    is_Some (results !! "P-100") ∧ results !! "P-200" = None ∧
    find_pipelines_for_tag index PIPELINES "?!" default_tag_threshold = Some ∅.
Proof.
  intros PIPELINES.
  destruct (build_tag_index (VDict PIPELINES)) as [index|] eqn:Hindex;
    [|by vm_compute in Hindex].
  destruct (find_pipelines_for_tag_selects index PIPELINES "tk 01"
              default_tag_threshold) as (results & Hrun & Hresults).
  exists index, results. split; [done|]. split; [done|].
  assert (Hfiled : ∀ n p, indexed index n p ↔
            ∃ pipe_info t, (p, pipe_info) ∈ PIPELINES ∧ carries_tag pipe_info t ∧
                           Chat.normalize_tag t = n).
  { intros n p. change (index_pipelines PIPELINES ∅ = Some index) in Hindex.
    rewrite (index_pipelines_indexed _ _ _ Hindex).
    split; [|by right]. intros [Hempty|?]; [|done]. by apply indexed_empty in Hempty. }
  split; [|split; [|done]].
  - eexists. apply Hresults. split; [reflexivity|]. split; [done|]. split; [done|].
    exists "tk01". split; [|left; reflexivity].
    apply Hfiled. eexists _, (VStr "TK-01"). split; [left|]. split; [|done].
    eexists _, _, _. split; [reflexivity|]. split; [reflexivity|].
    split; [left|]. split; [done|]. by left.
  - destruct (results !! "P-200") as [v|] eqn:Hv; [|done]. exfalso.
    apply Hresults in Hv as (_ & _ & _ & t & Hidx & Hhit).
    apply Hfiled in Hidx as (info & tv & Hin & Hcarries & <-).
    unfold PIPELINES in Hin. rewrite !elem_of_cons, elem_of_nil in Hin.
    destruct Hin as [[= _ _]|[[= ->]|[]]].
    destruct Hcarries as (flow & steps & step & [= <-] & [= <-] & Hstep & Htruthy & Hget).
    apply list_elem_of_singleton in Hstep as ->.
    destruct Hget as [[= <-]|(details & [= <-] & [= <-])]; [|done].
    destruct Hhit as [Hsub|[Hsub|(score & Hscore & Hle)]];
      [by vm_compute in Hsub..|].
    vm_compute in Hscore. injection Hscore as <-. by vm_compute in Hle.
Qed.
